(** * Club image processor: CSV intake, image pipeline and Airtable reconciliation

    A shallow embedding of the server code of joinphilly/club-image-processor
    (the CSV-upload server, the webhook server and the single-image endpoint)
    together with the properties of its tabular parser, record extractor,
    per-slot pipeline and record reconciler. *)

From Stdlib Require Import NArith Ascii String List Bool Lia.
From stdpp Require Import base option list strings pretty gmap.

Local Open Scope N_scope.

(** ** JavaScript strings

    A JavaScript string is a sequence of UTF-16 code units; indexing
    ([csvText[i]]), [length] and the non-unicode regular expressions of the
    source all work on code units, so a string is a list of numbers. *)

Abbreviation jschar := N (only parsing).
Abbreviation jsstring := (list N) (only parsing).

(** Literals of the source, written as Rocq strings of ASCII characters. *)
Definition js (s : string) : jsstring := N_of_ascii <$> list_ascii_of_string s.

Definition DQUOTE : jschar := 34.
Definition COMMA : jschar := 44.
Definition LF : jschar := 10.
Definition CR : jschar := 13.
Definition HYPHEN : jschar := 45.
Definition SPACE : jschar := 32.
Definition UNDERSCORE : jschar := 95.
Definition BACKSLASH : jschar := 92.

(** [s === t] on strings and the truthiness of a string operand. *)
Definition str_eqb (s t : jsstring) : bool := bool_decide (s = t).
Definition truthy (s : jsstring) : bool :=
  match s with [] => false | _ :: _ => true end.

(** ECMAScript WhiteSpace and LineTerminator code units: the class matched by
    [\s] and the characters removed by [String.prototype.trim]. *)
Definition is_space (c : jschar) : bool :=
  ((9 <=? c) && (c <=? 13)) || (c =? 32) || (c =? 160) || (c =? 5760)
  || ((8192 <=? c) && (c <=? 8202)) || (c =? 8232) || (c =? 8233)
  || (c =? 8239) || (c =? 8287) || (c =? 12288) || (c =? 65279).

Definition is_upper (c : jschar) : bool := (65 <=? c) && (c <=? 90).
Definition is_lower (c : jschar) : bool := (97 <=? c) && (c <=? 122).
Definition is_digit (c : jschar) : bool := (48 <=? c) && (c <=? 57).

(** [\w] without the unicode flag: [A-Za-z0-9_]. *)
Definition is_word (c : jschar) : bool :=
  is_upper c || is_lower c || is_digit c || (c =? UNDERSCORE).

Fixpoint drop_while (p : jschar -> bool) (s : jsstring) : jsstring :=
  match s with
  | [] => []
  | c :: rest => if p c then drop_while p rest else s
  end.

(** [s.trim()] *)
Definition trim (s : jsstring) : jsstring :=
  reverse (drop_while is_space (reverse (drop_while is_space s))).

(** ** TabularParser: the scanning loop of [parseCSV] *)

Record scan_state := ScanState {
  rows : list (list jsstring);
  currentRow : list jsstring;
  currentField : jsstring;
  inQuotes : bool
}.

Definition scan_init : scan_state := ScanState [] [] [] false.

(** [field => field.trim() !== ''] *)
Definition field_nonblank (field : jsstring) : bool :=
  negb (str_eqb (trim field) []).

(** [if (currentRow.length > 0 && currentRow.some(...)) rows.push(currentRow)] *)
Definition push_row_if_nonblank (rs : list (list jsstring)) (row : list jsstring)
  : list (list jsstring) :=
  if (0 <? length row)%nat && existsb field_nonblank row then rs ++ [row] else rs.

(** One iteration of the [while] body: [char = csvText[i]],
    [nextChar = csvText[i + 1]] ([None] is [undefined]).  Returns the new
    state and the new value of [i]. *)
Definition scan_step (char : jschar) (nextChar : option jschar)
    (st : scan_state) (i : nat) : scan_state * nat :=
  if char =? DQUOTE then
    if inQuotes st && bool_decide (nextChar = Some DQUOTE) then
      (ScanState (rows st) (currentRow st) (currentField st ++ [DQUOTE]) (inQuotes st),
       (i + 2)%nat)
    else
      (ScanState (rows st) (currentRow st) (currentField st) (negb (inQuotes st)),
       (i + 1)%nat)
  else if (char =? COMMA) && negb (inQuotes st) then
    (ScanState (rows st) (currentRow st ++ [currentField st]) [] (inQuotes st),
     (i + 1)%nat)
  else if ((char =? LF) || (char =? CR)) && negb (inQuotes st) then
    let row := currentRow st ++ [currentField st] in
    let i' := if (char =? CR) && bool_decide (nextChar = Some LF)
              then (i + 1)%nat else i in
    (ScanState (push_row_if_nonblank (rows st) row) [] [] (inQuotes st),
     (i' + 1)%nat)
  else
    (ScanState (rows st) (currentRow st) (currentField st ++ [char]) (inQuotes st),
     (i + 1)%nat).

(** [while (i < csvText.length) { ... }]: [csvText !! i] is defined exactly
    when [i < csvText.length].  [None] means the fuel ran out before the loop
    condition became false. *)
Fixpoint scan_loop (fuel : nat) (csvText : jsstring) (st : scan_state) (i : nat)
  : option scan_state :=
  match csvText !! i with
  | None => Some st
  | Some char =>
      match fuel with
      | O => None
      | S fuel' =>
          let '(st', i') := scan_step char (csvText !! (i + 1)%nat) st i in
          scan_loop fuel' csvText st' i'
      end
  end.

(** "Don't forget the last field/row". *)
Definition scan_finish (st : scan_state) : list (list jsstring) :=
  if truthy (currentField st) || (0 <? length (currentRow st))%nat then
    push_row_if_nonblank (rows st) (currentRow st ++ [currentField st])
  else rows st.

(** The loop resumed at index [i] in state [st]; the fuel [csvText.length]
    is enough from every index. *)
Definition scan_from (csvText : jsstring) (st : scan_state) (i : nat)
  : option scan_state :=
  scan_loop (length csvText) csvText st i.

(** The spec's [parse]: lines 45-95 of [parseCSV]. *)
Definition parse (csvText : jsstring) : option (list (list jsstring)) :=
  scan_finish <$> scan_from csvText scan_init 0.

(** A row as the parser may return it: some field is non-blank after trimming. *)
Definition row_nonblank (row : list jsstring) : Prop :=
  ∃ field, field ∈ row ∧ trim field ≠ [].

(** The extra character consumed when the terminator is the CR of a CR LF pair. *)
Definition crlf_extra (terminator : jschar) (rest : jsstring) : nat :=
  if (terminator =? CR) && bool_decide (head rest = Some LF) then 1%nat else 0%nat.

(** The loop variables [(st, i)] at the start of some iteration of the loop
    run on [csvText]. *)
Inductive visits (csvText : jsstring) : scan_state → nat → Prop :=
| visits_start : visits csvText scan_init 0
| visits_next st i char :
    visits csvText st i → csvText !! i = Some char →
    visits csvText (scan_step char (csvText !! (i + 1)%nat) st i).1
                   (scan_step char (csvText !! (i + 1)%nat) st i).2.

(** The state at the start of a row: nothing collected, outside quotes. *)
Definition row_start (rs : list (list jsstring)) : scan_state :=
  ScanState rs [] [] false.

(** The content of a quoted field that runs to the end of the input: the
    characters after the opening quote, each doubled quote read as one quote
    character.  [None] when a lone quote closes the field. *)
Fixpoint open_quoted_content (q : list N) : option (list N) :=
  match q with
  | [] => Some []
  | c :: rest =>
      if c =? DQUOTE then
        match rest with
        | d :: rest' =>
            if d =? DQUOTE then (λ content, DQUOTE :: content) <$> open_quoted_content rest'
            else None
        | [] => None
        end
      else (λ content, c :: content) <$> open_quoted_content rest
  end.

(** ** String helpers used by the extractor and the slug functions *)

(** [s.split(',')] for a one-character separator. *)
Fixpoint split_on (sep : jschar) (s : jsstring) : list jsstring :=
  match s with
  | [] => [[]]
  | c :: rest =>
      if c =? sep then [] :: split_on sep rest
      else match split_on sep rest with
           | piece :: pieces => (c :: piece) :: pieces
           | [] => [[c]]
           end
  end.

(** [s.replace(/P+/g, r)]: every maximal run of characters of class [p] is
    replaced by the single character [r]. *)
Fixpoint squeeze_from (p : jschar -> bool) (r : jschar) (in_run : bool)
    (s : jsstring) : jsstring :=
  match s with
  | [] => []
  | c :: rest =>
      if p c then
        if in_run then squeeze_from p r true rest
        else r :: squeeze_from p r true rest
      else c :: squeeze_from p r false rest
  end.
Definition squeeze (p : jschar -> bool) (r : jschar) (s : jsstring) : jsstring :=
  squeeze_from p r false s.

Definition is_hyphen (c : jschar) : bool := c =? HYPHEN.

(** [no_runs p prev s]: no two characters of class [p] are adjacent in [s],
    and [s] does not start with one when [prev] says the character before
    [s] was of class [p]. *)
Fixpoint no_runs (p : jschar -> bool) (prev : bool) (s : jsstring) : bool :=
  match s with
  | [] => true
  | c :: rest => if p c then negb prev && no_runs p true rest
                 else no_runs p false rest
  end.

(** The characters a cleaned club name is made of: [a-z0-9_-]. *)
Definition is_clean_char (c : jschar) : bool :=
  is_lower c || is_digit c || (c =? UNDERSCORE) || (c =? HYPHEN).

(** The characters a file-name slug is made of: [a-z0-9-]. *)
Definition is_slug_char (c : jschar) : bool :=
  is_lower c || is_digit c || (c =? HYPHEN).

(** Case mapping of one ASCII letter. *)
Definition ascii_lower (c : jschar) : jschar := if is_upper c then c + 32 else c.
Definition ascii_upper (c : jschar) : jschar := if is_lower c then c - 32 else c.
Definition is_ascii (c : jschar) : bool := c <? 128.

(** ** The platform

    Built-ins and services the source calls but does not define.  [World]
    is the state of everything outside the process (remote hosts, the
    Cloudinary account, the Airtable base, the clock). *)

Inductive error_kind := PlainError | TypeError.
Record js_error := JsError { kind : error_kind; message : jsstring }.

(** The completion of an [await]ed call: a value or a thrown error. *)
Inductive outcome (A : Type) :=
| Ok (a : A)
| Throw (e : js_error).
Arguments Ok {A} a.
Arguments Throw {A} e.

Definition bytes := list N.

(** What the code reads of a [fetch] response for an image. *)
Record image_response := ImageResponse {
  img_ok : bool;
  img_status : N;
  img_body : outcome bytes          (* [await response.buffer()] *)
}.

(** The [result] argument of the Cloudinary upload callback. *)
Record upload_result := UploadResult {
  secure_url : jsstring;
  public_id : jsstring;
  up_width : N;
  up_height : N
}.

(** The options object given to [upload_stream]. *)
Record upload_options := UploadOptions {
  opt_public_id : jsstring;
  opt_format : jsstring;
  opt_tags : list jsstring
}.

(** What the code reads of an Airtable search response: [ok], [status], the
    ids of [records] in the JSON body and [error.message] of an error body.
    The body of an OK response is taken to be what the Airtable API sends, a
    JSON object with a [records] array. *)
Record search_response := SearchResponse {
  s_ok : bool;
  s_status : N;
  s_records : list jsstring;
  s_error_message : option jsstring
}.

Record patch_response := PatchResponse {
  p_ok : bool;
  p_status : N;
  p_error_message : option jsstring
}.

(** Values stored in the [updateFields] object. *)
Inductive field_value :=
| FString (s : jsstring)
| FNumber (n : N)
| FJsonArray (urls : list jsstring)        (* [JSON.stringify(urls)] *)
| FAttachments (urls : list jsstring).     (* [urls.map(url => ({url}))] *)

Record platform (World : Type) := Platform {
  (** [new URL(string)] returns normally *)
  url_parses : jsstring -> bool;
  (** [String.prototype.toLowerCase] *)
  toLowerCase : jsstring -> jsstring;
  (** [fetch(imageUrl)] *)
  fetch_image : jsstring -> World -> outcome image_response * World;
  (** [sharp(buffer).resize(width, null, ...).webp({quality: 85}).toBuffer()] *)
  sharp_resize_webp : bytes -> N -> outcome bytes;
  (** [cloudinary.uploader.upload_stream(options, callback).end(buffer)]:
      the callback receives an error (its message) or a result *)
  cloudinary_upload : upload_options -> bytes -> World -> (jsstring + upload_result) * World;
  (** [fetch(searchUrl + '?filterByFormula=' + encodeURIComponent(formula))] *)
  airtable_search : jsstring -> World -> outcome search_response * World;
  (** [fetch(searchUrl + '/' + recordId, {method: 'PATCH', body: {fields}})] *)
  airtable_patch : jsstring -> gmap string field_value -> World -> outcome patch_response * World;
  (** [new Date().toISOString()] *)
  now_iso : World -> jsstring
}.
Arguments url_parses {World}.
Arguments toLowerCase {World}.
Arguments fetch_image {World}.
Arguments sharp_resize_webp {World}.
Arguments cloudinary_upload {World}.
Arguments airtable_search {World}.
Arguments airtable_patch {World}.
Arguments now_iso {World}.

(** [process.env] as far as the code reads it. *)
Record environment := Environment {
  CLOUDINARY_URL : option jsstring;
  CLOUDINARY_CLOUD_NAME : option jsstring;
  CLOUDINARY_API_KEY : option jsstring;
  CLOUDINARY_API_SECRET : option jsstring;
  AIRTABLE_BASE_ID : option jsstring;
  AIRTABLE_TABLE_NAME : option jsstring;
  AIRTABLE_TOKEN : option jsstring
}.

Definition env_set (v : option jsstring) : bool :=
  match v with Some s => truthy s | None => false end.

(** ** Slug functions *)

Section Slugs.
Context {World : Type} (P : platform World).

(** [isValidUrl]: [try { new URL(string); return true } catch { return false }] *)
Definition isValidUrl (s : jsstring) : bool := url_parses P s.

(** [cleanClubName] of the servers:
    [name.replace(/[^\w\s-]/g, '').replace(/\s+/g, '-').toLowerCase().substring(0, 50)] *)
Definition cleanClubName (name : jsstring) : jsstring :=
  take 50
    (toLowerCase P
       (squeeze is_space HYPHEN
          (filter (λ c, is_word c || is_space c || is_hyphen c = true) name))).

(** The [slug] of [processImage] in api/process-images.js:
    [clubName.toLowerCase().replace(/[^a-z0-9\s-]/g, '').replace(/\s+/g, '-')
             .replace(/-+/g, '-').trim().substring(0, 50)] *)
Definition slug (clubName : jsstring) : jsstring :=
  take 50
    (trim
       (squeeze is_hyphen HYPHEN
          (squeeze is_space HYPHEN
             (filter (λ c, is_lower c || is_digit c || is_space c || is_hyphen c = true)
                (toLowerCase P clubName))))).
End Slugs.

(** ** RecordExtractor: the row loop of [parseCSV] *)

Record club := Club {
  name : jsstring;                   (* cleaned name *)
  originalName : jsstring;
  heroImage : option jsstring;
  logoImage : option jsstring;
  galleryImages : list jsstring;
  submissionId : jsstring;
  email : jsstring;
  rawData : list jsstring
}.

Section Extractor.
Context {World : Type} (P : platform World).

(** [values[k]] of a row known to have at least 30 columns. *)
Definition column (values : list jsstring) (k : nat) : jsstring :=
  default [] (values !! k).

(** [(image && isValidUrl(image)) ? image : null] *)
Definition valid_or_null (image : jsstring) : option jsstring :=
  if truthy image && isValidUrl P image then Some image else None.

(** [galleryImages.split(',').map(url => url.trim()).filter(url => url && isValidUrl(url))] *)
Definition gallery_urls (galleryImages : jsstring) : list jsstring :=
  filter (λ url, truthy url && isValidUrl P url = true)
         (trim <$> split_on COMMA galleryImages).

(** The body of the data-row loop: [None] when the row is skipped. *)
Definition extract_row (values : list jsstring) : option club :=
  if (length values <? 30)%nat then None
  else
    let clubName := column values 10 in
    let heroImage := column values 27 in
    let logoImage := column values 28 in
    let galleryImages := column values 29 in
    if (truthy heroImage && isValidUrl P heroImage)
       || (truthy logoImage && isValidUrl P logoImage)
       || (truthy galleryImages && truthy (trim galleryImages))
    then
      Some {| name := cleanClubName P
                        (if truthy clubName then clubName else js "Unknown Club");
              originalName := clubName;
              heroImage := valid_or_null heroImage;
              logoImage := valid_or_null logoImage;
              galleryImages :=
                if truthy galleryImages && truthy (trim galleryImages)
                then gallery_urls galleryImages else [];
              submissionId := column values 0;
              email := column values 8;
              rawData := values |}
    else None.

(** [if (rows.length < 1) return []; ... for (rowIndex = 1; ...)] *)
Definition extract (rs : list (list jsstring)) : list club :=
  if (length rs <? 1)%nat then [] else omap extract_row (drop 1 rs).

(** [parseCSV(csvText)] *)
Definition parseCSV (csvText : jsstring) : option (list club) :=
  extract <$> parse csvText.
End Extractor.

(** ** Effects: network state, thrown errors, [try]/[catch] *)

(** One Airtable request together with what came back. *)
Inductive exchange :=
| SearchX (formula : jsstring) (response : outcome search_response)
| PatchX (recordId : jsstring) (fields : gmap string field_value)
         (response : outcome patch_response).

(** The world plus the trace of Airtable exchanges made so far. *)
Record net (World : Type) := Net {
  world : World;
  airtable_log : list exchange
}.
Arguments Net {World}.
Arguments world {World}.
Arguments airtable_log {World}.

Definition M (World A : Type) : Type := net World -> outcome A * net World.

Global Instance M_ret {World} : MRet (M World) := λ A a n, (Ok a, n).
Global Instance M_bind {World} : MBind (M World) := λ A B k m n,
  match m n with
  | (Ok a, n') => k a n'
  | (Throw e, n') => (Throw e, n')
  end.
Definition throw {World A} (e : js_error) : M World A := λ n, (Throw e, n).
(** [try { m } catch (error) { handler(error) }] *)
Definition try_catch {World A} (m : M World A) (handler : js_error -> M World A)
  : M World A :=
  λ n, match m n with
       | (Ok a, n') => (Ok a, n')
       | (Throw e, n') => handler e n'
       end.

Definition new_Error (msg : jsstring) : js_error := JsError PlainError msg.

(** [for (const x of xs) { body(x) }] collecting what each iteration builds. *)
Fixpoint for_each {World A B} (body : A -> M World B) (xs : list A)
  : M World (list B) :=
  match xs with
  | [] => mret []
  | x :: rest => b ← body x; bs ← for_each body rest; mret (b :: bs)
  end.

(** Decimal rendering of a number inside a template literal. *)
Definition show (n : N) : jsstring := js (pretty n).

(** ** AssetTransform: [processImageToCloudinary] and [generateAltText] *)

Record processed_image := ProcessedImage {
  originalUrl : jsstring;
  cloudinaryUrl : jsstring;
  publicId : jsstring;
  filename : jsstring;
  altText : jsstring;
  width : N;
  height : N;
  type : jsstring;
  format : jsstring
}.

(** [s.replace(/\b\w/g, l => l.toUpperCase())]: a word character is at a word
    boundary when the previous character is not a word character. *)
Fixpoint capitalize_words_from (prev_word : bool) (s : jsstring) : jsstring :=
  match s with
  | [] => []
  | c :: rest =>
      (if is_word c && negb prev_word then ascii_upper c else c)
        :: capitalize_words_from (is_word c) rest
  end.

Definition is_gallery_type (imageType : jsstring) : bool :=
  str_eqb imageType (js "gallery-1") || str_eqb imageType (js "gallery-2")
  || str_eqb imageType (js "gallery-3") || str_eqb imageType (js "gallery-4").

Definition generateAltText (clubName imageType : jsstring) : jsstring :=
  let properClubName :=
    capitalize_words_from false
      ((λ c, if is_hyphen c then SPACE else c) <$> clubName) in
  if str_eqb imageType (js "hero") then properClubName ++ js " hero image"
  else if str_eqb imageType (js "logo") then properClubName ++ js " logo"
  else if is_gallery_type imageType then properClubName ++ js " group photo"
  else properClubName ++ js " image".

(** [const filename = `${clubName}-${imageType}`] *)
Definition upload_filename (clubName imageType : jsstring) : jsstring :=
  clubName ++ js "-" ++ imageType.

(** The options object given to [upload_stream]; its [public_id], the storage
    key of the asset, is [`joinphilly/${filename}`]. *)
Definition upload_options_for (clubName imageType : jsstring) : upload_options :=
  {| opt_public_id := js "joinphilly/" ++ upload_filename clubName imageType;
     opt_format := js "webp";
     opt_tags := [js "joinphilly"; js "processed"; imageType] |}.

Section Transform.
Context {World : Type} (P : platform World) (env : environment).

Definition lift_world {A} (f : World -> A * World) : M World A :=
  λ n, let '(a, w) := f (world n) in (Ok a, Net w (airtable_log n)).
Definition lift_outcome {A} (f : World -> outcome A * World) : M World A :=
  λ n, let '(a, w) := f (world n) in (a, Net w (airtable_log n)).
Definition of_outcome {A} (o : outcome A) : M World A := λ n, (o, n).

Definition cloudinary_configured : bool :=
  env_set (CLOUDINARY_URL env)
  || (env_set (CLOUDINARY_CLOUD_NAME env) && env_set (CLOUDINARY_API_KEY env)
      && env_set (CLOUDINARY_API_SECRET env)).

(** [not_configured] is the message of the variant at hand. *)
Definition processImageToCloudinary (not_configured : jsstring)
    (imageUrl clubName imageType : jsstring) (targetWidth : N)
  : M World processed_image :=
  try_catch
    (if negb cloudinary_configured then throw (new_Error not_configured)
     else
       response ← lift_outcome (fetch_image P imageUrl);
       if negb (img_ok response)
       then throw (new_Error (js "Failed to download image: " ++ show (img_status response)))
       else
         imageBuffer ← of_outcome (img_body response);
         processedBuffer ← of_outcome (sharp_resize_webp P imageBuffer targetWidth);
         let filename := upload_filename clubName imageType in
         uploaded ← lift_world
           (cloudinary_upload P (upload_options_for clubName imageType)
              processedBuffer);
         match uploaded with
         | inl error_message =>
             throw (new_Error (js "Cloudinary upload failed: " ++ error_message))
         | inr result =>
             mret {| originalUrl := imageUrl;
                    cloudinaryUrl := secure_url result;
                    publicId := public_id result;
                    filename := filename ++ js ".webp";
                    altText := generateAltText clubName imageType;
                    width := up_width result;
                    height := up_height result;
                    type := imageType;
                    format := js "webp" |}
         end)
    (λ error, throw error).
End Transform.

(** ** PipelineOrchestrator: the club loop of the [/api/process-images] handler *)

Record update_info := UpdateInfo {
  success : bool;
  recordId : jsstring;
  fieldsUpdated : nat;
  info_message : jsstring
}.

(** [clubResult]; [r_name] is its [name] (the original name), [r_submissionId]
    and [r_email] its [submissionId] and [email]. *)
Record club_result := ClubResult {
  r_name : jsstring;
  cleanName : jsstring;
  r_submissionId : jsstring;
  r_email : jsstring;
  processed : list processed_image;
  errors : list jsstring;
  cloudinaryUrls : list jsstring;
  airtableUpdate : option update_info
}.

Definition push_processed (cr : club_result) (p : processed_image) : club_result :=
  {| r_name := r_name cr; cleanName := cleanName cr;
     r_submissionId := r_submissionId cr; r_email := r_email cr;
     processed := processed cr ++ [p];
     errors := errors cr;
     cloudinaryUrls := cloudinaryUrls cr ++ [cloudinaryUrl p];
     airtableUpdate := airtableUpdate cr |}.

Definition push_error (cr : club_result) (msg : jsstring) : club_result :=
  {| r_name := r_name cr; cleanName := cleanName cr;
     r_submissionId := r_submissionId cr; r_email := r_email cr;
     processed := processed cr;
     errors := errors cr ++ [msg];
     cloudinaryUrls := cloudinaryUrls cr;
     airtableUpdate := airtableUpdate cr |}.

Definition set_airtableUpdate (cr : club_result) (u : update_info) : club_result :=
  {| r_name := r_name cr; cleanName := cleanName cr;
     r_submissionId := r_submissionId cr; r_email := r_email cr;
     processed := processed cr;
     errors := errors cr;
     cloudinaryUrls := cloudinaryUrls cr;
     airtableUpdate := Some u |}.

Definition cloudinary_not_configured_csv : jsstring :=
  js "Cloudinary not configured. Please set CLOUDINARY_URL environment variable or individual CLOUDINARY_CLOUD_NAME, CLOUDINARY_API_KEY, and CLOUDINARY_API_SECRET.".

Section Orchestrator.
Context {World : Type} (P : platform World) (env : environment).

(** One [try { ... push ... } catch (error) { errors.push(`${label}: ${error.message}`) }]
    block of the handler. *)
Definition attempt_slot (label imageUrl clubName imageType : jsstring)
    (targetWidth : N) (clubResult : club_result) : M World club_result :=
  try_catch
    (processed ← processImageToCloudinary P env cloudinary_not_configured_csv
                   imageUrl clubName imageType targetWidth;
     mret (push_processed clubResult processed))
    (λ error, mret (push_error clubResult (label ++ js ": " ++ message error))).

(** [for (let i = 0; i < club.galleryImages.length && i < 4; i++)], with
    [remaining] the elements from index [i] on. *)
Fixpoint gallery_loop (clubName : jsstring) (i : nat) (remaining : list jsstring)
    (clubResult : club_result) : M World club_result :=
  match remaining with
  | [] => mret clubResult
  | galleryUrl :: rest =>
      if (i <? 4)%nat then
        clubResult' ←
          (if truthy galleryUrl then
             attempt_slot (js "Gallery image " ++ show (N.of_nat (i + 1)))
               galleryUrl clubName
               (js "gallery-" ++ show (N.of_nat (i + 1))) 1200 clubResult
           else mret clubResult);
        gallery_loop clubName (i + 1) rest clubResult'
      else mret clubResult
  end.

(** The body of [for (const club of clubs)]. *)
Definition process_club (c : club) : M World club_result :=
  let clubResult :=
    {| r_name := originalName c; cleanName := name c;
       r_submissionId := submissionId c; r_email := email c;
       processed := []; errors := []; cloudinaryUrls := [];
       airtableUpdate := None |} in
  clubResult ←
    match heroImage c with
    | Some url => if truthy url
                  then attempt_slot (js "Hero image") url (name c) (js "hero") 1600 clubResult
                  else mret clubResult
    | None => mret clubResult
    end;
  clubResult ←
    match logoImage c with
    | Some url => if truthy url
                  then attempt_slot (js "Logo image") url (name c) (js "logo") 400 clubResult
                  else mret clubResult
    | None => mret clubResult
    end;
  gallery_loop (name c) 0 (galleryImages c) clubResult.

Definition process_clubs (clubs : list club) : M World (list club_result) :=
  for_each process_club clubs.
End Orchestrator.

(** The number of slots the handler attempts for a club: the hero and the
    logo when present, and the non-empty ones of the first four gallery
    entries. *)
Definition present (image : option (list N)) : nat :=
  match image with
  | Some url => if truthy url then 1%nat else 0%nat
  | None => 0%nat
  end.
Definition slot_count (c : club) : nat :=
  (present (heroImage c) + present (logoImage c)
   + length (filter (λ url, truthy url = true) (take 4 (galleryImages c))))%nat.

(** A result carries the identity of the club it was made for. *)
Definition result_of (c : club) (r : club_result) : Prop :=
  r_name r = originalName c ∧ cleanName r = name c
  ∧ r_submissionId r = submissionId c ∧ r_email r = email c.

(** The invariant of the slot attempts of one club: the identity fields
    stay, and [k] more entries were pushed on [processed] and [errors]
    together. *)
Definition grown (k : nat) (cr cr' : club_result) : Prop :=
  r_name cr' = r_name cr ∧ cleanName cr' = cleanName cr
  ∧ r_submissionId cr' = r_submissionId cr ∧ r_email cr' = r_email cr
  ∧ processed cr `prefix_of` processed cr'
  ∧ errors cr `prefix_of` errors cr'
  ∧ (length (processed cr') + length (errors cr')
     = length (processed cr) + length (errors cr) + k)%nat.

(** ** RecordReconciler: [updateAirtableRecord] *)

(** The two servers that define [updateAirtableRecord]: the CSV-upload server
    ("Clean server.js with Airtable integration") and the server with the
    webhook endpoint ("Complete server.js with webhook endpoint"). *)
Inductive variant := CsvServer | WebhookServer.

(** [s.replace(/DQUOTE/g, BACKSLASH DQUOTE)]: every double quote gets a
    backslash in front. *)
Definition escape_quotes (s : jsstring) : jsstring :=
  s ≫= (λ c, if c =? DQUOTE then [BACKSLASH; DQUOTE] else [c]).

Definition submissionIdFilter (sid : jsstring) : jsstring :=
  js "{Submission ID} = " ++ [DQUOTE] ++ escape_quotes sid ++ [DQUOTE].
Definition nameFilter (nameToTry : jsstring) : jsstring :=
  js "{Name} = " ++ [DQUOTE] ++ escape_quotes nameToTry ++ [DQUOTE].

(** [x && x.trim()] as a condition *)
Definition nonblank (s : jsstring) : bool := truthy s && truthy (trim s).

(** [!searchData || searchData.records.length === 0] *)
Definition no_records (searchData : option (list jsstring)) : bool :=
  match searchData with
  | None => true
  | Some records => (length records =? 0)%nat
  end.

(** [galleryUrls[i] = url] on a JavaScript array: writing past the end
    extends the array with holes. *)
Definition array_set (a : list (option jsstring)) (i : nat) (url : jsstring)
  : list (option jsstring) :=
  if decide (i < length a)%nat then <[i := Some url]> a
  else a ++ replicate (i - length a) None ++ [Some url].

(** [galleryUrls.filter(url => url)]: holes are skipped, falsy entries dropped. *)
Definition compact (a : list (option jsstring)) : list jsstring :=
  filter (λ url, truthy url = true) (omap id a).

(** The body of [for (const processed of clubResult.processed) switch (processed.type)]. *)
Definition add_processed (acc : gmap string field_value * list (option jsstring))
    (p : processed_image) : gmap string field_value * list (option jsstring) :=
  let '(updateFields, galleryUrls) := acc in
  if str_eqb (type p) (js "hero") then
    (<["Hero Alt Text" := FString (altText p)]>
       (<["Hero URL" := FString (cloudinaryUrl p)]> updateFields), galleryUrls)
  else if str_eqb (type p) (js "logo") then
    (<["Logo Alt Text" := FString (altText p)]>
       (<["Logo URL" := FString (cloudinaryUrl p)]> updateFields), galleryUrls)
  else if str_eqb (type p) (js "gallery-1") then
    (<["Gallery 1 Alt Text" := FString (altText p)]> updateFields,
     array_set galleryUrls 0 (cloudinaryUrl p))
  else if str_eqb (type p) (js "gallery-2") then
    (<["Gallery 2 Alt Text" := FString (altText p)]> updateFields,
     array_set galleryUrls 1 (cloudinaryUrl p))
  else if str_eqb (type p) (js "gallery-3") then
    (<["Gallery 3 Alt Text" := FString (altText p)]> updateFields,
     array_set galleryUrls 2 (cloudinaryUrl p))
  else if str_eqb (type p) (js "gallery-4") then
    (<["Gallery 4 Alt Text" := FString (altText p)]> updateFields,
     array_set galleryUrls 3 (cloudinaryUrl p))
  else acc.

(** The [updateFields] object just before the PATCH request; [now] is
    [new Date().toISOString()]. *)
Definition build_update_fields (v : variant) (now : jsstring)
    (ps : list processed_image) : gmap string field_value :=
  let '(updateFields, galleryUrls) := foldl add_processed (∅, []) ps in
  match v with
  | CsvServer =>
      let updateFields :=
        if (0 <? length galleryUrls)%nat
        then <["Gallery URLs (JSON)" := FJsonArray (compact galleryUrls)]> updateFields
        else updateFields in
      <["Processed" := FNumber 1]>
        (<["Last Modified" := FString now]>
           (<["Status" := FString (js "Images Processed")]> updateFields))
  | WebhookServer =>
      if (0 <? length galleryUrls)%nat
      then <["Photo Gallery Url" := FAttachments (compact galleryUrls)]> updateFields
      else updateFields
  end.

(** [x?.message || fallback] *)
Definition message_or (m : option jsstring) (fallback : jsstring) : jsstring :=
  match m with
  | Some s => if truthy s then s else fallback
  | None => fallback
  end.

Definition search_failed_message (v : variant) (r : search_response) : jsstring :=
  match v with
  | CsvServer =>
      js "Airtable search failed: " ++ show (s_status r) ++ js " - "
      ++ message_or (s_error_message r) (js "Unknown error")
  | WebhookServer => js "Airtable search failed: " ++ show (s_status r)
  end.

Definition no_match_message (v : variant) (clubResult : club_result) : jsstring :=
  match v with
  | CsvServer =>
      js "No matching Airtable record found. Tried Submission ID " ++ [DQUOTE]
      ++ r_submissionId clubResult ++ [DQUOTE] ++ js " and Name " ++ [DQUOTE]
      ++ r_name clubResult ++ [DQUOTE]
  | WebhookServer =>
      js "No matching Airtable record found for " ++ [DQUOTE]
      ++ r_name clubResult ++ [DQUOTE]
  end.

(** Reading [.ok] of [searchResponse] while it is still [undefined]. *)
Definition undefined_ok_error : js_error :=
  JsError TypeError (js "Cannot read properties of undefined (reading 'ok')").

(** The searches [updateAirtableRecord] may issue for a result, in order. *)
Definition name_plan (r : club_result) : list (list N) :=
  if nonblank (r_name r)
  then nameFilter <$> filter (λ n, nonblank n = true) [r_name r; cleanName r]
  else [].
Definition search_plan (r : club_result) : list (list N) :=
  (if nonblank (r_submissionId r) then [submissionIdFilter (r_submissionId r)] else [])
  ++ name_plan r.

(** A search that found a record: an OK response with a non-empty [records]. *)
Definition is_hit (resp : search_response) : bool :=
  s_ok resp && (0 <? length (s_records resp))%nat.

(** The formulas of the search exchanges of a trace. *)
Definition formulas_of (xs : list exchange) : list (list N) :=
  omap (λ x, match x with SearchX formula _ => Some formula | PatchX _ _ _ => None end) xs.

(** An ordered fallback chain over [plan] that stops at the first hit:
    [chain_run plan last xs res] says that the exchanges [xs] are searches for
    a prefix of [plan], in order, that only the last of them can be a hit or a
    thrown error, that the chain went on to the end of the plan otherwise, and
    that [res] is the last response received ([last] if none was). *)
Inductive chain_run : list (list N) → option search_response → list exchange
                      → outcome (option search_response) → Prop :=
| chain_end last : chain_run [] last [] (Ok last)
| chain_throw formula rest last e :
    chain_run (formula :: rest) last [SearchX formula (Throw e)] (Throw e)
| chain_hit formula rest last resp :
    is_hit resp = true →
    chain_run (formula :: rest) last [SearchX formula (Ok resp)] (Ok (Some resp))
| chain_miss formula rest last resp xs res :
    is_hit resp = false →
    chain_run rest (Some resp) xs res →
    chain_run (formula :: rest) last (SearchX formula (Ok resp) :: xs) res.

(** The invariant of [(searchResponse, searchData)]: [searchData] is the
    [records] of the last response when that response was OK, and holds no
    record otherwise. *)
Definition vars_ok (vars : option search_response * option (list (list N))) : Prop :=
  match vars.1 with
  | None => vars.2 = None
  | Some resp => if s_ok resp then vars.2 = Some (s_records resp)
                 else no_records vars.2 = true
  end.

Section Reconciler.
Context {World : Type} (P : platform World) (env : environment).

(** A search request; the exchange is appended to the trace. *)
Definition search (formula : jsstring) : M World search_response :=
  λ n, let '(o, w) := airtable_search P formula (world n) in
       (o, Net w (airtable_log n ++ [SearchX formula o])).

(** The PATCH request; the exchange is appended to the trace. *)
Definition patch (recordId : jsstring) (fields : gmap string field_value)
  : M World patch_response :=
  λ n, let '(o, w) := airtable_patch P recordId fields (world n) in
       (o, Net w (airtable_log n ++ [PatchX recordId fields o])).

Definition clock : M World jsstring :=
  λ n, (Ok (now_iso P (world n)), n).

(** The pair [(searchResponse, searchData)]; [None] is [undefined]. *)
Definition search_vars : Type := option search_response * option (list jsstring).

(** Strategy 1: the Submission ID search. *)
Definition search_by_submission_id (clubResult : club_result) : M World search_vars :=
  if nonblank (r_submissionId clubResult) then
    searchResponse ← search (submissionIdFilter (r_submissionId clubResult));
    if s_ok searchResponse
    then mret (Some searchResponse, Some (s_records searchResponse))
    else mret (Some searchResponse, None)
  else mret (None, None).

(** [for (const nameToTry of names) { ... break on a hit ... }] *)
Fixpoint name_loop (names : list jsstring) (vars : search_vars) : M World search_vars :=
  match names with
  | [] => mret vars
  | nameToTry :: rest =>
      searchResponse ← search (nameFilter nameToTry);
      if s_ok searchResponse then
        if (0 <? length (s_records searchResponse))%nat
        then mret (Some searchResponse, Some (s_records searchResponse))
        else name_loop rest (Some searchResponse, Some (s_records searchResponse))
      else name_loop rest (Some searchResponse, vars.2)
  end.

(** Strategy 2: the Name searches, original name first, then clean name. *)
Definition search_by_name (clubResult : club_result) (vars : search_vars)
  : M World search_vars :=
  if no_records vars.2 then
    if nonblank (r_name clubResult) then
      name_loop (filter (λ n, nonblank n = true)
                        [r_name clubResult; cleanName clubResult]) vars
    else mret vars
  else mret vars.

(** The matching algorithm in the spec's words: the planned searches are
    tried in order, stopping at the first hit; the result is the last
    response received. *)
Fixpoint fallback_chain (plan : list (list N)) (last : option search_response)
  : M World (option search_response) :=
  match plan with
  | [] => mret last
  | formula :: rest =>
      response ← search formula;
      if is_hit response then mret (Some response)
      else fallback_chain rest (Some response)
  end.

(** What the code makes of the last response received. *)
Definition conclude_search (v : variant) (clubResult : club_result)
    (last : option search_response) : M World (list N) :=
  match last with
  | None => throw undefined_ok_error
  | Some searchResponse =>
      if negb (s_ok searchResponse)
      then throw (new_Error (search_failed_message v searchResponse))
      else if (length (s_records searchResponse) =? 0)%nat
      then throw (new_Error (no_match_message v clubResult))
      else mret (default [] (head (s_records searchResponse)))
  end.

(** Everything before "Build update payload": the id of the matched record. *)
Definition find_record (v : variant) (clubResult : club_result) : M World jsstring :=
  vars ← search_by_submission_id clubResult;
  vars ← search_by_name clubResult vars;
  match vars.1 with
  | None => throw undefined_ok_error
  | Some searchResponse =>
      if negb (s_ok searchResponse)
      then throw (new_Error (search_failed_message v searchResponse))
      else if no_records vars.2
      then throw (new_Error (no_match_message v clubResult))
      else mret (default [] (head (default [] vars.2)))
  end.

Definition updateAirtableRecord (v : variant) (clubResult : club_result)
  : M World update_info :=
  try_catch
    (recordId ← find_record v clubResult;
     now ← clock;
     let updateFields := build_update_fields v now (processed clubResult) in
     updateResponse ← patch recordId updateFields;
     if negb (p_ok updateResponse)
     then throw (new_Error (js "Airtable update failed: "
                            ++ message_or (p_error_message updateResponse)
                                          (show (p_status updateResponse))))
     else mret {| success := true;
                  recordId := recordId;
                  fieldsUpdated := size updateFields;
                  info_message := js "Updated " ++ show (N.of_nat (size updateFields))
                                  ++ js " fields in Airtable" |})
    (λ error, throw error).

Definition airtable_configured : bool :=
  env_set (AIRTABLE_BASE_ID env) && env_set (AIRTABLE_TABLE_NAME env)
  && env_set (AIRTABLE_TOKEN env).

(** The body of [for (const result of results)] in the handler. *)
Definition reconcile_result (v : variant) (result : club_result) : M World club_result :=
  if (0 <? length (processed result))%nat then
    try_catch
      (airtableUpdate ← updateAirtableRecord v result;
       mret (set_airtableUpdate result airtableUpdate))
      (λ error, mret (push_error result
                        (js "Airtable update failed: " ++ message error)))
  else mret result.

(** "Try to update Airtable records if configured". *)
Definition reconcile_all (v : variant) (results : list club_result)
  : M World (list club_result) :=
  if airtable_configured then for_each (reconcile_result v) results
  else mret results.

(** The two loops of the [/api/process-images] handler, one after the other. *)
Definition run_pipeline (v : variant) (clubs : list club) : M World (list club_result) :=
  results ← process_clubs P env clubs;
  reconcile_all v results.
End Reconciler.

(** ** The destination store and the external record store *)

(** Modelled from the spec: the destination store (Cloudinary), a service
    outside the repository.  The spec describes it as keeping one asset per
    storage key: re-invocation overwrites the same storage key rather than
    creating a duplicate. *)
Definition publish (key : jsstring) (asset : bytes)
    (store : gmap (list N) bytes) : gmap (list N) bytes :=
  <[key := asset]> store.

(** Modelled from the spec: the external record store (Airtable), a service
    outside the repository.  The spec describes its update as a partial-field
    patch by record identifier: fields not in the update map are left
    untouched. *)
Definition apply_patch (updateFields record : gmap string field_value)
  : gmap string field_value :=
  updateFields ∪ record.

(** ** A concrete platform for the examples *)

(** A stand-in for the URL constructor: it accepts the strings that begin
    with a scheme, [alpha (alnum | + | - | .)* :].  The URL constructor
    rejects every string without a scheme (there is no base URL), and it
    accepts the absolute [https] URLs used in the examples. *)
Fixpoint scheme_rest (s : jsstring) : bool :=
  match s with
  | [] => false
  | c :: rest =>
      if c =? 58 then true
      else if is_upper c || is_lower c || is_digit c || (c =? 43) || (c =? 45) || (c =? 46)
      then scheme_rest rest
      else false
  end.
Definition has_scheme (s : jsstring) : bool :=
  match s with
  | [] => false
  | c :: rest => (is_upper c || is_lower c) && scheme_rest rest
  end.

(** [prefix_eqb p s]: [s.startsWith(p)] *)
Fixpoint prefix_eqb (p s : jsstring) : bool :=
  match p, s with
  | [], _ => true
  | a :: p', b :: s' => (a =? b) && prefix_eqb p' s'
  | _ :: _, [] => false
  end.

(** A world in which the host [broken.test] answers 404, every other image
    downloads and uploads, and the Airtable base holds one record, [rec1],
    whose Name is "Chess Club". *)
Definition demo_platform : platform unit :=
  {| url_parses := has_scheme;
     toLowerCase := fmap ascii_lower;
     fetch_image := λ url w,
       if prefix_eqb (js "https://broken.test/") url
       then (Ok (ImageResponse false 404 (Ok [])), w)
       else (Ok (ImageResponse true 200 (Ok [1; 2; 3])), w);
     sharp_resize_webp := λ buffer _, Ok buffer;
     cloudinary_upload := λ options _ w,
       (inr {| secure_url := js "https://res.cloudinary.test/" ++ opt_public_id options
                             ++ js ".webp";
               public_id := opt_public_id options;
               up_width := 400; up_height := 300 |}, w);
     airtable_search := λ formula w,
       (Ok (SearchResponse true 200
              (if str_eqb formula (nameFilter (js "Chess Club")) then [js "rec1"] else [])
              None), w);
     airtable_patch := λ _ _ w, (Ok (PatchResponse true 200 None), w);
     now_iso := λ _, js "2024-05-01T12:00:00.000Z" |}.

(** The same world with an Airtable base that answers every search with 503. *)
Definition demo_platform_down : platform unit :=
  {| url_parses := url_parses demo_platform;
     toLowerCase := toLowerCase demo_platform;
     fetch_image := fetch_image demo_platform;
     sharp_resize_webp := sharp_resize_webp demo_platform;
     cloudinary_upload := cloudinary_upload demo_platform;
     airtable_search := λ _ w, (Ok (SearchResponse false 503 [] None), w);
     airtable_patch := airtable_patch demo_platform;
     now_iso := now_iso demo_platform |}.

(** A world that is the destination store itself: an image downloads as the
    code units of its URL, and an upload publishes the buffer under the
    requested [public_id]. *)
Definition store_platform : platform (gmap (list N) bytes) :=
  {| url_parses := has_scheme;
     toLowerCase := fmap ascii_lower;
     fetch_image := λ url store, (Ok (ImageResponse true 200 (Ok url)), store);
     sharp_resize_webp := λ buffer _, Ok buffer;
     cloudinary_upload := λ options buffer store,
       (inr {| secure_url := js "https://res.cloudinary.test/" ++ opt_public_id options
                             ++ js ".webp";
               public_id := opt_public_id options;
               up_width := 400; up_height := 300 |},
        publish (opt_public_id options) buffer store);
     airtable_search := λ _ store, (Ok (SearchResponse true 200 [] None), store);
     airtable_patch := λ _ _ store, (Ok (PatchResponse true 200 None), store);
     now_iso := λ _, js "2024-05-01T12:00:00.000Z" |}.

Definition demo_env : environment :=
  {| CLOUDINARY_URL := Some (js "cloudinary://1:s@demo");
     CLOUDINARY_CLOUD_NAME := None;
     CLOUDINARY_API_KEY := None;
     CLOUDINARY_API_SECRET := None;
     AIRTABLE_BASE_ID := Some (js "app1");
     AIRTABLE_TABLE_NAME := Some (js "Clubs");
     AIRTABLE_TOKEN := Some (js "pat1") |}.

Definition net0 : net unit := Net () [].

(** A CSV line of 30 columns: submission id, e-mail (column 8), club name
    (column 10), hero (27), logo (28) and gallery (29); the rest empty. *)
Definition csv_line (sid mail club hero logo gallery : jsstring) : jsstring :=
  sid ++ replicate 8 COMMA ++ mail ++ replicate 2 COMMA ++ club
  ++ replicate 17 COMMA ++ hero ++ [COMMA] ++ logo ++ [COMMA] ++ gallery.

Definition csv_header : jsstring :=
  csv_line (js "Submission ID") (js "Email") (js "Club") (js "Hero") (js "Logo") (js "Gallery").

(** The input of the quoting example: a, then b,c in quotes, then d, a
    doubled quote and e in quotes. *)
Definition quoting_example : jsstring :=
  js "a," ++ [DQUOTE] ++ js "b,c" ++ [DQUOTE; COMMA; DQUOTE] ++ js "d"
  ++ [DQUOTE; DQUOTE] ++ js "e" ++ [DQUOTE].

(** Two data rows with an empty club-name column and different hero images,
    under a header line. *)
Definition two_unnamed_rows : jsstring :=
  csv_header ++ [LF]
  ++ csv_line (js "s1") [] [] (js "https://img.test/first.png") [] [] ++ [LF]
  ++ csv_line (js "s2") [] [] (js "https://img.test/second.png") [] [].

(** One data row whose only image text is the gallery entry n/a. *)
Definition junk_gallery_csv : jsstring :=
  csv_header ++ [LF]
  ++ csv_line (js "s1") (js "m@x.org") (js "Chess Club") [] [] (js "n/a").

(** A row of 30 columns with an empty club name and a hero image, and the
    club the extractor makes of it. *)
Definition unnamed_values : list (list N) :=
  replicate 27 [] ++ [js "https://img.test/h.png"; []; []].
Definition unnamed_club : club :=
  Club (js "unknown-club") [] (Some (js "https://img.test/h.png")) None []
       [] [] unnamed_values.

(** A row of 30 columns whose club name is two spaces, with a hero image,
    and the club the extractor makes of it. *)
Definition spaced_values : list (list N) :=
  replicate 10 [] ++ [js "  "] ++ replicate 16 []
  ++ [js "https://img.test/h.png"; []; []].
Definition spaced_club : club :=
  Club (js "-") (js "  ") (Some (js "https://img.test/h.png")) None []
       [] [] spaced_values.

(** A club with a hero image on the host that answers 404 and a logo that
    downloads, and the asset made of the logo. *)
Definition demo_club : club :=
  {| name := js "chess-club"; originalName := js "Chess Club";
     heroImage := Some (js "https://broken.test/h.png");
     logoImage := Some (js "https://img.test/l.png");
     galleryImages := [];
     submissionId := js "s1"; email := js "m@x.org"; rawData := [] |}.
Definition demo_logo_asset : processed_image :=
  {| originalUrl := js "https://img.test/l.png";
     cloudinaryUrl := js "https://res.cloudinary.test/joinphilly/chess-club-logo.webp";
     publicId := js "joinphilly/chess-club-logo";
     filename := js "chess-club-logo.webp";
     altText := js "Chess Club logo";
     width := 400; height := 300;
     type := js "logo"; format := js "webp" |}.

(** A result without a submission id, named Chess Club, with one asset. *)
Definition blank_id_result : club_result :=
  {| r_name := js "Chess Club"; cleanName := js "chess-club";
     r_submissionId := js "  "; r_email := js "m@x.org";
     processed := [demo_logo_asset]; errors := [];
     cloudinaryUrls := [cloudinaryUrl demo_logo_asset];
     airtableUpdate := None |}.

(** The result of [demo_club] once its logo is published. *)
Definition demo_result : club_result :=
  {| r_name := js "Chess Club"; cleanName := js "chess-club";
     r_submissionId := js "s1"; r_email := js "m@x.org";
     processed := [demo_logo_asset];
     errors := [js "Hero image: Failed to download image: 404"];
     cloudinaryUrls := [cloudinaryUrl demo_logo_asset];
     airtableUpdate := None |}.

(** An exchange that is a search and did not find a record. *)
Definition is_miss (x : exchange) : Prop :=
  match x with
  | SearchX _ (Ok resp) => is_hit resp = false
  | SearchX _ (Throw _) => True
  | PatchX _ _ _ => False
  end.

(** What the reconciliation loop may change of a result: nothing but
    [airtableUpdate], and messages appended to [errors]. *)
Definition reconciled (r r' : club_result) : Prop :=
  r_name r' = r_name r ∧ cleanName r' = cleanName r
  ∧ r_submissionId r' = r_submissionId r ∧ r_email r' = r_email r
  ∧ processed r' = processed r ∧ cloudinaryUrls r' = cloudinaryUrls r
  ∧ errors r `prefix_of` errors r'.

(** A result of the demo base that matches no record. *)
Definition unmatched_result : club_result :=
  {| r_name := js "Rowing Club"; cleanName := js "rowing-club";
     r_submissionId := js "s9"; r_email := js "r@x.org";
     processed := [demo_logo_asset]; errors := [];
     cloudinaryUrls := [cloudinaryUrl demo_logo_asset];
     airtableUpdate := None |}.

(** The index written in [galleryUrls] for a gallery slot. *)
Definition gallery_index (imageType : list N) : option nat :=
  if str_eqb imageType (js "gallery-1") then Some 0%nat
  else if str_eqb imageType (js "gallery-2") then Some 1%nat
  else if str_eqb imageType (js "gallery-3") then Some 2%nat
  else if str_eqb imageType (js "gallery-4") then Some 3%nat
  else None.

(** The fields one asset writes under its own names: published URL and alt
    text for the hero and the logo, alt text for a gallery slot. *)
Definition slot_fields (p : processed_image) : list (string * field_value) :=
  if str_eqb (type p) (js "hero") then
    [("Hero URL", FString (cloudinaryUrl p)); ("Hero Alt Text", FString (altText p))]
  else if str_eqb (type p) (js "logo") then
    [("Logo URL", FString (cloudinaryUrl p)); ("Logo Alt Text", FString (altText p))]
  else if str_eqb (type p) (js "gallery-1") then
    [("Gallery 1 Alt Text", FString (altText p))]
  else if str_eqb (type p) (js "gallery-2") then
    [("Gallery 2 Alt Text", FString (altText p))]
  else if str_eqb (type p) (js "gallery-3") then
    [("Gallery 3 Alt Text", FString (altText p))]
  else if str_eqb (type p) (js "gallery-4") then
    [("Gallery 4 Alt Text", FString (altText p))]
  else [].

(** The names of the fields an asset can write under [slot_fields]. *)
Definition slot_field_names : list string :=
  ["Hero URL"; "Hero Alt Text"; "Logo URL"; "Logo Alt Text";
   "Gallery 1 Alt Text"; "Gallery 2 Alt Text"; "Gallery 3 Alt Text";
   "Gallery 4 Alt Text"].

(** The slot of the asset that writes under a field name. *)
Definition field_slot (k : string) : option (list N) :=
  if decide (k = "Hero URL") then Some (js "hero")
  else if decide (k = "Hero Alt Text") then Some (js "hero")
  else if decide (k = "Logo URL") then Some (js "logo")
  else if decide (k = "Logo Alt Text") then Some (js "logo")
  else if decide (k = "Gallery 1 Alt Text") then Some (js "gallery-1")
  else if decide (k = "Gallery 2 Alt Text") then Some (js "gallery-2")
  else if decide (k = "Gallery 3 Alt Text") then Some (js "gallery-3")
  else if decide (k = "Gallery 4 Alt Text") then Some (js "gallery-4")
  else None.

(** The aggregate gallery field of each server and the value it holds for
    the published gallery URLs. *)
Definition gallery_key (v : variant) : string :=
  match v with
  | CsvServer => "Gallery URLs (JSON)"
  | WebhookServer => "Photo Gallery Url"
  end.
Definition gallery_value (v : variant) (urls : list (list N)) : field_value :=
  match v with
  | CsvServer => FJsonArray urls
  | WebhookServer => FAttachments urls
  end.

(** The status and last-modified markers of the CSV-upload server. *)
Definition markers (now : list N) : list (string * field_value) :=
  [("Status", FString (js "Images Processed"));
   ("Last Modified", FString now);
   ("Processed", FNumber 1)].

(** An asset of a gallery slot. *)
Definition gallery_asset (ps : list processed_image) (url : list N) : Prop :=
  ∃ p, p ∈ ps ∧ is_gallery_type (type p) = true ∧ url = cloudinaryUrl p.

(** The assignments [updateFields[k] = x], one after the other. *)
Definition insert_all (fields : list (string * field_value))
    (updateFields : gmap string field_value) : gmap string field_value :=
  foldl (λ m kv, <[kv.1 := kv.2]> m) updateFields fields.

(** What the PATCH request answers becomes of the call. *)
Definition patch_result (updateFields : gmap string field_value)
    (recordId : list N) (o : outcome patch_response) : outcome update_info :=
  match o with
  | Throw e => Throw e
  | Ok updateResponse =>
      if negb (p_ok updateResponse)
      then Throw (new_Error (js "Airtable update failed: "
                             ++ message_or (p_error_message updateResponse)
                                           (show (p_status updateResponse))))
      else Ok {| success := true;
                 recordId := recordId;
                 fieldsUpdated := size updateFields;
                 info_message := js "Updated " ++ show (N.of_nat (size updateFields))
                                 ++ js " fields in Airtable" |}
  end.

(** ** RFC 4180 encoding, the format [parseCSV] is written for

    ("Parse CSV with proper RFC 4180 compliant parsing".)  A field is put
    between quotes with every quote of its content doubled, the fields of a
    record are joined by commas, and every record is followed by a line
    break. *)
Definition csv_escape (field : list N) : list N :=
  field ≫= (λ c, if c =? DQUOTE then [DQUOTE; DQUOTE] else [c]).
Definition csv_quote (field : list N) : list N :=
  DQUOTE :: csv_escape field ++ [DQUOTE].
Definition csv_more (fields : list (list N)) : list N :=
  fields ≫= (λ field, COMMA :: csv_quote field).
Definition csv_record (row : list (list N)) : list N :=
  match row with
  | [] => []
  | field :: fields => csv_quote field ++ csv_more fields
  end.
Definition csv_encode (eol : list N) (rs : list (list (list N))) : list N :=
  rs ≫= (λ row, csv_record row ++ eol).

(** The line breaks the scanner knows: LF, CR LF and CR. *)
Definition is_eol (eol : list N) : Prop :=
  eol = [LF] ∨ eol = [CR; LF] ∨ eol = [CR].

(** The rows [parseCSV] keeps: those with a field that is not blank. *)
Definition kept_rows (rs : list (list (list N))) : list (list (list N)) :=
  filter (λ row, existsb field_nonblank row = true) rs.

(** ** The Airtable reader: the record mapping of [readFromAirtable]

    (api/airtable.js.)  [fields] are the text fields of an Airtable record;
    a missing field reads as [undefined]. *)
Record airtable_club := AirtableClub {
  a_name : list N;
  a_heroUrl : list N;
  a_logoUrl : list N;
  a_galleryUrls : list (list N);
  a_airtableId : list N
}.

(** [x || ''] *)
Definition or_empty (x : option (list N)) : list N :=
  match x with Some s => s | None => [] end.

(** [galleryString ? galleryString.split(',').map(url => url.trim()).filter(Boolean) : []] *)
Definition split_gallery (galleryString : list N) : list (list N) :=
  if truthy galleryString
  then filter (λ url, truthy url = true) (trim <$> split_on COMMA galleryString)
  else [].

(** The body of [pageRecords.forEach(record => ...)]. *)
Definition read_record (id : list N) (fields : gmap string (list N)) : airtable_club :=
  let galleryString :=
    or_empty (fields !! "Upload up to 4 images for your photo gallery:") in
  {| a_name := or_empty (fields !! "What's the name of your club/community/group?");
     a_heroUrl := or_empty (fields !! "Upload a hero image:");
     a_logoUrl := or_empty (fields !! "Upload your community's logo:");
     a_galleryUrls := split_gallery galleryString;
     a_airtableId := id |}.

(** [urls.join(', ')]: the text of a multi-value cell. *)
Definition comma_join (urls : list (list N)) : list N :=
  match urls with
  | [] => []
  | url :: rest => url ++ (rest ≫= λ next, COMMA :: SPACE :: next)
  end.

(** The name of the gallery field read by [readFromAirtable]. *)
Definition gallery_field : string := "Upload up to 4 images for your photo gallery:".

(** The slots of a club in the order the handler attempts them. *)
Definition gallery_types : list (list N) :=
  [js "gallery-1"; js "gallery-2"; js "gallery-3"; js "gallery-4"].
Definition slot_types : list (list N) := js "hero" :: js "logo" :: gallery_types.

(** [c] with its gallery cut to the first four entries. *)
Definition cap_gallery (c : club) : club :=
  {| name := name c; originalName := originalName c;
     heroImage := heroImage c; logoImage := logoImage c;
     galleryImages := take 4 (galleryImages c);
     submissionId := submissionId c; email := email c; rawData := rawData c |}.

(** The reference of a club that a slot is made from. *)
Definition slot_reference (c : club) (imageType : list N) : option (list N) :=
  if str_eqb imageType (js "hero") then heroImage c
  else if str_eqb imageType (js "logo") then logoImage c
  else i ← gallery_index imageType; galleryImages c !! i.

(** An asset of [c] as [processImageToCloudinary] describes it: made from
    the reference of its slot, named and captioned after the club and the
    slot. *)
Definition slot_asset (c : club) (p : processed_image) : Prop :=
  slot_reference c (type p) = Some (originalUrl p)
  ∧ filename p = upload_filename (name c) (type p) ++ js ".webp"
  ∧ altText p = generateAltText (name c) (type p)
  ∧ format p = js "webp".

(** An environment without any variable set. *)
Definition bare_env : environment :=
  {| CLOUDINARY_URL := None; CLOUDINARY_CLOUD_NAME := None;
     CLOUDINARY_API_KEY := None; CLOUDINARY_API_SECRET := None;
     AIRTABLE_BASE_ID := None; AIRTABLE_TABLE_NAME := None;
     AIRTABLE_TOKEN := None |}.

(** A row of 30 columns with a logo and a gallery of three entries, one of
    them not a URL, and the club the extractor makes of it. *)
Definition gallery_values : list (list N) :=
  replicate 10 [] ++ [js "Chess Club"] ++ replicate 17 []
  ++ [js "https://img.test/l.png";
      js " https://img.test/g1.png , nope,,https://img.test/g2.png"].
Definition gallery_club : club :=
  Club (js "chess-club") (js "Chess Club") None (Some (js "https://img.test/l.png"))
       [js "https://img.test/g1.png"; js "https://img.test/g2.png"]
       [] [] gallery_values.

(** The gallery assets of a list of assets. *)
Definition gallery_assets (ps : list processed_image) : list processed_image :=
  filter (λ p, is_gallery_type (type p) = true) ps.

(** An asset of the second gallery slot of the demo club. *)
Definition demo_gallery_asset : processed_image :=
  {| originalUrl := js "https://img.test/g2.png";
     cloudinaryUrl := js "https://res.cloudinary.test/joinphilly/chess-club-gallery-2.webp";
     publicId := js "joinphilly/chess-club-gallery-2";
     filename := js "chess-club-gallery-2.webp";
     altText := js "Chess Club group photo";
     width := 400; height := 300;
     type := js "gallery-2"; format := js "webp" |}.

(** ** The [/api/process-images] handler *)

(** The file operations of the handler on the uploaded file. *)
Record file_system (World : Type) := FileSystem {
  (** [fs.readFile(path, 'utf-8')] *)
  readFile : list N → World → outcome (list N) * World;
  (** [fs.unlink(path)] *)
  unlink : list N → World → outcome unit * World
}.
Arguments readFile {World}.
Arguments unlink {World}.

(** The JSON bodies the handler sends: [{ error }] and
    [{ success: true, clubsProcessed, results }]. *)
Inductive response_body :=
| ErrorBody (error : list N)
| ResultsBody (clubsProcessed : nat) (results : list club_result).

Record http_response := HttpResponse {
  http_status : N;
  http_body : response_body
}.

Section Handler.
Context {World : Type} (P : platform World) (F : file_system World)
        (env : environment).

(** [app.post('/api/process-images', upload.single('csvFile'), ...)];
    [file] is [req.file.path], [None] when no file was uploaded.  The scan
    of [parseCSV] always ends, so its result is always there. *)
Definition process_images_handler (file : option (list N)) : M World http_response :=
  try_catch
    (match file with
     | None => mret (HttpResponse 400 (ErrorBody (js "No CSV file uploaded")))
     | Some path =>
         csvContent ← lift_outcome (readFile F path);
         let clubs := default [] (parseCSV P csvContent) in
         if (length clubs =? 0)%nat
         then mret (HttpResponse 400 (ErrorBody (js "No clubs with images found in CSV")))
         else
           results ← run_pipeline P env CsvServer clubs;
           _ ← lift_outcome (unlink F path);
           mret (HttpResponse 200 (ResultsBody (length results) results))
     end)
    (λ error, mret (HttpResponse 500 (ErrorBody (message error)))).
End Handler.

(** A file system holding one upload, [upload.csv]; [unlink] always works. *)
Definition demo_files (content : list N) : file_system unit :=
  {| readFile := λ path w,
       if str_eqb path (js "upload.csv") then (Ok content, w)
       else (Throw (new_Error (js "ENOENT: no such file or directory")), w);
     unlink := λ _ w, (Ok (), w) |}.

(** An environment with Cloudinary configured and Airtable not. *)
Definition cloudinary_env : environment :=
  {| CLOUDINARY_URL := Some (js "cloudinary://1:s@demo");
     CLOUDINARY_CLOUD_NAME := None; CLOUDINARY_API_KEY := None;
     CLOUDINARY_API_SECRET := None;
     AIRTABLE_BASE_ID := None; AIRTABLE_TABLE_NAME := None;
     AIRTABLE_TOKEN := None |}.

(** One data row holding the club of [demo_club], under the header line. *)
Definition demo_upload : list N :=
  csv_header ++ [LF]
  ++ csv_line (js "s1") (js "m@x.org") (js "Chess Club")
       (js "https://broken.test/h.png") (js "https://img.test/l.png") [].

(** ** The [/api/process-webhook] handler

    (The server with the webhook endpoint.)  The fields of the request body
    are taken to be strings when present; [galleryImageUrls] may also be an
    array of strings or some other value. *)
Inductive gallery_input :=
| GalleryMissing                          (* undefined, null and other falsy values *)
| GalleryArray (urls : list (list N))     (* an array, truthy even when empty *)
| GalleryString (text : list N)           (* a string, truthy unless empty *)
| GalleryOther.                           (* any other truthy value *)

Record webhook_body := WebhookBody {
  w_clubName : option (list N);
  w_submissionId : option (list N);
  w_email : option (list N);
  w_heroImageUrl : option (list N);
  w_logoImageUrl : option (list N);
  w_galleryImageUrls : gallery_input
}.

(** Truthiness of an optional string field and of [galleryImageUrls]. *)
Definition given (field : option (list N)) : bool :=
  match field with Some s => truthy s | None => false end.
Definition gallery_given (g : gallery_input) : bool :=
  match g with
  | GalleryMissing => false
  | GalleryArray _ => true
  | GalleryString text => truthy text
  | GalleryOther => true
  end.

(** One entry of [processedImages]: [{ type, url, altText }]. *)
Record image_summary := ImageSummary {
  sum_type : list N;
  sum_url : list N;
  sum_altText : list N
}.

(** The JSON bodies of the webhook: [{ error, receivedData }] and
    [{ success: true, message, clubName, imagesProcessed, processedImages,
    errors, airtableUpdated }], whose [success] and [message] are fixed. *)
Inductive webhook_answer :=
| WebhookError (error : list N) (receivedData : webhook_body)
| WebhookDone (doneName : list N) (imagesProcessed : nat)
              (processedImages : list image_summary) (doneErrors : list (list N))
              (airtableUpdated : bool).

Record webhook_response := WebhookResponse {
  wh_status : N;
  wh_body : webhook_answer
}.

(** The message of [processImageToCloudinary] in the webhook server. *)
Definition cloudinary_not_configured_webhook : list N := js "Cloudinary not configured".

(** [{ type: p.type, url: p.cloudinaryUrl, altText: p.altText }] *)
Definition summary_of (p : processed_image) : image_summary :=
  {| sum_type := type p; sum_url := cloudinaryUrl p; sum_altText := altText p |}.

Section Webhook.
Context {World : Type} (P : platform World) (env : environment).

(** One [try { ... } catch (error) { errors.push(...) }] block of the
    webhook handler. *)
Definition webhook_attempt_slot (label imageUrl clubName imageType : list N)
    (targetWidth : N) (clubResult : club_result) : M World club_result :=
  try_catch
    (processed ← processImageToCloudinary P env cloudinary_not_configured_webhook
                   imageUrl clubName imageType targetWidth;
     mret (push_processed clubResult processed))
    (λ error, mret (push_error clubResult (label ++ js ": " ++ message error))).

(** [galleryUrls] as the handler computes it. *)
Definition webhook_gallery_urls (g : gallery_input) : list (list N) :=
  match g with
  | GalleryArray urls => urls
  | GalleryString text => gallery_urls P text
  | GalleryMissing | GalleryOther => []
  end.

(** [for (let i = 0; i < galleryUrls.length && i < 4; i++)
       if (galleryUrls[i] && isValidUrl(galleryUrls[i])) ...] *)
Fixpoint webhook_gallery_loop (clubName : list N) (i : nat) (remaining : list (list N))
    (clubResult : club_result) : M World club_result :=
  match remaining with
  | [] => mret clubResult
  | galleryUrl :: rest =>
      if (i <? 4)%nat then
        clubResult' ←
          (if truthy galleryUrl && isValidUrl P galleryUrl then
             webhook_attempt_slot (js "Gallery image " ++ show (N.of_nat (i + 1)))
               galleryUrl clubName
               (js "gallery-" ++ show (N.of_nat (i + 1))) 1200 clubResult
           else mret clubResult);
        webhook_gallery_loop clubName (i + 1) rest clubResult'
      else mret clubResult
  end.

(** The slots of the submission, from "Create result object" to the end of
    the gallery loop. *)
Definition webhook_slots (name : list N) (b : webhook_body) : M World club_result :=
  let clubResult :=
    {| r_name := name; cleanName := cleanClubName P name;
       r_submissionId := or_empty (w_submissionId b);
       r_email := or_empty (w_email b);
       processed := []; errors := []; cloudinaryUrls := [];
       airtableUpdate := None |} in
  clubResult ←
    match w_heroImageUrl b with
    | Some url => if truthy url && isValidUrl P url
                  then webhook_attempt_slot (js "Hero image") url
                         (cleanName clubResult) (js "hero") 1600 clubResult
                  else mret clubResult
    | None => mret clubResult
    end;
  clubResult ←
    match w_logoImageUrl b with
    | Some url => if truthy url && isValidUrl P url
                  then webhook_attempt_slot (js "Logo image") url
                         (cleanName clubResult) (js "logo") 400 clubResult
                  else mret clubResult
    | None => mret clubResult
    end;
  if gallery_given (w_galleryImageUrls b)
  then webhook_gallery_loop (cleanName clubResult) 0
         (webhook_gallery_urls (w_galleryImageUrls b)) clubResult
  else mret clubResult.

(** The JSON body of the 200 answer. *)
Definition webhook_done (clubResult : club_result) : webhook_response :=
  WebhookResponse 200
    (WebhookDone (r_name clubResult) (length (processed clubResult))
       (summary_of <$> processed clubResult) (errors clubResult)
       (match airtableUpdate clubResult with
        | Some u => success u
        | None => false
        end)).

(** [app.post('/api/process-webhook', ...)] *)
Definition process_webhook (b : webhook_body) : M World webhook_response :=
  try_catch
    (if negb (given (w_clubName b))
     then mret (WebhookResponse 400
                  (WebhookError (js "Missing required field: clubName") b))
     else if negb (given (w_heroImageUrl b)) && negb (given (w_logoImageUrl b))
             && negb (gallery_given (w_galleryImageUrls b))
     then mret (WebhookResponse 400
                  (WebhookError (js "No images found in submission") b))
     else
       clubResult ← webhook_slots (or_empty (w_clubName b)) b;
       clubResult ←
         (if airtable_configured env
          then reconcile_result P WebhookServer clubResult
          else mret clubResult);
       mret (webhook_done clubResult))
    (λ error, mret (WebhookResponse 500 (WebhookError (message error) b))).

(** [url] when the handler would process it, the empty string otherwise. *)
Definition blank_invalid (url : list N) : list N :=
  if truthy url && isValidUrl P url then url else [].

(** The club a submission stands for: what [parseCSV] would have made of
    the same name and references, with the gallery entries that are not
    valid URLs blanked in place. *)
Definition webhook_club (name : list N) (b : webhook_body) : club :=
  {| name := cleanClubName P name;
     originalName := name;
     heroImage := w_heroImageUrl b ≫= valid_or_null P;
     logoImage := w_logoImageUrl b ≫= valid_or_null P;
     galleryImages :=
       if gallery_given (w_galleryImageUrls b)
       then blank_invalid <$> webhook_gallery_urls (w_galleryImageUrls b)
       else [];
     submissionId := or_empty (w_submissionId b);
     email := or_empty (w_email b);
     rawData := [] |}.
End Webhook.

(** What the slot attempts leave untouched when every one of them fails. *)
Definition only_errors (cr cr' : club_result) : Prop :=
  r_name cr' = r_name cr ∧ cleanName cr' = cleanName cr
  ∧ r_submissionId cr' = r_submissionId cr ∧ r_email cr' = r_email cr
  ∧ processed cr' = processed cr ∧ cloudinaryUrls cr' = cloudinaryUrls cr
  ∧ airtableUpdate cr' = airtableUpdate cr.

(** A submission of the demo club with its gallery given as an array whose
    first entry is not a URL. *)
Definition demo_submission : webhook_body :=
  {| w_clubName := Some (js "Chess Club");
     w_submissionId := Some (js "s1");
     w_email := None;
     w_heroImageUrl := None;
     w_logoImageUrl := Some (js "https://img.test/l.png");
     w_galleryImageUrls := GalleryArray [js "nope"; js "https://img.test/g2.png"] |}.

(** ** The single-image endpoint: [processImage] of api/process-images.js *)

Definition DOT : N := 46.
Definition SLASH : N := 47.

(** What [processImage] reads of the [fetch] response. *)
Record fetched := Fetched {
  f_ok : bool;
  f_statusText : list N;
  f_buffer : outcome bytes               (* [await response.buffer()] *)
}.

(** The arguments of [sharp(buffer).resize(w, h, ...).webp({...})]. *)
Record resize_options := ResizeOptions {
  rs_width : N;
  rs_height : option N;                  (* [None] is [null] *)
  rs_quality : N;
  rs_progressive : bool
}.

(** The options object [uploadToCloudinary] gives to [upload_stream]. *)
Record stream_options := StreamOptions {
  so_public_id : list N;
  so_folder : list N;
  so_overwrite : bool
}.

(** The services [processImage] calls, and the runtime's printing of a
    number that is too large to be printed digit by digit. *)
Record image_service (World : Type) := ImageService {
  (** [fetch(imageUrl)] *)
  svc_fetch : list N → World → outcome fetched * World;
  (** [sharp(buffer).resize(...).webp(...).toBuffer()] *)
  svc_resize : bytes → resize_options → outcome bytes;
  (** [upload_stream(options, callback).end(buffer)]: rejects with the
      error or resolves with [result.secure_url] *)
  svc_upload : stream_options → bytes → World → outcome (list N) * World;
  (** [sharp(processedBuffer).metadata()]: width and height *)
  svc_metadata : bytes → outcome (N * N);
  (** [`${index}`] for an [index] above [Number.MAX_SAFE_INTEGER]: the
      text of the double that the number is read as *)
  svc_number_text : N → list N
}.
Arguments svc_fetch {World}.
Arguments svc_resize {World}.
Arguments svc_upload {World}.
Arguments svc_metadata {World}.
Arguments svc_number_text {World}.

(** The [config] object of the request body; an absent field is [None]. *)
Record image_config := ImageConfig {
  heroMaxWidth : option N;
  logoMaxWidth : option N;
  galleryMaxWidth : option N;
  quality : option N
}.

(** [req.body]; [req_config] is [None] when the body has no [config], and
    [req_index] is [index] after its default of 0.  [index] is taken to be
    a number without sign or fraction, as the caller's gallery counter
    is. *)
Record image_request := ImageRequest {
  imageUrl : list N;
  req_type : list N;
  req_clubName : list N;
  req_config : option image_config;
  req_index : N
}.

Record image_result := ImageResult {
  res_originalUrl : list N;
  processedUrl : list N;
  res_filename : list N;
  res_altText : list N;
  res_size : nat;
  dimensions : list N;
  res_type : list N
}.

(** [{ success: true, result }] and [{ success: false, error }]. *)
Inductive image_answer :=
| ImageDone (result : image_result)
| ImageFailed (error : list N).

Record image_reply := ImageReply {
  ir_status : N;
  ir_body : image_answer
}.

(** [x || fallback] for a number read from [config]. *)
Definition number_or (x : option N) (fallback : N) : N :=
  match x with
  | Some v => if v =? 0 then fallback else v
  | None => fallback
  end.

(** [Number.MAX_SAFE_INTEGER], 2^53 - 1: the integers up to it are doubles. *)
Definition MAX_SAFE_INTEGER : N := 9007199254740991.

(** [`${index}`]: a number is a double, and the template literal prints it
    as [Number.prototype.toString] does.  An integer up to
    [MAX_SAFE_INTEGER] is read without loss and printed as its decimal
    digits.  A larger one is read as the nearest double and printed as the
    shortest digits that denote that double, in exponent form from 10^21
    on; this text is left to the runtime. *)
Definition index_text {World} (S : image_service World) (index : N) : list N :=
  if index <=? MAX_SAFE_INTEGER then show index else svc_number_text S index.

(** [`${slug}-${type}${index ? `-${index}` : ''}.webp`] *)
Definition index_suffix {World} (S : image_service World) (index : N) : list N :=
  if index =? 0 then [] else js "-" ++ index_text S index.
Definition image_filename {World} (S : image_service World)
    (slug type : list N) (index : N) : list N :=
  slug ++ js "-" ++ type ++ index_suffix S index ++ js ".webp".

(** [filename.replace(/\.[^/.]+$/, '')]: the leftmost dot that is followed,
    up to the end, by one or more characters other than a dot and a slash,
    is removed with what follows it. *)
Fixpoint strip_extension (filename : list N) : list N :=
  match filename with
  | [] => []
  | c :: rest =>
      if (c =? DOT) && truthy rest
         && forallb (λ d, negb (d =? DOT) && negb (d =? SLASH)) rest
      then []
      else c :: strip_extension rest
  end.

(** [generateAltText(type, clubName)] of api/process-images.js, for the
    three types [processImage] calls it with and for other plain names. *)
Definition image_alt_text (type clubName : list N) : list N :=
  if str_eqb type (js "hero") then clubName ++ js " hero image"
  else if str_eqb type (js "logo") then clubName ++ js " logo"
  else if str_eqb type (js "gallery") then clubName ++ js " group photo"
  else clubName ++ js " image".

(** Reading a property of [config] when the body has none. *)
Definition undefined_config_error (property : string) : js_error :=
  JsError TypeError
    (js "Cannot read properties of undefined (reading '" ++ js property ++ js "')").

(** The types [processImage] knows. *)
Definition image_types : list (list N) := [js "hero"; js "logo"; js "gallery"].

Section ProcessImage.
Context {World : Type} (P : platform World) (S : image_service World)
        (env : environment).

(** [uploadToCloudinary(buffer, filename)] *)
Definition uploadToCloudinary (buffer : bytes) (filename : list N) : M World (list N) :=
  if negb (env_set (CLOUDINARY_URL env))
  then mret (js "https://mock-cdn.com/" ++ filename)
  else lift_outcome
         (svc_upload S {| so_public_id := strip_extension filename;
                          so_folder := js "processed-club-images";
                          so_overwrite := true |} buffer).

(** The [switch (type)] of [processImage]. *)
Definition resize_for (type : list N) (config : option image_config) (buffer : bytes)
  : M World bytes :=
  if str_eqb type (js "hero") then
    match config with
    | None => throw (undefined_config_error "heroMaxWidth")
    | Some config =>
        of_outcome (svc_resize S buffer
          {| rs_width := number_or (heroMaxWidth config) 1600; rs_height := None;
             rs_quality := number_or (quality config) 80; rs_progressive := true |})
    end
  else if str_eqb type (js "logo") then
    match config with
    | None => throw (undefined_config_error "logoMaxWidth")
    | Some config =>
        of_outcome (svc_resize S buffer
          {| rs_width := number_or (logoMaxWidth config) 400;
             rs_height := Some (number_or (logoMaxWidth config) 400);
             rs_quality := number_or (quality config) 90; rs_progressive := false |})
    end
  else if str_eqb type (js "gallery") then
    match config with
    | None => throw (undefined_config_error "galleryMaxWidth")
    | Some config =>
        of_outcome (svc_resize S buffer
          {| rs_width := number_or (galleryMaxWidth config) 1200;
             rs_height := Some (number_or (galleryMaxWidth config) 1200);
             rs_quality := number_or (quality config) 80; rs_progressive := true |})
    end
  else throw (new_Error (js "Unknown image type: " ++ type)).

Definition processImage (req : image_request) : M World image_reply :=
  try_catch
    (response ← lift_outcome (svc_fetch S (imageUrl req));
     if negb (f_ok response)
     then throw (new_Error (js "Failed to download image: " ++ f_statusText response))
     else
       buffer ← of_outcome (f_buffer response);
       let slug := slug P (req_clubName req) in
       let filename := image_filename S slug (req_type req) (req_index req) in
       processedBuffer ← resize_for (req_type req) (req_config req) buffer;
       uploadedUrl ← uploadToCloudinary processedBuffer filename;
       let altText := image_alt_text (req_type req) (req_clubName req) in
       metadata ← of_outcome (svc_metadata S processedBuffer);
       mret (ImageReply 200
               (ImageDone
                  {| res_originalUrl := imageUrl req;
                     processedUrl := uploadedUrl;
                     res_filename := filename;
                     res_altText := altText;
                     res_size := length processedBuffer;
                     dimensions := show metadata.1 ++ js "x" ++ show metadata.2;
                     res_type := req_type req |})))
    (λ error, mret (ImageReply 500 (ImageFailed (message error)))).
End ProcessImage.

(** Services that always succeed: the download is the URL itself, the
    resize keeps the buffer, the upload answers with a URL made of the
    public id; every number above [MAX_SAFE_INTEGER] is printed as 2^53. *)
Definition demo_service : image_service unit :=
  {| svc_fetch := λ url w, (Ok (Fetched true (js "OK") (Ok url)), w);
     svc_resize := λ buffer _, Ok buffer;
     svc_upload := λ options _ w,
       (Ok (js "https://res.cloudinary.test/" ++ so_folder options ++ js "/"
            ++ so_public_id options), w);
     svc_metadata := λ _, Ok (400, 300);
     svc_number_text := λ _, js "9007199254740992" |}.

Definition demo_image_request : image_request :=
  {| imageUrl := js "https://img.test/g2.png";
     req_type := js "gallery";
     req_clubName := js "Chess Club";
     req_config := Some (ImageConfig None None None None);
     req_index := 1 |}.

(** ** The Airtable writer: [writeToAirtable] of api/airtable.js *)

(** One element of [updates]: the record id and [processedImages], whose
    images are results of the single-image endpoint.  Every element is
    taken to be an object with an [airtableId] string and a
    [processedImages] object holding a [gallery] array. *)
Record club_update := ClubUpdate {
  u_airtableId : list N;
  u_hero : option image_result;
  u_logo : option image_result;
  u_gallery : list image_result
}.

(** [`Gallery Image ${index + 1} Processed URL`] and
    [`Gallery Image ${index + 1} Alt Text`] *)
Definition gallery_url_field (index : nat) : list N :=
  js "Gallery Image " ++ show (N.of_nat (index + 1)) ++ js " Processed URL".
Definition gallery_alt_field (index : nat) : list N :=
  js "Gallery Image " ++ show (N.of_nat (index + 1)) ++ js " Alt Text".

(** [gallery.forEach((img, index) => { ... })], from [index] on. *)
Fixpoint gallery_fields (index : nat) (gallery : list image_result)
    (updateFields : gmap (list N) (list N)) : gmap (list N) (list N) :=
  match gallery with
  | [] => updateFields
  | img :: rest =>
      gallery_fields (index + 1) rest
        (<[gallery_alt_field index := res_altText img]>
           (<[gallery_url_field index := processedUrl img]> updateFields))
  end.

(** The [updateFields] object built for one update. *)
Definition write_fields (update : club_update) : gmap (list N) (list N) :=
  let updateFields : gmap (list N) (list N) := ∅ in
  let updateFields :=
    match u_hero update with
    | Some hero =>
        <[js "Hero Image Alt Text" := res_altText hero]>
          (<[js "Hero Image Processed URL" := processedUrl hero]> updateFields)
    | None => updateFields
    end in
  let updateFields :=
    match u_logo update with
    | Some logo =>
        <[js "Logo Image Alt Text" := res_altText logo]>
          (<[js "Logo Image Processed URL" := processedUrl logo]> updateFields)
    | None => updateFields
    end in
  if (0 <? length (u_gallery update))%nat
  then gallery_fields 0 (u_gallery update) updateFields
  else updateFields.

(** The base that [new Airtable({ apiKey }).base(baseId)] gives.
    [base_update tableName id fields] is
    [await base(tableName).update(id, fields)]: it throws or rejects with
    an error, or resolves with a record, of which the id is kept.
    [tableName] is [None] when the body has none. *)
Record airtable_base (World : Type) := AirtableBase {
  base_update : option (list N) → list N → gmap (list N) (list N)
                → World → outcome (list N) * World
}.
Arguments base_update {World}.

(** The [airtable] package: [client_base apiKey baseId] is
    [new Airtable({ apiKey }).base(baseId)], which makes no request; it
    throws, as the constructor does without an API key, or gives a base. *)
Record airtable_client (World : Type) := AirtableClient {
  client_base : option (list N) → option (list N) → outcome (airtable_base World)
}.
Arguments client_base {World}.

(** [req.body] of the writer, an object; a property it does not have is
    [None].  [updates] is taken to be an array when it is there. *)
Record write_request := WriteRequest {
  wq_apiKey : option (list N);
  wq_baseId : option (list N);
  wq_tableName : option (list N);
  wq_updates : option (list club_update)
}.

(** One element of [results]. *)
Inductive write_result :=
| WriteOk (recordId : list N)
| WriteFailed (error recordId : list N).

Inductive write_answer :=
| WriteDone (results : list write_result)
| WriteError (error : list N).

Record write_reply := WriteReply {
  wr_status : N;
  wr_body : write_answer
}.

(** What [for (const update of updates)] throws when [updates] is
    [undefined]. *)
Definition not_iterable_error (name : string) : js_error :=
  JsError TypeError (js name ++ js " is not iterable").

Section Writer.
Context {World : Type} (A : airtable_client World).

(** The body of [for (const update of updates)]. *)
Definition write_one (base : airtable_base World) (tableName : option (list N))
    (update : club_update) : M World write_result :=
  try_catch
    (updatedRecord ← lift_outcome
                       (base_update base tableName (u_airtableId update)
                          (write_fields update));
     mret (WriteOk updatedRecord))
    (λ error, mret (WriteFailed (message error) (u_airtableId update))).

Definition writeToAirtable (body : write_request) : M World write_reply :=
  try_catch
    (base ← of_outcome (client_base A (wq_apiKey body) (wq_baseId body));
     updates ← match wq_updates body with
               | Some updates => mret updates
               | None => throw (not_iterable_error "updates")
               end;
     results ← for_each (write_one base (wq_tableName body)) updates;
     mret (WriteReply 200 (WriteDone results)))
    (λ error, mret (WriteReply 500 (WriteError (message error)))).
End Writer.

(** ** The batch endpoint: [processBatch] *)

(** One element of [clubs]; an absent property is [None]. *)
Record batch_club := BatchClub {
  bc_name : list N;
  bc_rowIndex : option N;
  bc_heroUrl : option (list N);
  bc_logoUrl : option (list N);
  bc_galleryUrls : option (list (list N))
}.

(** The JSON body posted to [/api/process-images] ([config] is passed on
    unchanged and left out here). *)
Record batch_call := BatchCall {
  call_imageUrl : list N;
  call_type : list N;
  call_clubName : list N;
  call_index : option nat
}.

Inductive batch_status :=
| Completed
| Errored (error : list N).

Section Batch.
(** [R] is what [data.result] can be. *)
Context {World R : Type}.

(** What [processBatch] reads of the reply: [response.ok] and
    [(await response.json()).result]. *)
Record batch_reply := BatchReply {
  bp_ok : bool;
  bp_result : outcome R
}.

(** [clubResult]; its [status] is set when the club is done. *)
Record batch_result := BatchResult {
  br_clubName : list N;
  br_rowIndex : option N;
  br_hero : option R;
  br_logo : option R;
  br_gallery : list R;
  br_status : batch_status
}.

(** [fetch(`${baseUrl}/api/process-images`, { method: 'POST', ... })] *)
Context (post_image : batch_call → World → outcome batch_reply * World).

(** The images of [clubResult.processedImages] while the club is processed. *)
Definition batch_images : Type := option R * option R * list R.

Definition set_hero (data : R) (images : batch_images) : batch_images :=
  (Some data, images.1.2, images.2).
Definition set_logo (data : R) (images : batch_images) : batch_images :=
  (images.1.1, Some data, images.2).
Definition push_gallery (data : R) (images : batch_images) : batch_images :=
  (images.1.1, images.1.2, images.2 ++ [data]).

(** One request and what is stored of its reply. *)
Definition batch_step (call : batch_call) (store : R → batch_images → batch_images)
    (images : batch_images) : M World batch_images :=
  response ← lift_outcome (post_image call);
  if bp_ok response
  then data ← of_outcome (bp_result response); mret (store data images)
  else mret images.

(** The requests of the gallery loop, from index [i] on. *)
Fixpoint gallery_steps (clubName : list N) (i : nat) (urls : list (list N))
  : list (batch_images → M World batch_images) :=
  match urls with
  | [] => []
  | url :: rest =>
      batch_step (BatchCall url (js "gallery") clubName (Some i)) push_gallery
      :: gallery_steps clubName (i + 1) rest
  end.

(** The requests made for a club, in order. *)
Definition club_steps (club : batch_club)
  : list (batch_images → M World batch_images) :=
  (match bc_heroUrl club with
   | Some url => if truthy url
                 then [batch_step (BatchCall url (js "hero") (bc_name club) None) set_hero]
                 else []
   | None => []
   end)
  ++ (match bc_logoUrl club with
      | Some url => if truthy url
                    then [batch_step (BatchCall url (js "logo") (bc_name club) None)
                            set_logo]
                    else []
      | None => []
      end)
  ++ (match bc_galleryUrls club with
      | Some urls => gallery_steps (bc_name club) 0 (take (min (length urls) 4) urls)
      | None => []
      end).

(** The inner [try { ... clubResult.status = 'completed' } catch (error)
    { clubResult.status = 'error'; ... }]: what was stored before a step
    throws stays in [clubResult]. *)
Fixpoint run_steps (steps : list (batch_images → M World batch_images))
    (images : batch_images) : M World (batch_images * batch_status) :=
  match steps with
  | [] => mret (images, Completed)
  | step :: rest =>
      λ n, match step images n with
           | (Ok images', n') => run_steps rest images' n'
           | (Throw e, n') => (Ok (images, Errored (message e)), n')
           end
  end.

(** The body of [for (const club of clubs)]. *)
Definition batch_club_result (club : batch_club) : M World batch_result :=
  done ← run_steps (club_steps club) (None, None, []);
  mret {| br_clubName := bc_name club;
          br_rowIndex := bc_rowIndex club;
          br_hero := done.1.1.1;
          br_logo := done.1.1.2;
          br_gallery := done.1.2;
          br_status := done.2 |}.

(** [processBatch]: the results of the [200] answer. *)
Definition processBatch (clubs : list batch_club) : M World (list batch_result) :=
  for_each batch_club_result clubs.
End Batch.
Arguments batch_reply : clear implicits.
Arguments batch_result : clear implicits.
Arguments BatchReply {R}.
Arguments BatchResult {R}.

(** An Airtable base that refuses the record [recBad]. *)
Definition demo_base : airtable_base unit :=
  {| base_update := λ _ id _ w,
       if str_eqb id (js "recBad")
       then (Throw (new_Error (js "Record not found")), w)
       else (Ok id, w) |}.

(** A client that refuses to connect without an API key. *)
Definition demo_client : airtable_client unit :=
  {| client_base := λ apiKey _,
       match apiKey with
       | Some _ => Ok demo_base
       | None => Throw (new_Error (js "An API key is required to connect to Airtable"))
       end |}.

(** Two updates, the second for the record that the base refuses. *)
Definition demo_updates : list club_update :=
  [ClubUpdate (js "rec1") None None []; ClubUpdate (js "recBad") None None []].

(** An image endpoint that answers every request with an error status. *)
Definition refusing_endpoint : batch_call → unit → outcome (batch_reply unit) * unit :=
  λ _ w, (Ok (BatchReply false (Ok ())), w).

(** An image endpoint whose connection breaks on every logo request. *)
Definition flaky_endpoint : batch_call → unit → outcome (batch_reply (list N)) * unit :=
  λ call w,
    if str_eqb (call_type call) (js "logo")
    then (Throw (new_Error (js "socket hang up")), w)
    else (Ok (BatchReply true (Ok (call_imageUrl call))), w).

Definition hero_logo_club : batch_club :=
  {| bc_name := js "Chess Club"; bc_rowIndex := Some 2;
     bc_heroUrl := Some (js "https://img.test/h.png");
     bc_logoUrl := Some (js "https://img.test/l.png");
     bc_galleryUrls := Some [js "https://img.test/g1.png"] |}.

Definition demo_batch_club : batch_club :=
  {| bc_name := js "Chess Club"; bc_rowIndex := Some 2;
     bc_heroUrl := Some (js "https://img.test/h.png"); bc_logoUrl := None;
     bc_galleryUrls := Some [js "https://img.test/g1.png"] |}.

(** ** Hyphenated names *)

(** [words.join(sep)] for a one-character separator. *)
Fixpoint join_words (sep : N) (words : list (list N)) : list N :=
  match words with
  | [] => []
  | [word] => word
  | word :: rest => word ++ sep :: join_words sep rest
  end.

(** A word with its first letter in upper case. *)
Definition capitalize (word : list N) : list N :=
  match word with
  | [] => []
  | c :: rest => ascii_upper c :: rest
  end.

(** The phrase [generateAltText] puts after the club name. *)
Definition alt_phrase (imageType : list N) : list N :=
  if str_eqb imageType (js "hero") then js " hero image"
  else if str_eqb imageType (js "logo") then js " logo"
  else if is_gallery_type imageType then js " group photo"
  else js " image".

(** The characters of a storage key: those of a cleaned name and the slash. *)
Definition is_key_char (c : N) : bool := is_clean_char c || (c =? 47).

(** * Properties *)

(** ** The scanning loop terminates *)

Section ScanLoop.
Implicit Types (st : scan_state) (csvText : jsstring) (i fuel : nat).

Lemma scan_step_advance char nextChar st i :
  (i < (scan_step char nextChar st i).2 ≤ i + 2)%nat.
Proof.
  unfold scan_step.
  repeat (case_match; simpl); lia.
Qed.

Lemma scan_loop_enough fuel csvText st i :
  (length csvText ≤ fuel + i)%nat → is_Some (scan_loop fuel csvText st i).
Proof.
  revert st i. induction fuel as [|fuel IH]; intros st i Hlen; simpl.
  - destruct (csvText !! i) as [char|] eqn:Hi; [|by eexists].
    apply lookup_lt_Some in Hi. lia.
  - destruct (csvText !! i) as [char|] eqn:Hi; [|by eexists].
    destruct (scan_step _ _ st i) as [st' i'] eqn:Hstep.
    apply IH.
    pose proof (scan_step_advance char (csvText !! (i + 1)%nat) st i) as Hadv.
    rewrite Hstep in Hadv. simpl in Hadv. lia.
Qed.

Lemma scan_loop_fuel fuel1 fuel2 csvText st i :
  (length csvText ≤ fuel1 + i)%nat → (length csvText ≤ fuel2 + i)%nat →
  scan_loop fuel1 csvText st i = scan_loop fuel2 csvText st i.
Proof.
  revert fuel2 st i. induction fuel1 as [|fuel1 IH]; intros fuel2 st i H1 H2.
  - destruct fuel2; simpl; destruct (csvText !! i) as [char|] eqn:Hi; try done;
      apply lookup_lt_Some in Hi; lia.
  - destruct fuel2 as [|fuel2]; simpl; destruct (csvText !! i) as [char|] eqn:Hi; try done.
    + apply lookup_lt_Some in Hi. lia.
    + destruct (scan_step _ _ st i) as [st' i'] eqn:Hstep.
      pose proof (scan_step_advance char (csvText !! (i + 1)%nat) st i) as Hadv.
      rewrite Hstep in Hadv. simpl in Hadv.
      apply IH; lia.
Qed.

Lemma scan_from_end csvText st i :
  csvText !! i = None → scan_from csvText st i = Some st.
Proof.
  intros Hi. unfold scan_from. destruct (length csvText); simpl; by rewrite Hi.
Qed.

Lemma scan_loop_S fuel csvText st i char :
  csvText !! i = Some char →
  scan_loop (S fuel) csvText st i
  = scan_loop fuel csvText (scan_step char (csvText !! (i + 1)%nat) st i).1
                           (scan_step char (csvText !! (i + 1)%nat) st i).2.
Proof.
  intros Hi. cbn [scan_loop]. rewrite Hi.
  by destruct (scan_step _ _ st i).
Qed.

Lemma scan_from_step csvText st i char :
  csvText !! i = Some char →
  scan_from csvText st i
  = scan_from csvText (scan_step char (csvText !! (i + 1)%nat) st i).1
                      (scan_step char (csvText !! (i + 1)%nat) st i).2.
Proof.
  intros Hi. unfold scan_from.
  pose proof (lookup_lt_Some _ _ _ Hi) as Hlt.
  pose proof (scan_step_advance char (csvText !! (i + 1)%nat) st i) as Hadv.
  rewrite (scan_loop_fuel (length csvText) (S (length csvText))) by lia.
  rewrite (scan_loop_S _ _ _ _ _ Hi).
  apply scan_loop_fuel; lia.
Qed.

Lemma scan_from_total csvText st i : is_Some (scan_from csvText st i).
Proof. apply scan_loop_enough. lia. Qed.
End ScanLoop.

(** ** Blank fields and blank rows *)

Lemma drop_while_nil p s : drop_while p s = [] ↔ Forall (λ c, p c = true) s.
Proof.
  induction s as [|c s IH]; simpl; [by split|].
  destruct (p c) eqn:Hc.
  - rewrite IH. split; [by constructor|by inversion 1].
  - split; [done|]. inversion 1; congruence.
Qed.

Lemma drop_while_head p s c rest : drop_while p s = c :: rest → p c = false.
Proof.
  induction s as [|d s IH]; simpl; [done|].
  destruct (p d) eqn:Hd; [done|]. congruence.
Qed.

Lemma trim_nil s : trim s = [] ↔ Forall (λ c, is_space c = true) s.
Proof.
  unfold trim. rewrite <- drop_while_nil. split.
  - intros H. apply (f_equal reverse) in H. rewrite reverse_involutive in H.
    change (reverse []) with (@nil jschar) in H.
    destruct (drop_while is_space s) as [|c rest] eqn:Hd; [done|].
    apply drop_while_head in Hd.
    apply drop_while_nil in H.
    rewrite Forall_forall in H. specialize (H c).
    rewrite H in Hd; [done|]. rewrite reverse_cons. set_solver.
  - intros ->. done.
Qed.

Lemma field_nonblank_true field : field_nonblank field = true ↔ trim field ≠ [].
Proof.
  unfold field_nonblank, str_eqb. rewrite negb_true_iff, bool_decide_eq_false. done.
Qed.

Lemma field_nonblank_false field :
  field_nonblank field = false ↔ Forall (λ c, is_space c = true) field.
Proof.
  unfold field_nonblank, str_eqb. rewrite negb_false_iff, bool_decide_eq_true.
  apply trim_nil.
Qed.

Lemma push_row_if_nonblank_ok rs row :
  Forall row_nonblank rs → Forall row_nonblank (push_row_if_nonblank rs row).
Proof.
  intros Hrs. unfold push_row_if_nonblank.
  destruct ((0 <? length row)%nat && existsb field_nonblank row) eqn:Hc; [|done].
  apply andb_true_iff in Hc as [_ Hex].
  apply existsb_exists in Hex as (field & Hin & Hnb).
  apply Forall_app. split; [done|]. constructor; [|done].
  exists field. split; [by apply list_elem_of_In|by apply field_nonblank_true].
Qed.

Lemma push_row_blank rs (field : jsstring) :
  Forall (λ c, is_space c = true) field → push_row_if_nonblank rs [field] = rs.
Proof.
  intros H. unfold push_row_if_nonblank. simpl.
  apply field_nonblank_false in H. by rewrite H.
Qed.

Lemma scan_step_rows_ok char nextChar st i :
  Forall row_nonblank (rows st) →
  Forall row_nonblank (rows (scan_step char nextChar st i).1).
Proof.
  intros H. unfold scan_step.
  repeat (case_match; simpl); auto using push_row_if_nonblank_ok.
Qed.

Lemma scan_loop_rows_ok fuel csvText st i st' :
  Forall row_nonblank (rows st) →
  scan_loop fuel csvText st i = Some st' →
  Forall row_nonblank (rows st').
Proof.
  revert st i. induction fuel as [|fuel IH]; intros st i Hst; simpl.
  - destruct (csvText !! i); [done|]. by intros [= <-].
  - destruct (csvText !! i) as [char|] eqn:Hi; [|by intros [= <-]].
    pose proof (scan_step_rows_ok char (csvText !! (i + 1)%nat) st i Hst) as Hok.
    destruct (scan_step _ _ st i) as [st1 i1]. apply IH, Hok.
Qed.

Lemma scan_finish_rows_ok st :
  Forall row_nonblank (rows st) → Forall row_nonblank (scan_finish st).
Proof.
  intros H. unfold scan_finish. case_match; auto using push_row_if_nonblank_ok.
Qed.

(** ** Whitespace-only lines *)

Lemma is_space_not_quote_comma c :
  is_space c = true → (c =? DQUOTE) = false ∧ (c =? COMMA) = false.
Proof.
  intros Hc. split; apply N.eqb_neq; intros ->; vm_compute in Hc; done.
Qed.

(** One iteration on a whitespace character, at the start of a row whose
    only field so far is blank. *)
Lemma scan_step_blank c nextChar rs (field : jsstring) i :
  is_space c = true → Forall (λ c, is_space c = true) field →
  scan_step c nextChar (ScanState rs [] field false) i
  = if (c =? LF) || (c =? CR)
    then (ScanState rs [] [] false,
          if (c =? CR) && bool_decide (nextChar = Some LF) then (i + 2)%nat else (i + 1)%nat)
    else (ScanState rs [] (field ++ [c]) false, (i + 1)%nat).
Proof.
  intros Hc Hfield. unfold scan_step. simpl.
  destruct (is_space_not_quote_comma c Hc) as [-> ->]. simpl.
  rewrite andb_true_r.
  destruct ((c =? LF) || (c =? CR)) eqn:Hnl; [|done].
  cbn. rewrite (push_row_blank rs field Hfield).
  destruct ((c =? CR) && bool_decide (nextChar = Some LF)); f_equal; lia.
Qed.

Lemma lookup_middle (pre : jsstring) c rest : (pre ++ c :: rest) !! length pre = Some c.
Proof. by rewrite list_lookup_middle. Qed.

Lemma lookup_after (pre : jsstring) c rest :
  (pre ++ c :: rest) !! (length pre + 1)%nat = head rest.
Proof.
  rewrite lookup_app_r by lia.
  replace (length pre + 1 - length pre)%nat with 1%nat by lia.
  by destruct rest.
Qed.

Lemma blank_line_skipped_gen (ws : jsstring) :
  ∀ (pre field : jsstring) rs terminator (rest : jsstring),
  Forall (λ c, is_space c = true) ws →
  Forall (λ c, is_space c = true) field →
  terminator = LF ∨ terminator = CR →
  scan_from (pre ++ ws ++ terminator :: rest) (ScanState rs [] field false) (length pre)
  = scan_from (pre ++ ws ++ terminator :: rest) (ScanState rs [] [] false)
      (length pre + length ws + 1 + crlf_extra terminator rest).
Proof.
  induction ws as [ws IH] using (induction_ltof1 _ (@length jschar)).
  unfold ltof in IH.
  intros pre field rs terminator rest Hws Hfield Hterm.
  destruct ws as [|c ws]; simpl.
  - rewrite (scan_from_step _ _ _ terminator) by apply lookup_middle.
    rewrite lookup_after.
    rewrite scan_step_blank; [|by destruct Hterm as [-> | ->]|done].
    unfold crlf_extra.
    destruct Hterm as [-> | ->]; simpl.
    + f_equal. lia.
    + destruct (bool_decide (head rest = Some LF)); simpl; f_equal; lia.
  - apply Forall_cons in Hws as [Hc Hws].
    rewrite (scan_from_step _ _ _ c) by apply lookup_middle.
    rewrite lookup_after.
    rewrite scan_step_blank by done.
    replace (pre ++ c :: ws ++ terminator :: rest)
      with ((pre ++ [c]) ++ ws ++ terminator :: rest) by by rewrite <- app_assoc.
    destruct ((c =? LF) || (c =? CR)) eqn:Hnl; simpl.
    + destruct ((c =? CR) && bool_decide (head (ws ++ terminator :: rest) = Some LF))
        eqn:Hpair; simpl.
      * apply andb_true_iff in Hpair as [_ Hhead].
        apply bool_decide_eq_true in Hhead.
        destruct ws as [|d ws]; simpl in *.
        -- injection Hhead as ->. unfold crlf_extra. simpl. f_equal. lia.
        -- injection Hhead as ->.
           replace ((pre ++ [c]) ++ LF :: ws ++ terminator :: rest)
             with ((pre ++ [c; LF]) ++ ws ++ terminator :: rest)
             by by rewrite <- !app_assoc.
           apply Forall_cons in Hws as [_ Hws].
           replace (length pre + 2)%nat with (length (pre ++ [c; LF]))
             by (rewrite length_app; simpl; lia).
           rewrite (IH ws) by (simpl; done || lia).
           f_equal. rewrite length_app. simpl. lia.
      * replace (length pre + 1)%nat with (length (pre ++ [c]))
          by (rewrite length_app; simpl; lia).
        rewrite (IH ws) by (simpl; done || lia).
        f_equal. rewrite length_app. simpl. lia.
    + replace (length pre + 1)%nat with (length (pre ++ [c]))
        by (rewrite length_app; simpl; lia).
      rewrite (IH ws); [|simpl; lia|done| |done].
      * f_equal. rewrite length_app. simpl. lia.
      * apply Forall_app. split; [done|by constructor].
Qed.

Lemma blank_tail_dropped_gen (ws : jsstring) : ∀ (pre field : jsstring) rs,
  Forall (λ c, is_space c = true) ws →
  Forall (λ c, is_space c = true) field →
  scan_finish <$> scan_from (pre ++ ws) (ScanState rs [] field false) (length pre)
  = Some rs.
Proof.
  induction ws as [ws IH] using (induction_ltof1 _ (@length jschar)).
  unfold ltof in IH.
  intros pre field rs Hws Hfield.
  destruct ws as [|c ws].
  - rewrite scan_from_end by (apply lookup_ge_None; rewrite length_app; simpl; lia).
    simpl. unfold scan_finish. simpl.
    rewrite (push_row_blank rs field Hfield). by destruct (truthy field).
  - apply Forall_cons in Hws as [Hc Hws].
    rewrite (scan_from_step _ _ _ c) by apply lookup_middle.
    rewrite lookup_after, scan_step_blank by done.
    replace (pre ++ c :: ws) with ((pre ++ [c]) ++ ws) by by rewrite <- app_assoc.
    assert (Hlen1 : (length pre + 1)%nat = length (pre ++ [c]))
      by (rewrite length_app; simpl; lia).
    destruct ((c =? LF) || (c =? CR)) eqn:Hnl; simpl.
    + destruct ((c =? CR) && bool_decide (head ws = Some LF)) eqn:Hpair; simpl.
      * apply andb_true_iff in Hpair as [_ Hhead].
        apply bool_decide_eq_true in Hhead.
        destruct ws as [|d ws]; [done|]. simpl in Hhead. injection Hhead as ->.
        replace ((pre ++ [c]) ++ LF :: ws) with ((pre ++ [c; LF]) ++ ws)
          by by rewrite <- !app_assoc.
        apply Forall_cons in Hws as [_ Hws].
        replace (length pre + 2)%nat with (length (pre ++ [c; LF]))
          by (rewrite length_app; simpl; lia).
        apply IH; simpl; done || lia.
      * rewrite Hlen1. apply IH; simpl; done || lia.
    + rewrite Hlen1. apply IH; [simpl; lia|done|].
      apply Forall_app. split; [done|by constructor].
Qed.

(** ** Quoted content up to the end of the input *)

Lemma scan_step_in_quotes c nextChar rs row (field : jsstring) i :
  c ≠ DQUOTE →
  scan_step c nextChar (ScanState rs row field true) i
  = (ScanState rs row (field ++ [c]) true, (i + 1)%nat).
Proof.
  intros Hc. unfold scan_step. simpl.
  apply N.eqb_neq in Hc. rewrite Hc. by rewrite !andb_false_r.
Qed.

Lemma scan_step_escaped_quote rs row (field : jsstring) i :
  scan_step DQUOTE (Some DQUOTE) (ScanState rs row field true) i
  = (ScanState rs row (field ++ [DQUOTE]) true, (i + 2)%nat).
Proof. done. Qed.

Lemma scan_quoted_to_end (q : jsstring) :
  ∀ (pre : jsstring) rs row (field content : jsstring),
  open_quoted_content q = Some content →
  scan_from (pre ++ q) (ScanState rs row field true) (length pre)
  = Some (ScanState rs row (field ++ content) true).
Proof.
  induction q as [q IH] using (induction_ltof1 _ (@length N)).
  unfold ltof in IH.
  intros pre rs row field content Hq.
  destruct q as [|c q]; simpl in Hq.
  - injection Hq as <-.
    rewrite scan_from_end by (apply lookup_ge_None; rewrite length_app; simpl; lia).
    by rewrite app_nil_r.
  - rewrite (scan_from_step _ _ _ c) by apply lookup_middle.
    rewrite lookup_after.
    destruct (c =? DQUOTE) eqn:Hc.
    + apply N.eqb_eq in Hc as ->.
      destruct q as [|d q]; [done|].
      destruct (d =? DQUOTE) eqn:Hd; [|done].
      apply N.eqb_eq in Hd as ->.
      destruct (open_quoted_content q) as [content'|] eqn:Hrest; [|done].
      injection Hq as <-. cbn [head].
      rewrite scan_step_escaped_quote. cbn [fst snd].
      replace (pre ++ DQUOTE :: DQUOTE :: q) with ((pre ++ [DQUOTE; DQUOTE]) ++ q)
        by by rewrite <- app_assoc.
      replace (length pre + 2)%nat with (length (pre ++ [DQUOTE; DQUOTE]))
        by (rewrite length_app; simpl; lia).
      rewrite (IH q) with (content := content') by (simpl; done || lia).
      by rewrite <- app_assoc.
    + destruct (open_quoted_content q) as [content'|] eqn:Hrest; [|done].
      injection Hq as <-.
      rewrite scan_step_in_quotes by (by apply N.eqb_neq). cbn [fst snd].
      replace (pre ++ c :: q) with ((pre ++ [c]) ++ q) by by rewrite <- app_assoc.
      replace (length pre + 1)%nat with (length (pre ++ [c]))
        by (rewrite length_app; simpl; lia).
      rewrite (IH q) with (content := content') by (simpl; done || lia).
      by rewrite <- app_assoc.
Qed.

Lemma scan_open_quote_to_end (pre q content : jsstring) st :
  inQuotes st = false → open_quoted_content q = Some content →
  scan_from (pre ++ DQUOTE :: q) st (length pre)
  = Some (ScanState (rows st) (currentRow st) (currentField st ++ content) true).
Proof.
  intros Hst Hq.
  rewrite (scan_from_step _ _ _ DQUOTE) by apply lookup_middle.
  unfold scan_step. rewrite Hst. simpl.
  replace (pre ++ DQUOTE :: q) with ((pre ++ [DQUOTE]) ++ q) by by rewrite <- app_assoc.
  replace (length pre + 1)%nat with (length (pre ++ [DQUOTE]))
    by (rewrite length_app; simpl; lia).
  by apply scan_quoted_to_end.
Qed.

Lemma scan_finish_push st :
  scan_finish st
  = push_row_if_nonblank (rows st) (currentRow st ++ [currentField st]).
Proof.
  unfold scan_finish.
  destruct (currentField st) as [|c field] eqn:Hf;
    destruct (currentRow st) as [|r row] eqn:Hr; simpl; try done.
Qed.

Lemma visits_scan_from csvText st i :
  visits csvText st i → scan_from csvText scan_init 0 = scan_from csvText st i.
Proof.
  induction 1 as [|st i char _ IH Hi]; [done|].
  by rewrite IH, (scan_from_step _ _ _ _ Hi).
Qed.

(** ** The parser: claims *)

(** C6: [parse] applied to the quoting example (the text a, quoted b,c and
    quoted d-doubled quote-e) returns exactly one row of three fields: a,
    then b,c, then d-quote-e.  The comma inside quotes stays in its field and
    the doubled quote becomes one literal quote character. *)
Theorem parse_quoted_fields_example :
  parse quoting_example
  = Some [[js "a"; js "b,c"; js "d" ++ [DQUOTE] ++ js "e"]].
Proof. vm_compute. reflexivity. Qed.

(** C7: every row returned by [parse] has a field that is non-blank after
    trimming; a whitespace-only line met at the start of a row, whatever
    terminates it (LF, CR or CR LF), leaves the rows collected so far
    unchanged and the loop at the start of the next line; a whitespace-only
    unterminated last line adds no row. *)
Theorem parse_never_returns_blank_rows :
  (∀ csvText, ∃ rs, parse csvText = Some rs ∧ Forall row_nonblank rs)
  ∧ (∀ (pre ws rest : jsstring) rs terminator,
       visits (pre ++ ws ++ terminator :: rest) (row_start rs) (length pre) →
       Forall (λ c, is_space c = true) ws →
       terminator = LF ∨ terminator = CR →
       parse (pre ++ ws ++ terminator :: rest)
       = scan_finish <$> scan_from (pre ++ ws ++ terminator :: rest) (row_start rs)
                           (length pre + length ws + 1 + crlf_extra terminator rest))
  ∧ (∀ (pre ws : jsstring) rs,
       visits (pre ++ ws) (row_start rs) (length pre) →
       Forall (λ c, is_space c = true) ws →
       parse (pre ++ ws) = Some rs).
Proof.
  split; [|split].
  - intros csvText. unfold parse.
    destruct (scan_from_total csvText scan_init 0) as [st Hst].
    rewrite Hst. simpl. eexists. split; [done|].
    apply scan_finish_rows_ok.
    eapply scan_loop_rows_ok; [|exact Hst]. constructor.
  - intros pre ws rest rs terminator Hvis Hws Hterm.
    unfold parse. rewrite (visits_scan_from _ _ _ Hvis).
    unfold row_start. by rewrite blank_line_skipped_gen.
  - intros pre ws rs Hvis Hws.
    unfold parse. rewrite (visits_scan_from _ _ _ Hvis).
    by apply blank_tail_dropped_gen.
Qed.

Lemma parse_never_returns_blank_rows_witness :
  visits (js "x" ++ [LF] ++ js "  ") (row_start [[js "x"]]) 2
  ∧ Forall (λ c, is_space c = true) (js "  ")
  ∧ parse (js "x" ++ [LF] ++ js "  ") = Some [[js "x"]].
Proof.
  assert (Hvis : visits (js "x" ++ [LF] ++ js "  ") (row_start [[js "x"]]) 2).
  { pose (text := js "x" ++ [LF] ++ js "  ").
    exact (visits_next text _ 1 LF
             (visits_next text _ 0 120 (visits_start text) eq_refl) eq_refl). }
  assert (Hws : Forall (λ c, is_space c = true) (js "  ")).
  { repeat constructor. }
  split; [exact Hvis|]. split; [exact Hws|].
  exact (proj2 (proj2 parse_never_returns_blank_rows)
           (js "x" ++ [LF]) (js "  ") [[js "x"]] Hvis Hws).
Defined.

(** C8: [parse] is total: on every input the loop stops within
    [csvText.length] iterations and a result is returned; no operation of the
    scan can throw.  When the input ends inside a quoted field (a quote met
    outside quotes and never closed, doubled quotes inside it counting as
    content), what follows the opening quote is appended to the field in
    progress, each doubled quote as one quote character, and that field
    becomes the last field of the last row; the row is kept exactly when one
    of its fields is non-blank. *)
Theorem parse_total_and_lenient :
  (∀ csvText, ∃ rs, parse csvText = Some rs)
  ∧ (∀ (pre q content : jsstring) st,
       visits (pre ++ DQUOTE :: q) st (length pre) →
       inQuotes st = false → open_quoted_content q = Some content →
       parse (pre ++ DQUOTE :: q)
       = Some (push_row_if_nonblank (rows st)
                 (currentRow st ++ [currentField st ++ content]))).
Proof.
  split.
  - intros csvText. unfold parse.
    destruct (scan_from_total csvText scan_init 0) as [st ->]. by eexists.
  - intros pre q content st Hvis Hst Hq. unfold parse.
    rewrite (visits_scan_from _ _ _ Hvis).
    rewrite (scan_open_quote_to_end pre q content) by done. simpl.
    by rewrite scan_finish_push.
Qed.

Lemma parse_total_and_lenient_witness :
  parse (js "a," ++ [DQUOTE] ++ js "b,c" ++ [DQUOTE; DQUOTE; LF] ++ js "d")
  = Some [[js "a"; js "b,c" ++ [DQUOTE; LF] ++ js "d"]].
Proof.
  refine (proj2 parse_total_and_lenient (js "a,")
            (js "b,c" ++ [DQUOTE; DQUOTE; LF] ++ js "d")
            (js "b,c" ++ [DQUOTE; LF] ++ js "d")
            (ScanState [] [js "a"] [] false) _ eq_refl eq_refl).
  pose (text := js "a," ++ DQUOTE :: js "b,c" ++ [DQUOTE; DQUOTE; LF] ++ js "d").
  exact (visits_next text _ 1 COMMA
           (visits_next text _ 0 97 (visits_start text) eq_refl) eq_refl).
Defined.

(** ** Slug functions: character classes *)

Ltac char_prop :=
  unfold is_clean_char, is_slug_char, is_word, is_hyphen, is_upper, is_lower,
    is_digit, is_space, is_ascii, ascii_lower, HYPHEN, UNDERSCORE in *;
  rewrite ?orb_true_iff, ?orb_false_iff, ?andb_true_iff, ?andb_false_iff,
    ?N.leb_le, ?N.leb_gt, ?N.eqb_eq, ?N.eqb_neq, ?N.ltb_lt, ?N.ltb_ge in *.

Lemma squeeze_from_keeps (p : jschar → bool) r (Q : jschar → Prop) b s :
  Q r → Forall (λ c, p c = false → Q c) s → Forall Q (squeeze_from p r b s).
Proof.
  intros Hr. revert b. induction s as [|c s IH]; intros b Hs; simpl; [constructor|].
  apply Forall_cons in Hs as [Hc Hs].
  destruct (p c) eqn:Hpc; [destruct b|]; auto.
Qed.

Lemma squeeze_from_no_match (p : jschar → bool) r b s :
  Forall (λ c, p c = false) s → squeeze_from p r b s = s.
Proof.
  revert b. induction s as [|c s IH]; intros b Hs; simpl; [done|].
  apply Forall_cons in Hs as [-> Hs]. by rewrite IH.
Qed.

Lemma squeeze_from_no_runs (p : jschar → bool) r b s :
  p r = true → no_runs p b (squeeze_from p r b s) = true.
Proof.
  intros Hr. revert b. induction s as [|c s IH]; intros b; simpl; [done|].
  destruct (p c) eqn:Hpc; [destruct b|]; simpl; rewrite ?Hr, ?Hpc, ?IH; auto.
Qed.

Lemma squeeze_from_fixed (p : jschar → bool) r b s :
  (∀ c, p c = true → c = r) → no_runs p b s = true → squeeze_from p r b s = s.
Proof.
  intros Hp. revert b. induction s as [|c s IH]; intros b Hs; simpl in *; [done|].
  destruct (p c) eqn:Hpc.
  - apply andb_true_iff in Hs as [Hb Hs]. apply negb_true_iff in Hb as ->.
    by rewrite (IH true Hs), (Hp c Hpc).
  - by rewrite IH.
Qed.

Lemma no_runs_take (p : jschar → bool) n b s :
  no_runs p b s = true → no_runs p b (take n s) = true.
Proof.
  revert b s. induction n as [|n IH]; intros b [|c s] Hs; simpl in *; try done.
  destruct (p c); [|by apply IH].
  apply andb_true_iff in Hs as [-> Hs]. simpl. by apply IH.
Qed.

Lemma filter_all (Q : jschar → Prop) `{!∀ c, Decision (Q c)} (s : list jschar) :
  Forall Q s → filter Q s = s.
Proof.
  induction 1 as [|c s Hc _ IH]; [done|].
  rewrite filter_cons_True by done. by f_equal.
Qed.

Lemma drop_while_no_match p (s : jsstring) :
  Forall (λ c, p c = false) s → drop_while p s = s.
Proof. destruct 1 as [|c s Hc _]; simpl; [done|by rewrite Hc]. Qed.

Lemma trim_no_space s : Forall (λ c, is_space c = false) s → trim s = s.
Proof.
  intros Hs. unfold trim. rewrite (drop_while_no_match _ s Hs).
  rewrite drop_while_no_match; [by rewrite reverse_involutive|].
  by apply Forall_reverse.
Qed.

Lemma lower_fixed s :
  Forall (λ c, is_upper c = false) s → ascii_lower <$> s = s.
Proof.
  induction 1 as [|c s Hc _ IH]; [done|].
  rewrite fmap_cons, IH. unfold ascii_lower. by rewrite Hc.
Qed.

Lemma clean_char_facts c :
  is_clean_char c = true →
  (is_word c || is_space c || is_hyphen c = true) ∧ is_space c = false
  ∧ is_upper c = false ∧ is_ascii c = true.
Proof. char_prop. lia. Qed.

Lemma slug_char_facts c :
  is_slug_char c = true →
  (is_lower c || is_digit c || is_space c || is_hyphen c = true)
  ∧ is_space c = false ∧ is_upper c = false ∧ is_ascii c = true.
Proof. char_prop. lia. Qed.

Lemma lower_word_clean c :
  is_word c = true ∨ c = HYPHEN → is_clean_char (ascii_lower c) = true ∧ is_ascii c = true.
Proof.
  unfold ascii_lower. destruct (is_upper c) eqn:Hu; char_prop; lia.
Qed.

Lemma Forall_filter_1 (Q : jschar → Prop) `{!∀ c, Decision (Q c)} (s : list jschar) :
  Forall Q (filter Q s).
Proof. apply Forall_forall. intros c Hc. by apply list_elem_of_filter in Hc as [? _]. Qed.

(** ** Slug functions: idempotence *)

Section SlugIdempotence.
Context {World : Type} (P : platform World).
(** On a string of ASCII characters [toLowerCase] maps [A-Z] to [a-z]
    character by character. *)
Hypothesis toLowerCase_ascii :
  ∀ s, Forall (λ c, is_ascii c = true) s → toLowerCase P s = ascii_lower <$> s.

Lemma cleanClubName_clean name :
  Forall (λ c, is_clean_char c = true) (cleanClubName P name)
  ∧ (length (cleanClubName P name) ≤ 50)%nat.
Proof.
  unfold cleanClubName. split; [|rewrite length_take; lia].
  apply Forall_take.
  set (kept := filter _ name).
  assert (Hsq : Forall (λ c, is_word c = true ∨ c = HYPHEN)
                  (squeeze is_space HYPHEN kept)).
  { apply squeeze_from_keeps; [by right|].
    eapply Forall_impl; [apply Forall_filter_1|].
    simpl. intros c Hkeep Hsp. char_prop. lia. }
  rewrite toLowerCase_ascii.
  - apply Forall_fmap. eapply Forall_impl; [exact Hsq|].
    intros c Hc. by apply lower_word_clean.
  - eapply Forall_impl; [exact Hsq|]. intros c Hc. by apply lower_word_clean.
Qed.

Lemma cleanClubName_fixed s :
  Forall (λ c, is_clean_char c = true) s → (length s ≤ 50)%nat →
  cleanClubName P s = s.
Proof.
  intros Hs Hlen. unfold cleanClubName.
  rewrite filter_all
    by (eapply Forall_impl; [exact Hs|]; intros c Hc; by apply clean_char_facts).
  unfold squeeze. rewrite squeeze_from_no_match
    by (eapply Forall_impl; [exact Hs|]; intros c Hc; by apply clean_char_facts).
  rewrite toLowerCase_ascii
    by (eapply Forall_impl; [exact Hs|]; intros c Hc; by apply clean_char_facts).
  rewrite lower_fixed
    by (eapply Forall_impl; [exact Hs|]; intros c Hc; by apply clean_char_facts).
  by apply take_ge.
Qed.

Lemma slug_shape clubName :
  Forall (λ c, is_slug_char c = true) (slug P clubName)
  ∧ no_runs is_hyphen false (slug P clubName) = true
  ∧ (length (slug P clubName) ≤ 50)%nat.
Proof.
  unfold slug.
  set (kept := filter _ (toLowerCase P clubName)).
  assert (H1 : Forall (λ c, is_slug_char c = true) (squeeze is_space HYPHEN kept)).
  { apply squeeze_from_keeps; [done|].
    eapply Forall_impl; [apply Forall_filter_1|].
    simpl. intros c Hkeep Hsp. char_prop. lia. }
  set (collapsed := squeeze is_hyphen HYPHEN (squeeze is_space HYPHEN kept)).
  assert (H2 : Forall (λ c, is_slug_char c = true) collapsed).
  { apply squeeze_from_keeps; [done|].
    eapply Forall_impl; [exact H1|]. auto. }
  assert (H3 : no_runs is_hyphen false collapsed = true)
    by by apply squeeze_from_no_runs.
  rewrite trim_no_space
    by (eapply Forall_impl; [exact H2|]; intros c Hc; by apply slug_char_facts).
  split; [by apply Forall_take|].
  split; [by apply no_runs_take|].
  rewrite length_take. lia.
Qed.

Lemma slug_fixed s :
  Forall (λ c, is_slug_char c = true) s → no_runs is_hyphen false s = true →
  (length s ≤ 50)%nat → slug P s = s.
Proof.
  intros Hs Hruns Hlen. unfold slug.
  rewrite toLowerCase_ascii
    by (eapply Forall_impl; [exact Hs|]; intros c Hc; by apply slug_char_facts).
  rewrite lower_fixed
    by (eapply Forall_impl; [exact Hs|]; intros c Hc; by apply slug_char_facts).
  rewrite filter_all
    by (eapply Forall_impl; [exact Hs|]; intros c Hc; by apply slug_char_facts).
  unfold squeeze. rewrite (squeeze_from_no_match is_space)
    by (eapply Forall_impl; [exact Hs|]; intros c Hc; by apply slug_char_facts).
  rewrite squeeze_from_fixed;
    [|intros c Hc; by apply N.eqb_eq in Hc|done].
  rewrite trim_no_space
    by (eapply Forall_impl; [exact Hs|]; intros c Hc; by apply slug_char_facts).
  by apply take_ge.
Qed.

(** C9: the slug-normalization function is idempotent: applied to its own
    output it returns that output unchanged.  This holds for
    [cleanClubName] of the servers and for the [slug] computed by
    [processImage]. *)
Theorem slug_idempotent (s : jsstring) :
  cleanClubName P (cleanClubName P s) = cleanClubName P s
  ∧ slug P (slug P s) = slug P s.
Proof.
  split.
  - destruct (cleanClubName_clean s). by apply cleanClubName_fixed.
  - destruct (slug_shape s) as (? & ? & ?). by apply slug_fixed.
Qed.
End SlugIdempotence.

Lemma slug_idempotent_witness :
  (∀ s, Forall (λ c, is_ascii c = true) s →
        toLowerCase demo_platform s = ascii_lower <$> s)
  ∧ cleanClubName demo_platform (cleanClubName demo_platform (js "  Hello -- World!! "))
    = cleanClubName demo_platform (js "  Hello -- World!! ")
  ∧ slug demo_platform (slug demo_platform (js "  Hello -- World!! "))
    = slug demo_platform (js "  Hello -- World!! ").
Proof.
  split; [intros s _; reflexivity|].
  apply (slug_idempotent demo_platform). intros s _. reflexivity.
Defined.

(** ** Storage keys *)

Section StorageKeys.
Context {World : Type} (P : platform World).
Hypothesis toLowerCase_ascii :
  ∀ s, Forall (λ c, is_ascii c = true) s → toLowerCase P s = ascii_lower <$> s.

Lemma cleanClubName_default : cleanClubName P (js "Unknown Club") = js "unknown-club".
Proof.
  unfold cleanClubName.
  match goal with
  | |- take 50 (toLowerCase P ?x) = _ =>
      replace x with (js "Unknown-Club") by (vm_compute; reflexivity)
  end.
  rewrite toLowerCase_ascii; [vm_compute; reflexivity|].
  apply Forall_forall. intros c Hc.
  vm_compute in Hc.
  repeat (apply elem_of_cons in Hc as [->|Hc]; [reflexivity|]).
  by apply elem_of_nil in Hc.
Qed.

Lemma extract_row_unnamed values c :
  column values 10 = [] → extract_row P values = Some c →
  name c = js "unknown-club".
Proof.
  intros Hname. unfold extract_row. rewrite Hname.
  repeat case_match; try done;
    intros [= <-]; simpl; apply cleanClubName_default.
Qed.

Lemma squeeze_from_all_match (p : jschar → bool) r (s : jsstring) :
  Forall (λ c, p c = true) s →
  squeeze_from p r true s = [] ∧ (s ≠ [] → squeeze_from p r false s = [r]).
Proof.
  induction 1 as [|c s Hc _ [IH _]]; simpl; [done|].
  rewrite Hc. split; [done|]. intros _. by rewrite IH.
Qed.

(** A name of whitespace alone is not replaced by the default: it is
    truthy, and its one run of whitespace becomes one hyphen. *)
Lemma cleanClubName_whitespace (s : jsstring) :
  s ≠ [] → Forall (λ c, is_space c = true) s → cleanClubName P s = js "-".
Proof.
  intros Hne Hs. unfold cleanClubName.
  rewrite filter_all
    by (eapply Forall_impl; [exact Hs|]; intros c Hc; simpl;
        rewrite Hc; by rewrite orb_true_r).
  unfold squeeze.
  rewrite (proj2 (squeeze_from_all_match is_space HYPHEN s Hs) Hne).
  rewrite toLowerCase_ascii by (by repeat constructor).
  reflexivity.
Qed.

Lemma extract_row_whitespace values c :
  column values 10 ≠ [] → Forall (λ ch, is_space ch = true) (column values 10) →
  extract_row P values = Some c →
  name c = js "-".
Proof.
  intros Hne Hs. unfold extract_row.
  destruct (length values <? 30)%nat; [done|].
  destruct (_ || _ || _); [|done].
  intros [= <-]. cbn [name].
  destruct (column values 10) as [|ch rest] eqn:Hname; [done|]. cbn [truthy].
  by apply cleanClubName_whitespace.
Qed.

(** C10, as amended: the slug function is not injective, and the storage
    key requested for an asset is a function of the cleaned name and the
    role alone.  Two rows whose club-name column is empty both get the
    default cleaned name unknown-club; two rows whose club-name column is
    whitespace alone both get the cleaned name that is a single hyphen (the
    default replaces the empty string only).  In both cases the two rows
    request the same public_id for one role; in a store that keeps one
    asset per key the second upload replaces the first, as the run on
    [two_unnamed_rows] shows. *)
Theorem unnamed_clubs_share_storage_keys :
  (∃ s1 s2 : jsstring, s1 ≠ s2 ∧ cleanClubName P s1 = cleanClubName P s2)
  ∧ (∀ values1 values2 c1 c2,
       column values1 10 = [] → column values2 10 = [] →
       extract_row P values1 = Some c1 → extract_row P values2 = Some c2 →
       name c1 = js "unknown-club" ∧ name c2 = js "unknown-club"
       ∧ ∀ imageType,
           opt_public_id (upload_options_for (name c1) imageType)
           = opt_public_id (upload_options_for (name c2) imageType))
  ∧ (∀ values1 values2 c1 c2,
       column values1 10 ≠ [] → column values2 10 ≠ [] →
       Forall (λ ch, is_space ch = true) (column values1 10) →
       Forall (λ ch, is_space ch = true) (column values2 10) →
       extract_row P values1 = Some c1 → extract_row P values2 = Some c2 →
       name c1 = js "-" ∧ name c2 = js "-"
       ∧ ∀ imageType,
           opt_public_id (upload_options_for (name c1) imageType)
           = opt_public_id (upload_options_for (name c2) imageType))
  ∧ (∀ key asset1 asset2 store,
       publish key asset2 (publish key asset1 store) = publish key asset2 store)
  ∧ (∃ clubs results store,
       parseCSV store_platform two_unnamed_rows = Some clubs
       ∧ length clubs = 2%nat
       ∧ process_clubs store_platform demo_env clubs (Net ∅ [])
         = (Ok results, Net store [])
       ∧ store = {[ js "joinphilly/unknown-club-hero"
                    := js "https://img.test/second.png" ]}).
Proof.
  split; [|split; [|split; [|split]]].
  - exists (js "a!"), (js "a"). split; [done|]. reflexivity.
  - intros values1 values2 c1 c2 H1 H2 Hc1 Hc2.
    rewrite (extract_row_unnamed _ _ H1 Hc1), (extract_row_unnamed _ _ H2 Hc2).
    done.
  - intros values1 values2 c1 c2 H1 H2 Hs1 Hs2 Hc1 Hc2.
    rewrite (extract_row_whitespace _ _ H1 Hs1 Hc1),
      (extract_row_whitespace _ _ H2 Hs2 Hc2).
    done.
  - intros key asset1 asset2 store. unfold publish. apply insert_insert_eq.
  - eexists _, _, _. split; [vm_compute; reflexivity|].
    split; [reflexivity|]. split; [|reflexivity].
    vm_compute. reflexivity.
Qed.
End StorageKeys.

(** C10 as stated fails on a blank name that is not empty: the row
    [spaced_values], whose club name is two spaces, yields a club whose
    cleaned name is a single hyphen and not unknown-club, so the key
    requested for its hero is joinphilly/--hero. *)
Lemma blank_name_is_not_defaulted :
  Forall (λ ch, is_space ch = true) (column spaced_values 10)
  ∧ extract_row demo_platform spaced_values = Some spaced_club
  ∧ name spaced_club = js "-"
  ∧ name spaced_club ≠ js "unknown-club"
  ∧ opt_public_id (upload_options_for (name spaced_club) (js "hero"))
    = js "joinphilly/--hero".
Proof.
  split; [by repeat constructor|].
  split; [vm_compute; reflexivity|].
  split; [reflexivity|]. split; [by vm_compute|]. reflexivity.
Qed.

Lemma unnamed_clubs_share_storage_keys_witness :
  (∀ s, Forall (λ c, is_ascii c = true) s →
        toLowerCase demo_platform s = ascii_lower <$> s)
  ∧ (column unnamed_values 10 = []
     ∧ extract_row demo_platform unnamed_values = Some unnamed_club
     ∧ name unnamed_club = js "unknown-club" ∧ name unnamed_club = js "unknown-club"
     ∧ ∀ imageType,
         opt_public_id (upload_options_for (name unnamed_club) imageType)
         = opt_public_id (upload_options_for (name unnamed_club) imageType))
  ∧ (column spaced_values 10 ≠ []
     ∧ Forall (λ ch, is_space ch = true) (column spaced_values 10)
     ∧ extract_row demo_platform spaced_values = Some spaced_club
     ∧ name spaced_club = js "-" ∧ name spaced_club = js "-"
     ∧ ∀ imageType,
         opt_public_id (upload_options_for (name spaced_club) imageType)
         = opt_public_id (upload_options_for (name spaced_club) imageType)).
Proof.
  split; [intros s _; reflexivity|].
  split.
  - split; [reflexivity|]. split; [reflexivity|].
    exact (proj1 (proj2 (unnamed_clubs_share_storage_keys demo_platform
                           (λ s _, eq_refl)))
             unnamed_values unnamed_values unnamed_club unnamed_club
             eq_refl eq_refl eq_refl eq_refl).
  - assert (Hne : column spaced_values 10 ≠ []) by done.
    assert (Hs : Forall (λ ch, is_space ch = true) (column spaced_values 10))
      by (by repeat constructor).
    split; [exact Hne|]. split; [exact Hs|]. split; [reflexivity|].
    exact (proj1 (proj2 (proj2 (unnamed_clubs_share_storage_keys demo_platform
                                  (λ s _, eq_refl))))
             spaced_values spaced_values spaced_club spaced_club
             Hne Hne Hs Hs eq_refl eq_refl).
Defined.

(** ** RecordExtractor *)

Section ExtractorFacts.
Context {World : Type} (P : platform World).

Lemma valid_or_null_Some image url :
  valid_or_null P image = Some url → url = image ∧ isValidUrl P url = true.
Proof.
  unfold valid_or_null.
  destruct (truthy image && isValidUrl P image) eqn:H; [|done].
  intros [= <-]. by apply andb_true_iff in H as [_ ?].
Qed.

Lemma gallery_urls_valid galleryImages :
  Forall (λ url, isValidUrl P url = true) (gallery_urls P galleryImages).
Proof.
  unfold gallery_urls. apply Forall_forall. intros url Hurl.
  apply list_elem_of_filter in Hurl as [Hurl _].
  by apply andb_true_iff in Hurl as [_ ?].
Qed.

(** What the extractor does guarantee: every reference it keeps is one the
    URL constructor accepts, and a row is kept when its hero or logo is
    such a reference or its gallery column is not blank. *)
Lemma extract_row_references values c :
  extract_row P values = Some c →
  (∀ url, heroImage c = Some url → isValidUrl P url = true)
  ∧ (∀ url, logoImage c = Some url → isValidUrl P url = true)
  ∧ Forall (λ url, isValidUrl P url = true) (galleryImages c)
  ∧ (is_Some (heroImage c) ∨ is_Some (logoImage c)
     ∨ nonblank (column values 29) = true).
Proof.
  unfold extract_row.
  destruct (length values <? 30)%nat; [done|].
  destruct (_ || _ || _) eqn:Hguard; [|done].
  intros [= <-]. simpl.
  split; [intros url Hu; by apply valid_or_null_Some in Hu as [_ ?]|].
  split; [intros url Hu; by apply valid_or_null_Some in Hu as [_ ?]|].
  split; [case_match; [apply gallery_urls_valid|constructor]|].
  unfold valid_or_null, nonblank.
  apply orb_true_iff in Hguard as [Hguard|Hguard];
    [apply orb_true_iff in Hguard as [Hguard|Hguard]|];
    rewrite Hguard; eauto.
Qed.

(** A row whose hero and logo columns are empty and whose gallery column is
    text without any acceptable URL is kept all the same, with no image
    reference at all. *)
Lemma extract_row_no_reference values :
  (30 ≤ length values)%nat →
  column values 27 = [] → column values 28 = [] →
  nonblank (column values 29) = true →
  gallery_urls P (column values 29) = [] →
  ∃ c, extract_row P values = Some c
       ∧ heroImage c = None ∧ logoImage c = None ∧ galleryImages c = [].
Proof.
  intros Hlen Hhero Hlogo Hgallery Hnone.
  unfold extract_row.
  destruct (length values <? 30)%nat eqn:Hlt; [apply Nat.ltb_lt in Hlt; lia|].
  rewrite Hhero, Hlogo. unfold nonblank in Hgallery. rewrite Hgallery. simpl.
  eexists. split; [done|]. simpl. by rewrite Hnone.
Qed.
End ExtractorFacts.

(** C1, at a failing input: the row of [junk_gallery_csv] has an empty hero
    column, an empty logo column and the gallery text n/a, which is not a
    URL.  The guard of [parseCSV] tests the gallery column for being
    non-blank only, so the club is materialized although it has no hero, no
    logo and an empty gallery list. *)
Theorem parseCSV_club_without_images :
  ∃ c, parseCSV demo_platform junk_gallery_csv = Some [c]
       ∧ originalName c = js "Chess Club"
       ∧ heroImage c = None ∧ logoImage c = None ∧ galleryImages c = [].
Proof. eexists. split; [vm_compute; reflexivity|]. done. Qed.

(** ** The monad *)

Section MonadFacts.
Context {World : Type}.
Implicit Types (n : net World).

Lemma bind_Ok {A B} (m : M World A) (k : A → M World B) n a n' :
  m n = (Ok a, n') → (m ≫= k) n = k a n'.
Proof. intros H. unfold mbind, M_bind. by rewrite H. Qed.

Lemma bind_Throw {A B} (m : M World A) (k : A → M World B) n e n' :
  m n = (Throw e, n') → (m ≫= k) n = (Throw e, n').
Proof. intros H. unfold mbind, M_bind. by rewrite H. Qed.

Lemma mret_run {A} (a : A) n : (mret a : M World A) n = (Ok a, n).
Proof. done. Qed.

Lemma try_catch_Ok {A} (m : M World A) handler n a n' :
  m n = (Ok a, n') → try_catch m handler n = (Ok a, n').
Proof. intros H. unfold try_catch. by rewrite H. Qed.

Lemma try_catch_Throw {A} (m : M World A) handler n e n' :
  m n = (Throw e, n') → try_catch m handler n = handler e n'.
Proof. intros H. unfold try_catch. by rewrite H. Qed.

(** A loop whose body never throws returns one value per element, each
    related to its element by what the body establishes. *)
Lemma for_each_total {A B} (body : A → M World B) (R : A → B → Prop) xs :
  (∀ x n, ∃ b n', body x n = (Ok b, n') ∧ R x b) →
  ∀ n, ∃ bs n', for_each body xs n = (Ok bs, n') ∧ Forall2 R xs bs.
Proof.
  intros Hbody. induction xs as [|x xs IH]; intros n; simpl.
  - eexists _, _. split; [done|constructor].
  - destruct (Hbody x n) as (b & n1 & Hb & HR).
    destruct (IH n1) as (bs & n2 & Hbs & HRs).
    eexists _, _. split; [|by constructor].
    rewrite (bind_Ok _ _ _ _ _ Hb). by rewrite (bind_Ok _ _ _ _ _ Hbs).
Qed.
End MonadFacts.

(** ** PipelineOrchestrator *)

Section OrchestratorFacts.
Context {World : Type} (P : platform World) (env : environment).
Implicit Types (n : net World) (cr : club_result).

Local Abbreviation transform :=
  (processImageToCloudinary P env cloudinary_not_configured_csv).

(** A slot attempt never throws: the asset is pushed on success, one
    message is pushed on failure, and nothing else of the result changes. *)
Lemma attempt_slot_run label imageUrl clubName imageType targetWidth cr n :
  (∃ p n', transform imageUrl clubName imageType targetWidth n = (Ok p, n')
           ∧ attempt_slot P env label imageUrl clubName imageType targetWidth cr n
             = (Ok (push_processed cr p), n'))
  ∨ (∃ e n', transform imageUrl clubName imageType targetWidth n = (Throw e, n')
             ∧ attempt_slot P env label imageUrl clubName imageType targetWidth cr n
               = (Ok (push_error cr (label ++ js ": " ++ message e)), n')).
Proof.
  unfold attempt_slot.
  destruct (transform imageUrl clubName imageType targetWidth n) as [[p|e] n'] eqn:Ht.
  - left. eexists _, _. split; [done|].
    apply try_catch_Ok. by rewrite (bind_Ok _ _ _ _ _ Ht).
  - right. eexists _, _. split; [done|].
    erewrite try_catch_Throw; [done|]. by rewrite (bind_Throw _ _ _ _ _ Ht).
Qed.

Lemma grown_refl cr : grown 0 cr cr.
Proof. unfold grown. repeat split; done || lia. Qed.

Lemma grown_trans j k cr1 cr2 cr3 :
  grown j cr1 cr2 → grown k cr2 cr3 → grown (j + k) cr1 cr3.
Proof.
  unfold grown. intros (-> & -> & -> & -> & Hp1 & He1 & H1)
                       (-> & -> & -> & -> & Hp2 & He2 & H2).
  repeat split; try done; [by etrans|by etrans|lia].
Qed.

Lemma attempt_slot_grown label imageUrl clubName imageType targetWidth cr n :
  ∃ cr' n', attempt_slot P env label imageUrl clubName imageType targetWidth cr n
            = (Ok cr', n') ∧ grown 1 cr cr'.
Proof.
  destruct (attempt_slot_run label imageUrl clubName imageType targetWidth cr n)
    as [(p & n' & _ & ->)|(e & n' & _ & ->)]; eexists _, _; (split; [done|]);
    unfold grown; simpl; rewrite ?length_app; simpl;
    repeat split; try done; try (by apply prefix_app_r); lia.
Qed.

Lemma gallery_loop_grown clubName remaining : ∀ i cr n,
  ∃ cr' n', gallery_loop P env clubName i remaining cr n = (Ok cr', n')
            ∧ grown (length (filter (λ url, truthy url = true)
                               (take (4 - i) remaining))) cr cr'.
Proof.
  induction remaining as [|galleryUrl rest IH]; intros i cr n; simpl.
  - eexists _, _. split; [done|]. rewrite take_nil. apply grown_refl.
  - destruct (i <? 4)%nat eqn:Hi.
    + apply Nat.ltb_lt in Hi.
      replace (4 - i)%nat with (S (4 - (i + 1))) by lia. simpl.
      destruct (truthy galleryUrl) eqn:Hurl.
      * destruct (attempt_slot_grown
                    (js "Gallery image " ++ show (N.of_nat (i + 1))) galleryUrl clubName
                    (js "gallery-" ++ show (N.of_nat (i + 1))) 1200 cr n)
          as (cr1 & n1 & Hrun & Hg1).
        destruct (IH (i + 1)%nat cr1 n1) as (cr2 & n2 & Hrest & Hg2).
        eexists _, _. split; [by rewrite (bind_Ok _ _ _ _ _ Hrun)|].
        rewrite filter_cons_True by done. simpl.
        exact (grown_trans 1 _ _ _ _ Hg1 Hg2).
      * destruct (IH (i + 1)%nat cr n) as (cr2 & n2 & Hrest & Hg2).
        eexists _, _. split; [by rewrite (bind_Ok _ _ _ _ _ (mret_run cr n))|].
        rewrite filter_cons_False by (by rewrite Hurl). done.
    + apply Nat.ltb_ge in Hi. replace (4 - i)%nat with 0%nat by lia.
      eexists _, _. split; [done|]. apply grown_refl.
Qed.

Lemma process_club_run c n :
  ∃ cr n', process_club P env c n = (Ok cr, n')
           ∧ result_of c cr
           ∧ (length (processed cr) + length (errors cr) = slot_count c)%nat.
Proof.
  unfold process_club.
  set (cr0 := {| r_name := originalName c; cleanName := name c;
                 r_submissionId := submissionId c; r_email := email c;
                 processed := []; errors := []; cloudinaryUrls := [];
                 airtableUpdate := None |}).
  assert (Hhero : ∃ cr1 n1,
             match heroImage c with
             | Some url => if truthy url
                           then attempt_slot P env (js "Hero image") url (name c)
                                  (js "hero") 1600 cr0
                           else mret cr0
             | None => mret cr0
             end n = (Ok cr1, n1) ∧ grown (present (heroImage c)) cr0 cr1).
  { destruct (heroImage c) as [url|]; simpl;
      [destruct (truthy url)|]; try apply attempt_slot_grown;
      eexists _, _; (split; [done|apply grown_refl]). }
  destruct Hhero as (cr1 & n1 & Hrun1 & Hg1).
  assert (Hlogo : ∃ cr2 n2,
             match logoImage c with
             | Some url => if truthy url
                           then attempt_slot P env (js "Logo image") url (name c)
                                  (js "logo") 400 cr1
                           else mret cr1
             | None => mret cr1
             end n1 = (Ok cr2, n2) ∧ grown (present (logoImage c)) cr1 cr2).
  { destruct (logoImage c) as [url|]; simpl;
      [destruct (truthy url)|]; try apply attempt_slot_grown;
      eexists _, _; (split; [done|apply grown_refl]). }
  destruct Hlogo as (cr2 & n2 & Hrun2 & Hg2).
  destruct (gallery_loop_grown (name c) (galleryImages c) 0 cr2 n2)
    as (cr3 & n3 & Hrun3 & Hg3).
  eexists _, _. split.
  { rewrite (bind_Ok _ _ _ _ _ Hrun1). rewrite (bind_Ok _ _ _ _ _ Hrun2).
    exact Hrun3. }
  pose proof (grown_trans _ _ _ _ _ (grown_trans _ _ _ _ _ Hg1 Hg2) Hg3) as Hg.
  destruct Hg as (? & ? & ? & ? & _ & _ & Hlen).
  split; [by repeat split|]. simpl in Hlen. unfold slot_count.
  rewrite Hlen. simpl. lia.
Qed.

(** C2: the club loop never throws and returns exactly one result per club,
    in input order, each carrying the identity of its club and one entry,
    an asset or an error message, for every slot attempted.  A slot attempt
    that fails pushes its message on [errors] and leaves [processed], and so
    the successes of the sibling slots, as it was.  For a club with a hero
    and a logo and no gallery entry, a failing hero transform followed by a
    succeeding logo transform yields [processed] equal to the logo asset
    alone and [errors] equal to the hero message alone. *)
Theorem slot_failures_are_isolated :
  (∀ clubs n, ∃ results n',
      process_clubs P env clubs n = (Ok results, n')
      ∧ Forall2 (λ c r, result_of c r
                        ∧ (length (processed r) + length (errors r)
                           = slot_count c)%nat) clubs results)
  ∧ (∀ label imageUrl clubName imageType targetWidth cr n e n',
       transform imageUrl clubName imageType targetWidth n = (Throw e, n') →
       attempt_slot P env label imageUrl clubName imageType targetWidth cr n
       = (Ok (push_error cr (label ++ js ": " ++ message e)), n')
       ∧ processed (push_error cr (label ++ js ": " ++ message e)) = processed cr)
  ∧ (∀ c hero logo n e n1 p n2,
       heroImage c = Some hero → logoImage c = Some logo → galleryImages c = [] →
       truthy hero = true → truthy logo = true →
       transform hero (name c) (js "hero") 1600 n = (Throw e, n1) →
       transform logo (name c) (js "logo") 400 n1 = (Ok p, n2) →
       ∃ r, process_club P env c n = (Ok r, n2)
            ∧ processed r = [p]
            ∧ errors r = [js "Hero image: " ++ message e]).
Proof.
  split; [|split].
  - intros clubs n. unfold process_clubs.
    apply for_each_total. intros c n0.
    destruct (process_club_run c n0) as (cr & n' & ? & ? & ?). eauto.
  - intros label imageUrl clubName imageType targetWidth cr n e n' Ht.
    split; [|done].
    destruct (attempt_slot_run label imageUrl clubName imageType targetWidth cr n)
      as [(p & n1 & Ht' & _)|(e' & n1 & Ht' & Hrun)]; [congruence|].
    rewrite Ht in Ht'. by injection Ht' as <- <-.
  - intros c hero logo n e n1 p n2 Hh Hl Hg Hth Htl Hfail Hsucc.
    unfold process_club. rewrite Hh, Hl, Hg, Hth, Htl.
    eexists. split.
    + erewrite bind_Ok.
      2:{ unfold attempt_slot. erewrite try_catch_Throw; [done|].
          by rewrite (bind_Throw _ _ _ _ _ Hfail). }
      erewrite bind_Ok.
      2:{ unfold attempt_slot. apply try_catch_Ok.
          by rewrite (bind_Ok _ _ _ _ _ Hsucc). }
      done.
    + done.
Qed.
End OrchestratorFacts.

Lemma slot_failures_are_isolated_witness :
  ∃ r, process_club demo_platform demo_env demo_club net0 = (Ok r, net0)
       ∧ processed r = [demo_logo_asset]
       ∧ errors r = [js "Hero image: Failed to download image: 404"].
Proof.
  exact (proj2 (proj2 (slot_failures_are_isolated demo_platform demo_env))
           demo_club (js "https://broken.test/h.png") (js "https://img.test/l.png")
           net0 (new_Error (js "Failed to download image: 404")) net0
           demo_logo_asset net0
           eq_refl eq_refl eq_refl eq_refl eq_refl
           ltac:(vm_compute; reflexivity) ltac:(vm_compute; reflexivity)).
Defined.

(** ** RecordReconciler: the search chain *)

Section ReconcilerFacts.
Context {World : Type} (P : platform World) (env : environment).
Implicit Types (n : net World) (r : club_result) (v : variant).

Lemma search_run formula n :
  search P formula n
  = ((airtable_search P formula (world n)).1,
     Net (airtable_search P formula (world n)).2
         (airtable_log n ++ [SearchX formula (airtable_search P formula (world n)).1])).
Proof. unfold search. by destruct (airtable_search P formula (world n)). Qed.

(** The spec-worded chain leaves a trace of the shape [chain_run]. *)
Lemma fallback_chain_trace plan : ∀ last n,
  ∃ xs, airtable_log (fallback_chain P plan last n).2 = airtable_log n ++ xs
        ∧ chain_run plan last xs (fallback_chain P plan last n).1.
Proof.
  induction plan as [|formula rest IH]; intros last n; simpl.
  - exists []. split; [by rewrite app_nil_r|constructor].
  - unfold mbind, M_bind. rewrite search_run.
    destruct (airtable_search P formula (world n)) as [[resp|e] w]; simpl.
    + destruct (is_hit resp) eqn:Hhit; simpl.
      * eexists [_]. split; [done|by constructor].
      * destruct (IH (Some resp)
                    (Net w (airtable_log n ++ [SearchX formula (Ok resp)])))
          as (xs & Hlog & Hrun).
        exists (SearchX formula (Ok resp) :: xs). split.
        -- rewrite Hlog. simpl. by rewrite <- app_assoc.
        -- by constructor.
    + eexists [_]. split; [done|constructor].
Qed.

Lemma name_loop_refines names : ∀ vars n,
  vars_ok vars → no_records vars.2 = true →
  match name_loop P names vars n with
  | (Ok vars', n') =>
      vars_ok vars'
      ∧ fallback_chain P (nameFilter <$> names) vars.1 n = (Ok vars'.1, n')
  | (Throw e, n') =>
      fallback_chain P (nameFilter <$> names) vars.1 n = (Throw e, n')
  end.
Proof.
  induction names as [|nameToTry rest IH]; intros vars n Hok Hnone; simpl.
  - done.
  - unfold mbind, M_bind. rewrite search_run.
    destruct (airtable_search P (nameFilter nameToTry) (world n)) as [[resp|e] w];
      simpl; [|done].
    unfold is_hit.
    destruct (s_ok resp) eqn:Hresp; simpl.
    + destruct (0 <? length (s_records resp))%nat eqn:Hlen; simpl.
      * split; [|done]. unfold vars_ok. simpl. by rewrite Hresp.
      * apply (IH (Some resp, Some (s_records resp))).
        -- unfold vars_ok. simpl. by rewrite Hresp.
        -- simpl. apply Nat.ltb_ge in Hlen. apply Nat.eqb_eq. lia.
    + apply (IH (Some resp, vars.2)).
      * unfold vars_ok. simpl. by rewrite Hresp.
      * done.
Qed.

Lemma search_phase_refines r n :
  match (search_by_submission_id P r ≫= search_by_name P r) n with
  | (Ok vars, n') =>
      vars_ok vars ∧ fallback_chain P (search_plan r) None n = (Ok vars.1, n')
  | (Throw e, n') => fallback_chain P (search_plan r) None n = (Throw e, n')
  end.
Proof.
  unfold search_plan, search_by_submission_id.
  assert (Hnames : ∀ vars n0, vars_ok vars → no_records vars.2 = true →
            match search_by_name P r vars n0 with
            | (Ok vars', n') =>
                vars_ok vars'
                ∧ fallback_chain P (name_plan r) vars.1 n0 = (Ok vars'.1, n')
            | (Throw e, n') => fallback_chain P (name_plan r) vars.1 n0 = (Throw e, n')
            end).
  { intros vars n0 Hok Hnone. unfold search_by_name, name_plan. rewrite Hnone.
    destruct (nonblank (r_name r)); [by apply name_loop_refines|by cbn]. }
  destruct (nonblank (r_submissionId r)); simpl.
  - unfold mbind, M_bind. rewrite !search_run.
    destruct (airtable_search P _ (world n)) as [[resp|e] w]; simpl; [|done].
    unfold is_hit.
    destruct (s_ok resp) eqn:Hresp; simpl.
    + destruct (0 <? length (s_records resp))%nat eqn:Hlen; simpl.
      * unfold search_by_name. simpl.
        replace (length (s_records resp) =? 0)%nat with false
          by (symmetry; apply Nat.eqb_neq; apply Nat.ltb_lt in Hlen; lia).
        simpl. split; [|done]. unfold vars_ok. simpl. by rewrite Hresp.
      * apply (Hnames (Some resp, Some (s_records resp))).
        -- unfold vars_ok. simpl. by rewrite Hresp.
        -- simpl. apply Nat.ltb_ge in Hlen. apply Nat.eqb_eq. lia.
    + apply (Hnames (Some resp, None)); [|done].
      unfold vars_ok. simpl. by rewrite Hresp.
  - unfold mbind, M_bind at 1. simpl. by apply (Hnames (None, None)).
Qed.

(** The search phase of [updateAirtableRecord] is the ordered fallback
    chain over [search_plan], followed by [conclude_search]. *)
Lemma find_record_refines v r n :
  find_record P v r n
  = (fallback_chain P (search_plan r) None ≫= conclude_search v r) n.
Proof.
  pose proof (search_phase_refines r n) as Hphase.
  unfold find_record. unfold mbind, M_bind in *.
  destruct (search_by_submission_id P r n) as [[vars0|e] n0].
  - destruct (search_by_name P r vars0 n0) as [[vars|e] n'].
    + destruct Hphase as [Hok ->]. unfold conclude_search.
      destruct vars as [[resp|] data]; unfold vars_ok in Hok; simpl in *; [|done].
      destruct (s_ok resp); simpl; [|done]. by rewrite Hok.
    + by rewrite Hphase.
  - by rewrite Hphase.
Qed.

Lemma try_catch_rethrow {A} (m : M World A) n :
  try_catch m (λ error, throw error) n = m n.
Proof. unfold try_catch, throw. by destruct (m n) as [[a|e] n']. Qed.

(** [updateAirtableRecord], step by step: the chain, the conclusion drawn
    from the last response, and on a match one PATCH request carrying
    [build_update_fields]. *)
Lemma updateAirtableRecord_run v r n :
  updateAirtableRecord P v r n
  = let chain := fallback_chain P (search_plan r) None n in
    match chain.1 with
    | Throw e => (Throw e, chain.2)
    | Ok None => (Throw undefined_ok_error, chain.2)
    | Ok (Some resp) =>
        if negb (s_ok resp)
        then (Throw (new_Error (search_failed_message v resp)), chain.2)
        else if (length (s_records resp) =? 0)%nat
        then (Throw (new_Error (no_match_message v r)), chain.2)
        else
          let recordId := default [] (head (s_records resp)) in
          let updateFields :=
            build_update_fields v (now_iso P (world chain.2)) (processed r) in
          let answer := airtable_patch P recordId updateFields (world chain.2) in
          (patch_result updateFields recordId answer.1,
           Net answer.2
               (airtable_log chain.2 ++ [PatchX recordId updateFields answer.1]))
    end.
Proof.
  unfold updateAirtableRecord. rewrite try_catch_rethrow.
  unfold mbind at 1. unfold M_bind at 1. rewrite find_record_refines.
  unfold mbind at 1. unfold M_bind at 1.
  destruct (fallback_chain P (search_plan r) None n) as [[last|e] n1]; simpl; [|done].
  unfold conclude_search.
  destruct last as [resp|]; [|done].
  destruct (s_ok resp); simpl; [|done].
  destruct (length (s_records resp) =? 0)%nat; [done|].
  cbn. unfold mbind, M_bind, clock, patch. simpl.
  destruct (airtable_patch P _ _ (world n1)) as [[presp|e] w]; simpl; [|done].
  by destruct (p_ok presp).
Qed.
End ReconcilerFacts.

(** ** Shape of a fallback chain *)

Lemma chain_run_prefix plan last xs res :
  chain_run plan last xs res → formulas_of xs `prefix_of` plan.
Proof.
  induction 1 as [last|formula rest last e|formula rest last resp _
                  |formula rest last resp xs res _ _ IH]; simpl.
  - done.
  - apply prefix_cons, prefix_nil.
  - apply prefix_cons, prefix_nil.
  - by apply prefix_cons.
Qed.

Lemma chain_run_stops plan last xs res :
  chain_run plan last xs res →
  ∀ i formula resp,
    xs !! i = Some (SearchX formula (Ok resp)) → is_hit resp = true →
    length xs = S i.
Proof.
  induction 1 as [last|formula rest last e|formula rest last resp Hhit
                  |formula rest last resp xs res Hmiss _ IH];
    intros i f resp' Hi Hhit'.
  - done.
  - by destruct i.
  - destruct i as [|i]; [done|]. by destruct i.
  - destruct i as [|i]; simpl in *.
    + injection Hi as <- <-. congruence.
    + f_equal. by eapply IH.
Qed.

(** Every exchange of a chain is a search. *)
Lemma chain_run_all_searches plan last xs res :
  chain_run plan last xs res →
  Forall (λ x, match x with SearchX _ _ => True | PatchX _ _ _ => False end) xs.
Proof.
  induction 1 as [last|formula rest last e|formula rest last resp _
                  |formula rest last resp xs res _ _ IH]; repeat constructor; done.
Qed.

(** The last response decides the result of a chain. *)
Lemma chain_run_last plan last xs res formula resp :
  chain_run plan last xs res →
  list.last xs = Some (SearchX formula (Ok resp)) → res = Ok (Some resp).
Proof.
  induction 1 as [last|f rest last e|f rest last resp' _
                  |f rest last resp' xs res _ Hrun IH]; simpl.
  - done.
  - done.
  - by intros [= _ ->].
  - destruct xs as [|x xs]; [|exact IH].
    inversion Hrun; subst. by intros [= _ ->].
Qed.

(** A chain that ends without a hit tried the whole plan. *)
Lemma chain_run_exhausted plan last xs res resp :
  chain_run plan last xs res → res = Ok (Some resp) → is_hit resp = false →
  formulas_of xs = plan.
Proof.
  induction 1 as [last|f rest last e|f rest last resp' Hhit
                  |f rest last resp' xs res _ Hrun IH]; intros Hres Hmiss; simpl.
  - done.
  - done.
  - injection Hres as ->. congruence.
  - by rewrite IH.
Qed.

Lemma nameFilter_not_submissionIdFilter nameToTry sid :
  nameFilter nameToTry ≠ submissionIdFilter sid.
Proof. unfold nameFilter, submissionIdFilter. simpl. intros [=]. Qed.

Lemma name_plan_prefix r :
  name_plan r `prefix_of` [nameFilter (r_name r); nameFilter (cleanName r)].
Proof.
  unfold name_plan. destruct (nonblank (r_name r)) eqn:Hname; [|apply prefix_nil].
  rewrite filter_cons_True by done. rewrite fmap_cons. apply prefix_cons.
  destruct (nonblank (cleanName r)) eqn:Hclean.
  - by rewrite filter_cons_True.
  - rewrite filter_cons_False by (by rewrite Hclean). apply prefix_nil.
Qed.

(** ** RecordReconciler: order of the searches *)

Section SearchOrder.
Context {World : Type} (P : platform World).
Implicit Types (n : net World) (r : club_result) (v : variant).

Lemma updateAirtableRecord_trace v r n :
  ∃ xs ys,
    airtable_log (updateAirtableRecord P v r n).2 = airtable_log n ++ xs ++ ys
    ∧ chain_run (search_plan r) None xs (fallback_chain P (search_plan r) None n).1
    ∧ (ys = []
       ∨ ∃ recordId w o,
           ys = [PatchX recordId (build_update_fields v (now_iso P w) (processed r)) o]).
Proof.
  rewrite updateAirtableRecord_run.
  destruct (fallback_chain_trace P (search_plan r) None n) as (xs & Hlog & Hrun).
  exists xs. simpl.
  destruct (fallback_chain P (search_plan r) None n) as [[[resp|]|e] n1];
    simpl in *.
  - destruct (s_ok resp); simpl;
      [|exists []; rewrite app_nil_r; by auto].
    destruct (length (s_records resp) =? 0)%nat; simpl;
      [exists []; rewrite app_nil_r; by auto|].
    eexists [_]. rewrite Hlog, <- app_assoc. split; [done|]. split; [done|].
    right. by eexists _, _, _.
  - exists []. rewrite app_nil_r. by auto.
  - exists []. rewrite app_nil_r. by auto.
Qed.

(** C3: the searches issued by [updateAirtableRecord] form an ordered
    fallback chain over the planned formulas (the Submission ID search when
    the id is not blank, then the Name search with the original name, then
    the Name search with the cleaned name) that stops at the first search
    returning a record and goes through the whole plan when none does; at
    most one PATCH follows.  When the submission id
    is blank (empty or whitespace-only) no issued formula is a Submission
    ID formula, and the issued formulas are a prefix of the sequence
    original-name search, cleaned-name search: the slug search is only
    ever issued after the display-name search. *)
Theorem search_fallback_order v r n :
  ∃ xs ys,
    airtable_log (updateAirtableRecord P v r n).2 = airtable_log n ++ xs ++ ys
    ∧ (ys = [] ∨ ∃ recordId fields o, ys = [PatchX recordId fields o])
    ∧ chain_run (search_plan r) None xs (fallback_chain P (search_plan r) None n).1
    ∧ formulas_of xs `prefix_of` search_plan r
    ∧ (∀ i formula resp,
         xs !! i = Some (SearchX formula (Ok resp)) → is_hit resp = true →
         length xs = S i)
    ∧ (∀ resp,
         (fallback_chain P (search_plan r) None n).1 = Ok (Some resp) →
         is_hit resp = false → formulas_of xs = search_plan r)
    ∧ (nonblank (r_submissionId r) = false →
         formulas_of (xs ++ ys)
           `prefix_of` [nameFilter (r_name r); nameFilter (cleanName r)]
         ∧ ∀ formula sid,
             formula ∈ formulas_of (xs ++ ys) → formula ≠ submissionIdFilter sid).
Proof.
  destruct (updateAirtableRecord_trace v r n) as (xs & ys & Hlog & Hrun & Hys).
  exists xs, ys. split; [done|].
  split; [destruct Hys as [->|(? & ? & ? & ->)]; eauto|].
  split; [done|]. split; [by eapply chain_run_prefix|].
  split; [by eapply chain_run_stops|].
  split; [intros resp Hres Hmiss; by eapply chain_run_exhausted|].
  intros Hblank.
  assert (Hformulas : formulas_of (xs ++ ys) = formulas_of xs).
  { unfold formulas_of. rewrite omap_app.
    destruct Hys as [->|(? & ? & ? & ->)]; simpl; by rewrite app_nil_r. }
  rewrite Hformulas.
  assert (Hprefix : formulas_of xs
                      `prefix_of` [nameFilter (r_name r); nameFilter (cleanName r)]).
  { etrans; [by eapply chain_run_prefix|].
    unfold search_plan. rewrite Hblank. simpl. apply name_plan_prefix. }
  split; [done|].
  intros formula sid Hin ->.
  destruct Hprefix as [rest Hrest].
  assert (Hin' : submissionIdFilter sid
                 ∈ [nameFilter (r_name r); nameFilter (cleanName r)]).
  { rewrite Hrest. apply elem_of_app. by left. }
  apply elem_of_cons in Hin' as [Heq|Hin'].
  - by eapply nameFilter_not_submissionIdFilter.
  - apply list_elem_of_singleton in Hin'. by eapply nameFilter_not_submissionIdFilter.
Qed.
End SearchOrder.

Lemma search_fallback_order_witness :
  nonblank (r_submissionId blank_id_result) = false
  ∧ ∃ xs ys,
      airtable_log (updateAirtableRecord demo_platform CsvServer blank_id_result net0).2
      = xs ++ ys
      ∧ formulas_of (xs ++ ys)
          `prefix_of` [nameFilter (js "Chess Club"); nameFilter (js "chess-club")].
Proof.
  split; [reflexivity|].
  destruct (search_fallback_order demo_platform CsvServer blank_id_result net0)
    as (xs & ys & Hlog & _ & _ & _ & _ & _ & Hblank).
  exists xs, ys. split; [exact Hlog|]. exact (proj1 (Hblank eq_refl)).
Defined.

(** ** RecordReconciler: failed searches *)

Lemma chain_run_misses plan last xs res formula resp :
  chain_run plan last xs res →
  list.last xs = Some (SearchX formula (Ok resp)) → is_hit resp = false →
  Forall is_miss xs.
Proof.
  intros Hrun Hlast Hmiss. apply Forall_lookup. intros i x Hi.
  destruct x as [f [resp'|e]|]; simpl; [|done|].
  - destruct (is_hit resp') eqn:Hhit; [|done].
    pose proof (chain_run_stops _ _ _ _ Hrun i f resp' Hi Hhit) as Hlen.
    rewrite last_lookup, Hlen in Hlast. simpl in Hlast.
    rewrite Hi in Hlast. injection Hlast as _ ->. congruence.
  - pose proof (chain_run_all_searches _ _ _ _ Hrun) as Hall.
    rewrite Forall_lookup in Hall. exact (Hall i _ Hi).
Qed.

Section FailedSearches.
Context {World : Type} (P : platform World) (env : environment).
Implicit Types (n : net World) (r : club_result) (v : variant).

(** When the trace of a call ends with a search, that search decides the
    outcome: answered OK without records it is the no-match error,
    answered with an error status it is the search-failed error; no
    search of the call found a record. *)
Lemma updateAirtableRecord_last_search v r n xs formula resp :
  airtable_log (updateAirtableRecord P v r n).2 = airtable_log n ++ xs →
  list.last xs = Some (SearchX formula (Ok resp)) →
  Forall is_miss xs
  ∧ (s_ok resp = true → s_records resp = [] →
     (updateAirtableRecord P v r n).1 = Throw (new_Error (no_match_message v r)))
  ∧ (s_ok resp = false →
     (updateAirtableRecord P v r n).1
     = Throw (new_Error (search_failed_message v resp))).
Proof.
  intros Hlog Hlast.
  destruct (fallback_chain_trace P (search_plan r) None n) as (xs1 & Hlog1 & Hrun).
  rewrite updateAirtableRecord_run in *.
  destruct (fallback_chain P (search_plan r) None n) as [o n1]. simpl in *.
  assert (Hcase : ∀ resp1, o = Ok (Some resp1) → airtable_log n1 = airtable_log n ++ xs →
            is_hit resp1 = false →
            resp1 = resp ∧ Forall is_miss xs).
  { intros resp1 -> Hlog2 Hmiss.
    rewrite Hlog1 in Hlog2. apply app_inv_head in Hlog2. subst xs1.
    pose proof (chain_run_last _ _ _ _ _ _ Hrun Hlast) as [= ->].
    split; [done|]. by eapply chain_run_misses. }
  destruct o as [[resp1|]|e]; simpl in *.
  - destruct (s_ok resp1) eqn:Hok; simpl in *.
    + destruct (length (s_records resp1) =? 0)%nat eqn:Hz; simpl in *.
      * destruct (Hcase resp1 eq_refl Hlog) as [-> Hall].
        { unfold is_hit. rewrite Hok. simpl. apply Nat.eqb_eq in Hz.
          apply Nat.ltb_ge. lia. }
        split; [done|]. split; [done|]. congruence.
      * rewrite Hlog1, <- app_assoc in Hlog. apply app_inv_head in Hlog.
        subst xs. by rewrite last_snoc in Hlast.
    + destruct (Hcase resp1 eq_refl Hlog) as [-> Hall].
      { unfold is_hit. by rewrite Hok. }
      split; [done|]. split; [congruence|done].
  - rewrite Hlog1 in Hlog. apply app_inv_head in Hlog. subst xs1.
    by pose proof (chain_run_last _ _ _ _ _ _ Hrun Hlast).
  - rewrite Hlog1 in Hlog. apply app_inv_head in Hlog. subst xs1.
    by pose proof (chain_run_last _ _ _ _ _ _ Hrun Hlast).
Qed.

(** With no search to make, the call fails before the no-match test: the
    first thing read is [searchResponse.ok], of an undefined
    [searchResponse]. *)
Lemma updateAirtableRecord_no_search v r n :
  nonblank (r_submissionId r) = false → nonblank (r_name r) = false →
  updateAirtableRecord P v r n = (Throw undefined_ok_error, n).
Proof.
  intros Hid Hname. rewrite updateAirtableRecord_run.
  unfold search_plan, name_plan. by rewrite Hid, Hname.
Qed.

Lemma reconcile_result_run v r n :
  ∃ r' n', reconcile_result P v r n = (Ok r', n') ∧ reconciled r r'.
Proof.
  unfold reconcile_result.
  destruct (0 <? length (processed r))%nat.
  - destruct (updateAirtableRecord P v r n) as [[u|e] n1] eqn:Hrun.
    + eexists _, _. split.
      * apply try_catch_Ok. by rewrite (bind_Ok _ _ _ _ _ Hrun).
      * by repeat split.
    + eexists _, _. split.
      * erewrite try_catch_Throw; [done|]. by rewrite (bind_Throw _ _ _ _ _ Hrun).
      * repeat split; try done. simpl. by apply prefix_app_r.
  - eexists _, _. split; [done|]. by repeat split.
Qed.

(** C5, as amended: when the last search issued for a result is answered
    OK with no record (so that no search of the chain found a match),
    [updateAirtableRecord] fails with the no-match error; when it is
    answered with an error status the failure is the search-failed error
    instead.  Whatever error the call throws, the handler appends one
    message to the errors of that result, leaves [processed] and
    [cloudinaryUrls] as they were, and goes on: the reconciliation loop
    never throws and returns every result. *)
Theorem failed_search_is_recorded_per_result :
  (∀ v r n xs formula resp,
      airtable_log (updateAirtableRecord P v r n).2 = airtable_log n ++ xs →
      list.last xs = Some (SearchX formula (Ok resp)) →
      Forall is_miss xs
      ∧ (s_ok resp = true → s_records resp = [] →
         (updateAirtableRecord P v r n).1 = Throw (new_Error (no_match_message v r)))
      ∧ (s_ok resp = false →
         (updateAirtableRecord P v r n).1
         = Throw (new_Error (search_failed_message v resp))))
  ∧ (∀ v r n e n',
       (0 < length (processed r))%nat →
       updateAirtableRecord P v r n = (Throw e, n') →
       reconcile_result P v r n
       = (Ok (push_error r (js "Airtable update failed: " ++ message e)), n')
       ∧ processed (push_error r (js "Airtable update failed: " ++ message e))
         = processed r
       ∧ cloudinaryUrls (push_error r (js "Airtable update failed: " ++ message e))
         = cloudinaryUrls r)
  ∧ (∀ v results n, ∃ results' n',
       reconcile_all P env v results n = (Ok results', n')
       ∧ Forall2 reconciled results results').
Proof.
  split; [|split].
  - intros v r n xs formula resp Hlog Hlast.
    exact (updateAirtableRecord_last_search v r n xs formula resp Hlog Hlast).
  - intros v r n e n' Hlen Hrun. split; [|done].
    unfold reconcile_result.
    apply Nat.ltb_lt in Hlen. rewrite Hlen.
    erewrite try_catch_Throw; [done|]. by rewrite (bind_Throw _ _ _ _ _ Hrun).
  - intros v results n. unfold reconcile_all.
    destruct (airtable_configured env).
    + apply for_each_total. intros r n0. apply reconcile_result_run.
    + eexists _, _. split; [done|].
      apply Forall2_same_length_lookup. split; [done|].
      intros i r r' Hr Hr'. rewrite Hr in Hr'. injection Hr' as <-.
      by repeat split.
Qed.
End FailedSearches.

(** C5 as stated fails: in a world whose Airtable base answers every search
    with status 503, the three searches made for [demo_result] find no
    record, and the call fails with the search-failed error, not with the
    no-match error. *)
Lemma no_match_claim_fails_on_search_errors :
  Forall is_miss
    (airtable_log (updateAirtableRecord demo_platform_down CsvServer demo_result net0).2)
  ∧ formulas_of
      (airtable_log (updateAirtableRecord demo_platform_down CsvServer demo_result net0).2)
    = search_plan demo_result
  ∧ (updateAirtableRecord demo_platform_down CsvServer demo_result net0).1
    = Throw (new_Error (js "Airtable search failed: 503 - Unknown error"))
  ∧ (updateAirtableRecord demo_platform_down CsvServer demo_result net0).1
    ≠ Throw (new_Error (no_match_message CsvServer demo_result)).
Proof.
  split; [|split; [|split]].
  - vm_compute. repeat constructor.
  - vm_compute. reflexivity.
  - vm_compute. reflexivity.
  - vm_compute. intros [=].
Qed.

Lemma failed_search_is_recorded_per_result_witness :
  (updateAirtableRecord demo_platform CsvServer unmatched_result net0).1
  = Throw (new_Error (no_match_message CsvServer unmatched_result)).
Proof.
  refine (proj1 (proj2 (proj1 (failed_search_is_recorded_per_result
                                 demo_platform demo_env)
                          CsvServer unmatched_result net0
                          (airtable_log
                             (updateAirtableRecord demo_platform CsvServer
                                unmatched_result net0).2)
                          (nameFilter (js "rowing-club"))
                          (SearchResponse true 200 [] None) _ _)) eq_refl eq_refl).
  - reflexivity.
  - vm_compute. reflexivity.
Defined.

(** ** RecordReconciler: the update map *)

Lemma insert_all_lookup fields (m : gmap string field_value) k val :
  insert_all fields m !! k = Some val → (k, val) ∈ fields ∨ m !! k = Some val.
Proof.
  unfold insert_all. revert m.
  induction fields as [|[k0 v0] fields IH]; intros m; simpl; [by right|].
  intros H. apply IH in H as [H|H]; [left; by right|].
  apply lookup_insert_Some in H as [[-> ->]|[_ H]]; [left; by left|by right].
Qed.

Lemma insert_all_is_Some fields (m : gmap string field_value) k :
  is_Some (m !! k) ∨ (∃ val, (k, val) ∈ fields) → is_Some (insert_all fields m !! k).
Proof.
  unfold insert_all. revert m.
  induction fields as [|[k0 v0] fields IH]; intros m; simpl.
  - intros [H|[val H]]; [done|by apply elem_of_nil in H].
  - intros [H|[val H]].
    + apply IH. left. apply lookup_insert_is_Some'. by right.
    + apply elem_of_cons in H as [[= -> ->]|H].
      * apply IH. left. apply lookup_insert_is_Some'. by left.
      * apply IH. right. by exists val.
Qed.

Lemma array_set_elem (g : list (option (list N))) i url u :
  Some u ∈ array_set g i url → Some u ∈ g ∨ u = url.
Proof.
  unfold array_set. destruct (decide (i < length g)%nat) as [Hlt|Hge].
  - intros Hin. apply list_elem_of_lookup in Hin as [j Hj].
    apply list_lookup_insert_Some in Hj as [(_ & [= ->] & _)|[_ Hj]]; [by right|].
    left. by eapply list_elem_of_lookup_2.
  - rewrite !elem_of_app. intros [Hin|[Hin|Hin]]; [by left| |].
    + by apply elem_of_replicate_inv in Hin.
    + apply list_elem_of_singleton in Hin as [= ->]. by right.
Qed.

Lemma array_set_length (g : list (option (list N))) i url :
  (0 < length (array_set g i url))%nat.
Proof.
  unfold array_set. destruct (decide (i < length g)%nat) as [Hlt|Hge].
  - rewrite length_insert. lia.
  - rewrite !length_app. simpl. lia.
Qed.

Ltac slot_case p H :=
  apply bool_decide_eq_true in H;
  unfold slot_fields, gallery_index; rewrite H; reflexivity.

Lemma add_processed_normal (m : gmap string field_value) g p :
  add_processed (m, g) p
  = (insert_all (slot_fields p) m,
     match gallery_index (type p) with
     | Some i => array_set g i (cloudinaryUrl p)
     | None => g
     end).
Proof.
  unfold add_processed.
  destruct (str_eqb (type p) (js "hero")) eqn:H1; [slot_case p H1|].
  destruct (str_eqb (type p) (js "logo")) eqn:H2; [slot_case p H2|].
  destruct (str_eqb (type p) (js "gallery-1")) eqn:H3; [slot_case p H3|].
  destruct (str_eqb (type p) (js "gallery-2")) eqn:H4; [slot_case p H4|].
  destruct (str_eqb (type p) (js "gallery-3")) eqn:H5; [slot_case p H5|].
  destruct (str_eqb (type p) (js "gallery-4")) eqn:H6; [slot_case p H6|].
  unfold slot_fields, gallery_index. by rewrite H1, H2, H3, H4, H5, H6.
Qed.

Lemma gallery_index_is_Some imageType :
  is_Some (gallery_index imageType) ↔ is_gallery_type imageType = true.
Proof.
  unfold gallery_index, is_gallery_type.
  destruct (str_eqb imageType (js "gallery-1")); [by split; eauto|].
  destruct (str_eqb imageType (js "gallery-2")); [by split; eauto|].
  destruct (str_eqb imageType (js "gallery-3")); [by split; eauto|].
  destruct (str_eqb imageType (js "gallery-4")); [by split; eauto|].
  simpl. split; [by intros [? ?]|done].
Qed.

Lemma slot_fields_names p k val :
  (k, val) ∈ slot_fields p → k ∈ slot_field_names.
Proof.
  unfold slot_fields, slot_field_names.
  repeat case_match; intros Hin;
    repeat (apply elem_of_cons in Hin as [[= -> _]|Hin]; [set_solver|]);
    by apply elem_of_nil in Hin.
Qed.

Lemma fold_add_processed ps : ∀ (m0 : gmap string field_value) g0,
  (∀ k val, (foldl add_processed (m0, g0) ps).1 !! k = Some val →
            m0 !! k = Some val ∨ ∃ p, p ∈ ps ∧ (k, val) ∈ slot_fields p)
  ∧ (∀ k, is_Some (m0 !! k) ∨ (∃ p val, p ∈ ps ∧ (k, val) ∈ slot_fields p) →
          is_Some ((foldl add_processed (m0, g0) ps).1 !! k))
  ∧ (∀ u, Some u ∈ (foldl add_processed (m0, g0) ps).2 →
          Some u ∈ g0 ∨ gallery_asset ps u)
  ∧ ((0 < length (foldl add_processed (m0, g0) ps).2)%nat
     ↔ (0 < length g0)%nat ∨ ∃ p, p ∈ ps ∧ is_gallery_type (type p) = true).
Proof.
  induction ps as [|p ps IH]; intros m0 g0; [simpl|cbn [foldl]].
  - split; [by left|]. split.
    { intros k [H|(p & val & Hp & _)]; [done|by apply elem_of_nil in Hp]. }
    split; [by left|]. split; [by left|].
    intros [H|(p & Hp & _)]; [done|by apply elem_of_nil in Hp].
  - rewrite add_processed_normal.
    set (m1 := insert_all (slot_fields p) m0).
    set (g1 := match gallery_index (type p) with
               | Some i => array_set g0 i (cloudinaryUrl p)
               | None => g0
               end).
    destruct (IH m1 g1) as (IH1 & IH2 & IH3 & IH4).
    split; [|split; [|split]].
    + intros k val H. apply IH1 in H as [H|(p' & Hp' & Hf)].
      * apply insert_all_lookup in H as [H|H]; [|by left].
        right. exists p. split; [by left|done].
      * right. exists p'. split; [by right|done].
    + intros k H. apply IH2.
      destruct H as [H|(p' & val & Hp' & Hf)].
      * left. apply insert_all_is_Some. by left.
      * apply elem_of_cons in Hp' as [->|Hp'].
        -- left. apply insert_all_is_Some. right. by exists val.
        -- right. by exists p', val.
    + intros u H. apply IH3 in H as [H|(p' & Hp' & Hg & Hu)].
      * subst g1. destruct (gallery_index (type p)) as [i|] eqn:Hi; [|by left].
        apply array_set_elem in H as [H| ->]; [by left|].
        right. exists p. split; [by left|]. split; [|done].
        apply gallery_index_is_Some. by rewrite Hi.
      * right. exists p'. split; [by right|done].
    + rewrite IH4. subst g1. split.
      * intros [H|(p' & Hp' & Hg)].
        -- destruct (gallery_index (type p)) as [i|] eqn:Hi; [|by left].
           right. exists p. split; [by left|].
           apply gallery_index_is_Some. by rewrite Hi.
        -- right. exists p'. split; [by right|done].
      * intros [H|(p' & Hp' & Hg)].
        -- left. destruct (gallery_index (type p)); [apply array_set_length|done].
        -- apply elem_of_cons in Hp' as [->|Hp'].
           ++ left. apply gallery_index_is_Some in Hg as [i ->].
              apply array_set_length.
           ++ right. by exists p'.
Qed.

Lemma compact_elem (g : list (option (list N))) u : u ∈ compact g → Some u ∈ g.
Proof.
  unfold compact. intros H. apply list_elem_of_filter in H as [_ H].
  apply list_elem_of_omap in H as (x & Hx & Hid). simpl in Hid. by subst x.
Qed.

Lemma build_update_fields_origin v now ps k val :
  build_update_fields v now ps !! k = Some val →
  (∃ p, p ∈ ps ∧ (k, val) ∈ slot_fields p)
  ∨ (k = gallery_key v
     ∧ (∃ p, p ∈ ps ∧ is_gallery_type (type p) = true)
     ∧ ∃ urls, val = gallery_value v urls ∧ Forall (gallery_asset ps) urls)
  ∨ (v = CsvServer ∧ (k, val) ∈ markers now).
Proof.
  unfold build_update_fields.
  destruct (fold_add_processed ps ∅ []) as (H1 & _ & H3 & H4).
  destruct (foldl add_processed (∅, []) ps) as [mf g]. simpl in *.
  assert (Hslot : mf !! k = Some val → ∃ p, p ∈ ps ∧ (k, val) ∈ slot_fields p).
  { intros H. by apply H1 in H as [H|H]. }
  assert (Hgal : (0 <? length g)%nat = true →
            (∃ p, p ∈ ps ∧ is_gallery_type (type p) = true)
            ∧ Forall (gallery_asset ps) (compact g)).
  { intros Hlen. apply Nat.ltb_lt in Hlen. split.
    - apply H4 in Hlen as [Hlen|Hlen]; [simpl in Hlen; lia|done].
    - apply Forall_forall. intros u Hu. apply compact_elem in Hu.
      apply H3 in Hu as [Hu|Hu]; [by apply elem_of_nil in Hu|done]. }
  destruct v; intros Hk.
  - apply lookup_insert_Some in Hk as [[<- <-]|[_ Hk]];
      [right; right; split; [done|unfold markers; rewrite !elem_of_cons; tauto]|].
    apply lookup_insert_Some in Hk as [[<- <-]|[_ Hk]];
      [right; right; split; [done|unfold markers; rewrite !elem_of_cons; tauto]|].
    apply lookup_insert_Some in Hk as [[<- <-]|[_ Hk]];
      [right; right; split; [done|unfold markers; rewrite !elem_of_cons; tauto]|].
    destruct (0 <? length g)%nat; [|left; auto].
    apply lookup_insert_Some in Hk as [[<- <-]|[_ Hk]]; [|left; auto].
    right. left. destruct Hgal as [? ?]; [done|]. eauto.
  - destruct (0 <? length g)%nat; [|left; auto].
    apply lookup_insert_Some in Hk as [[<- <-]|[_ Hk]]; [|left; auto].
    right. left. destruct Hgal as [? ?]; [done|]. eauto.
Qed.

Lemma build_update_fields_written v now ps p :
  p ∈ ps →
  (∀ k val, (k, val) ∈ slot_fields p → is_Some (build_update_fields v now ps !! k))
  ∧ (is_gallery_type (type p) = true →
     is_Some (build_update_fields v now ps !! gallery_key v)).
Proof.
  intros Hp. unfold build_update_fields.
  destruct (fold_add_processed ps ∅ []) as (_ & H2 & _ & H4).
  destruct (foldl add_processed (∅, []) ps) as [mf g]. simpl in *.
  split.
  - intros k val Hf.
    assert (Hmf : is_Some (mf !! k)) by (apply H2; right; eauto).
    destruct v; destruct (0 <? length g)%nat;
      rewrite ?lookup_insert_is_Some'; tauto.
  - intros Hg.
    assert (Hlen : (0 <? length g)%nat = true).
    { apply Nat.ltb_lt, H4. right. eauto. }
    rewrite Hlen.
    destruct v; simpl; rewrite ?lookup_insert_is_Some'; tauto.
Qed.

Lemma build_update_fields_markers now ps k val :
  (k, val) ∈ markers now →
  build_update_fields CsvServer now ps !! k = Some val
  ∧ build_update_fields WebhookServer now ps !! k = None.
Proof.
  intros Hm. split.
  - unfold build_update_fields.
    destruct (foldl add_processed (∅, []) ps) as [mf g].
    unfold markers in Hm.
    repeat (apply elem_of_cons in Hm as [[= -> ->]|Hm];
            [by simplify_map_eq|]).
    by apply elem_of_nil in Hm.
  - destruct (build_update_fields WebhookServer now ps !! k) as [val'|] eqn:Hk; [|done].
    exfalso.
    apply build_update_fields_origin in Hk
      as [(p & _ & Hf)|[(-> & _)|([=] & _)]].
    + apply slot_fields_names in Hf. unfold slot_field_names, markers in *.
      rewrite !elem_of_cons, elem_of_nil in Hm.
      rewrite !elem_of_cons, elem_of_nil in Hf.
      destruct Hm as [[= -> _]|[[= -> _]|[[= -> _]|[]]]];
        repeat (destruct Hf as [[=]|Hf]); done.
    + unfold markers in Hm. rewrite !elem_of_cons, elem_of_nil in Hm. simpl in Hm.
      by destruct Hm as [[=]|[[=]|[[=]|[]]]].
Qed.

Section UpdateMap.
Context {World : Type} (P : platform World).
Implicit Types (n : net World) (r : club_result) (v : variant).

Lemma patch_carries_update_fields v r n xs recordId fields o :
  airtable_log (updateAirtableRecord P v r n).2 = airtable_log n ++ xs →
  PatchX recordId fields o ∈ xs →
  ∃ now, fields = build_update_fields v now (processed r).
Proof.
  intros Hlog Hin.
  destruct (updateAirtableRecord_trace P v r n) as (xs' & ys & Hlog' & Hrun & Hys).
  rewrite Hlog in Hlog'. apply app_inv_head in Hlog'. subst xs.
  apply elem_of_app in Hin as [Hin|Hin].
  - pose proof (chain_run_all_searches _ _ _ _ Hrun) as Hall.
    rewrite Forall_forall in Hall. by apply Hall in Hin.
  - destruct Hys as [->|(rid & w & o' & ->)]; [by apply elem_of_nil in Hin|].
    apply list_elem_of_singleton in Hin as [= -> -> ->]. eauto.
Qed.

End UpdateMap.

(** C4 as stated fails on the webhook server: for [demo_result], matched to
    the record rec1 by the search on its name, the PATCH carries the logo URL
    and the logo alt text and no Status, Last Modified or Processed field. *)
Lemma webhook_update_sets_no_marker :
  (updateAirtableRecord demo_platform WebhookServer demo_result net0).1
  = Ok {| success := true; recordId := js "rec1"; fieldsUpdated := 2;
          info_message := js "Updated 2 fields in Airtable" |}
  ∧ list.last (airtable_log
                 (updateAirtableRecord demo_platform WebhookServer demo_result net0).2)
    = Some (PatchX (js "rec1")
              (build_update_fields WebhookServer (js "2024-05-01T12:00:00.000Z")
                 [demo_logo_asset])
              (Ok (PatchResponse true 200 None)))
  ∧ build_update_fields WebhookServer (js "2024-05-01T12:00:00.000Z") [demo_logo_asset]
    = {[ "Logo URL" := FString (cloudinaryUrl demo_logo_asset);
         "Logo Alt Text" := FString (js "Chess Club logo") ]}
  ∧ build_update_fields WebhookServer (js "2024-05-01T12:00:00.000Z") [demo_logo_asset]
    !! "Status" = None
  ∧ build_update_fields WebhookServer (js "2024-05-01T12:00:00.000Z") [demo_logo_asset]
    !! "Last Modified" = None.
Proof.
  repeat split; vm_compute; reflexivity.
Qed.

(** * Further properties of the code *)

(** ** The scanner on RFC 4180 text *)

Lemma scan_from_cons (pre : jsstring) c (rest : jsstring) st :
  scan_from (pre ++ c :: rest) st (length pre)
  = scan_from (pre ++ c :: rest)
      (scan_step c (head rest) st (length pre)).1
      (scan_step c (head rest) st (length pre)).2.
Proof.
  rewrite (scan_from_step _ _ _ c) by apply lookup_middle.
  by rewrite lookup_after.
Qed.

(** The escaped content of a quoted field, up to its closing quote. *)
Lemma scan_escaped_content (content : jsstring) :
  ∀ (pre rest : jsstring) rs row (field : jsstring),
  scan_from (pre ++ csv_escape content ++ DQUOTE :: rest)
            (ScanState rs row field true) (length pre)
  = scan_from (pre ++ csv_escape content ++ DQUOTE :: rest)
              (ScanState rs row (field ++ content) true)
              (length pre + length (csv_escape content)).
Proof.
  induction content as [|c content IH]; intros pre rest rs row field.
  - simpl. rewrite app_nil_r. f_equal. lia.
  - change (csv_escape (c :: content))
      with ((if c =? DQUOTE then [DQUOTE; DQUOTE] else [c]) ++ csv_escape content).
    destruct (c =? DQUOTE) eqn:Hc.
    + apply N.eqb_eq in Hc as ->.
      replace (pre ++ ([DQUOTE; DQUOTE] ++ csv_escape content) ++ DQUOTE :: rest)
        with (pre ++ DQUOTE :: (DQUOTE :: csv_escape content ++ DQUOTE :: rest))
        by (simpl; by rewrite <- ?app_assoc).
      rewrite scan_from_cons. cbn [head].
      rewrite scan_step_escaped_quote. cbn [fst snd].
      replace (pre ++ DQUOTE :: DQUOTE :: csv_escape content ++ DQUOTE :: rest)
        with ((pre ++ [DQUOTE; DQUOTE]) ++ csv_escape content ++ DQUOTE :: rest)
        by by rewrite <- app_assoc.
      replace (length pre + 2)%nat with (length (pre ++ [DQUOTE; DQUOTE]))
        by (rewrite length_app; simpl; lia).
      rewrite IH. f_equal; [by rewrite <- app_assoc|].
      rewrite !length_app. simpl. lia.
    + apply N.eqb_neq in Hc.
      replace (pre ++ ([c] ++ csv_escape content) ++ DQUOTE :: rest)
        with (pre ++ c :: (csv_escape content ++ DQUOTE :: rest))
        by (simpl; by rewrite <- ?app_assoc).
      rewrite scan_from_cons.
      rewrite scan_step_in_quotes by done. cbn [fst snd].
      replace (pre ++ c :: csv_escape content ++ DQUOTE :: rest)
        with ((pre ++ [c]) ++ csv_escape content ++ DQUOTE :: rest)
        by by rewrite <- app_assoc.
      replace (length pre + 1)%nat with (length (pre ++ [c]))
        by (rewrite length_app; simpl; lia).
      rewrite IH. f_equal; [by rewrite <- app_assoc|].
      rewrite !length_app. simpl. lia.
Qed.

(** One quoted field, when what follows it does not start with a quote. *)
Lemma scan_quoted_field (content pre rest : jsstring) rs row :
  head rest ≠ Some DQUOTE →
  scan_from (pre ++ csv_quote content ++ rest) (ScanState rs row [] false) (length pre)
  = scan_from (pre ++ csv_quote content ++ rest) (ScanState rs row content false)
              (length pre + length (csv_quote content)).
Proof.
  intros Hrest. unfold csv_quote.
  replace (pre ++ (DQUOTE :: csv_escape content ++ [DQUOTE]) ++ rest)
    with (pre ++ DQUOTE :: (csv_escape content ++ DQUOTE :: rest))
    by (simpl; by rewrite <- ?app_assoc).
  rewrite scan_from_cons.
  change (scan_step DQUOTE _ (ScanState rs row [] false) (length pre))
    with (ScanState rs row [] true, (length pre + 1)%nat).
  cbn [fst snd].
  replace (pre ++ DQUOTE :: csv_escape content ++ DQUOTE :: rest)
    with ((pre ++ [DQUOTE]) ++ csv_escape content ++ DQUOTE :: rest)
    by by rewrite <- app_assoc.
  replace (length pre + 1)%nat with (length (pre ++ [DQUOTE]))
    by (rewrite length_app; simpl; lia).
  rewrite scan_escaped_content. simpl.
  replace ((pre ++ [DQUOTE]) ++ csv_escape content ++ DQUOTE :: rest)
    with (((pre ++ [DQUOTE]) ++ csv_escape content) ++ DQUOTE :: rest)
    by by rewrite <- !app_assoc.
  replace (length (pre ++ [DQUOTE]) + length (csv_escape content))%nat
    with (length ((pre ++ [DQUOTE]) ++ csv_escape content))
    by by rewrite !length_app.
  rewrite scan_from_cons.
  assert (Hstep : scan_step DQUOTE (head rest) (ScanState rs row content true)
                    (length ((pre ++ [DQUOTE]) ++ csv_escape content))
                  = (ScanState rs row content false,
                     (length ((pre ++ [DQUOTE]) ++ csv_escape content) + 1)%nat)).
  { unfold scan_step. simpl. by rewrite bool_decide_eq_false_2. }
  rewrite Hstep. cbn [fst snd]. f_equal.
  rewrite !length_app. simpl. rewrite ?length_app. simpl. lia.
Qed.

Lemma last_cons_default {A} (x : A) (l : list A) :
  last (x :: l) = Some (default x (last l)).
Proof. revert x. induction l as [|y l IH]; intros x; [done|]. by rewrite last_cons_cons, IH. Qed.

Lemma take_snoc_last {A} (x : A) (l : list A) :
  take (length l) (x :: l) ++ [default x (last l)] = x :: l.
Proof.
  revert x. induction l as [|y l IH]; intros x; [done|].
  cbn [length take]. rewrite <- app_comm_cons. f_equal.
  rewrite last_cons_default. simpl. apply IH.
Qed.

Lemma head_csv_more fields (rest : jsstring) :
  head rest ≠ Some DQUOTE → head (csv_more fields ++ rest) ≠ Some DQUOTE.
Proof. destruct fields; [done|]. intros _. simpl. by intros [=]. Qed.

(** The fields after the first one of a record. *)
Lemma scan_more_fields fields :
  ∀ (pre rest : jsstring) rs row (field : jsstring),
  head rest ≠ Some DQUOTE →
  scan_from (pre ++ csv_more fields ++ rest) (ScanState rs row field false) (length pre)
  = scan_from (pre ++ csv_more fields ++ rest)
      (ScanState rs (row ++ take (length fields) (field :: fields))
                 (default field (last fields)) false)
      (length pre + length (csv_more fields)).
Proof.
  induction fields as [|g fields IH]; intros pre rest rs row field Hrest.
  - simpl. rewrite app_nil_r. f_equal. lia.
  - change (csv_more (g :: fields)) with (COMMA :: csv_quote g ++ csv_more fields).
    replace (pre ++ (COMMA :: csv_quote g ++ csv_more fields) ++ rest)
      with (pre ++ COMMA :: (csv_quote g ++ csv_more fields ++ rest))
      by (simpl; by rewrite <- ?app_assoc).
    rewrite scan_from_cons.
    change (scan_step COMMA _ (ScanState rs row field false) (length pre))
      with (ScanState rs (row ++ [field]) [] false, (length pre + 1)%nat).
    cbn [fst snd].
    replace (pre ++ COMMA :: csv_quote g ++ csv_more fields ++ rest)
      with ((pre ++ [COMMA]) ++ csv_quote g ++ csv_more fields ++ rest)
      by by rewrite <- app_assoc.
    replace (length pre + 1)%nat with (length (pre ++ [COMMA]))
      by (rewrite length_app; simpl; lia).
    rewrite scan_quoted_field by by apply head_csv_more.
    replace ((pre ++ [COMMA]) ++ csv_quote g ++ csv_more fields ++ rest)
      with (((pre ++ [COMMA]) ++ csv_quote g) ++ csv_more fields ++ rest)
      by by rewrite <- !app_assoc.
    replace (length (pre ++ [COMMA]) + length (csv_quote g))%nat
      with (length ((pre ++ [COMMA]) ++ csv_quote g)) by by rewrite !length_app.
    rewrite IH by done. f_equal.
    + f_equal; [|by rewrite last_cons_default].
      cbn [length take]. by rewrite <- app_assoc.
    + rewrite !length_app. simpl. rewrite !length_app. simpl. lia.
Qed.

(** A whole record with at least one field. *)
Lemma scan_record field fields (pre rest : jsstring) rs :
  head rest ≠ Some DQUOTE →
  scan_from (pre ++ csv_record (field :: fields) ++ rest) (row_start rs) (length pre)
  = scan_from (pre ++ csv_record (field :: fields) ++ rest)
      (ScanState rs (take (length fields) (field :: fields))
                 (default field (last fields)) false)
      (length pre + length (csv_record (field :: fields))).
Proof.
  intros Hrest. unfold row_start. cbn [csv_record].
  rewrite <- (app_assoc (csv_quote field)).
  rewrite scan_quoted_field by by apply head_csv_more.
  replace (pre ++ csv_quote field ++ csv_more fields ++ rest)
    with ((pre ++ csv_quote field) ++ csv_more fields ++ rest)
    by by rewrite <- !app_assoc.
  replace (length pre + length (csv_quote field))%nat
    with (length (pre ++ csv_quote field)) by by rewrite !length_app.
  rewrite scan_more_fields by done. f_equal.
  rewrite !length_app. lia.
Qed.

Lemma push_row_kept rs row :
  push_row_if_nonblank rs row = rs ++ kept_rows [row].
Proof.
  unfold push_row_if_nonblank, kept_rows.
  destruct (existsb field_nonblank row) eqn:Hrow.
  - rewrite filter_cons_True by done.
    destruct row; [done|]. done.
  - rewrite filter_cons_False by (by rewrite Hrow).
    rewrite andb_false_r. by rewrite app_nil_r.
Qed.

(** The line break after a record. *)
Lemma scan_eol eol (pre rest : jsstring) rs row (field : jsstring) :
  is_eol eol → (eol = [CR] → head rest ≠ Some LF) →
  scan_from (pre ++ eol ++ rest) (ScanState rs row field false) (length pre)
  = scan_from (pre ++ eol ++ rest)
      (row_start (rs ++ kept_rows [row ++ [field]]))
      (length pre + length eol).
Proof.
  intros [-> | [-> | ->]] Hrest; simpl; rewrite scan_from_cons.
  - change (scan_step LF _ (ScanState rs row field false) (length pre))
      with (ScanState (push_row_if_nonblank rs (row ++ [field])) [] [] false,
            (length pre + 1)%nat).
    cbn [fst snd]. by rewrite push_row_kept.
  - change (scan_step CR (head (LF :: rest)) (ScanState rs row field false) (length pre))
      with (ScanState (push_row_if_nonblank rs (row ++ [field])) [] [] false,
            (length pre + 1 + 1)%nat).
    cbn [fst snd]. rewrite push_row_kept. f_equal. lia.
  - assert (Hstep : scan_step CR (head rest) (ScanState rs row field false) (length pre)
                    = (ScanState (push_row_if_nonblank rs (row ++ [field])) [] [] false,
                       (length pre + 1)%nat)).
    { unfold scan_step. simpl. rewrite bool_decide_eq_false_2 by auto. done. }
    rewrite Hstep. cbn [fst snd]. by rewrite push_row_kept.
Qed.

Lemma head_eol eol (rest : jsstring) : is_eol eol → head (eol ++ rest) ≠ Some DQUOTE.
Proof. by intros [-> | [-> | ->]]. Qed.

Lemma head_encoded_CR rs (tail : jsstring) :
  head tail ≠ Some LF → head (csv_encode [CR] rs ++ tail) ≠ Some LF.
Proof. destruct rs as [|[|field fields] rs]; [done|by simpl|by simpl]. Qed.

Lemma kept_rows_cons row rs : kept_rows (row :: rs) = kept_rows [row] ++ kept_rows rs.
Proof. unfold kept_rows. by rewrite <- filter_app. Qed.

(** Every record of an encoded text, line break included. *)
Lemma scan_encoded eol rs_in :
  ∀ (pre tail : jsstring) rs,
  is_eol eol → (eol = [CR] → head tail ≠ Some LF) →
  scan_from (pre ++ csv_encode eol rs_in ++ tail) (row_start rs) (length pre)
  = scan_from (pre ++ csv_encode eol rs_in ++ tail)
      (row_start (rs ++ kept_rows rs_in))
      (length pre + length (csv_encode eol rs_in)).
Proof.
  induction rs_in as [|row rs_in IH]; intros pre tail rs Heol Htail.
  - simpl. rewrite app_nil_r. f_equal. lia.
  - change (csv_encode eol (row :: rs_in))
      with ((csv_record row ++ eol) ++ csv_encode eol rs_in).
    assert (Hnext : eol = [CR] → head (csv_encode eol rs_in ++ tail) ≠ Some LF).
    { intros ->. by apply head_encoded_CR, Htail. }
    rewrite kept_rows_cons, (app_assoc rs).
    destruct row as [|field fields].
    + cbn [csv_record app].
      rewrite <- (app_assoc eol).
      unfold row_start at 1. rewrite scan_eol by done.
      change (kept_rows [[] ++ [[]]]) with (@nil (list (list N))).
      change (kept_rows [[]]) with (@nil (list (list N))).
      rewrite !app_nil_r.
      replace (pre ++ eol ++ csv_encode eol rs_in ++ tail)
        with ((pre ++ eol) ++ csv_encode eol rs_in ++ tail) by by rewrite <- app_assoc.
      replace (length pre + length eol)%nat with (length (pre ++ eol))
        by by rewrite length_app.
      rewrite IH by done. f_equal. rewrite !length_app. lia.
    + replace (pre ++ ((csv_record (field :: fields) ++ eol) ++ csv_encode eol rs_in) ++ tail)
        with (pre ++ csv_record (field :: fields) ++ (eol ++ csv_encode eol rs_in ++ tail))
        by by rewrite <- !app_assoc.
      rewrite scan_record by by apply head_eol.
      replace (pre ++ csv_record (field :: fields) ++ eol ++ csv_encode eol rs_in ++ tail)
        with ((pre ++ csv_record (field :: fields)) ++ eol ++ csv_encode eol rs_in ++ tail)
        by by rewrite <- !app_assoc.
      replace (length pre + length (csv_record (field :: fields)))%nat
        with (length (pre ++ csv_record (field :: fields))) by by rewrite length_app.
      rewrite scan_eol by done.
      rewrite take_snoc_last.
      replace ((pre ++ csv_record (field :: fields)) ++ eol ++ csv_encode eol rs_in ++ tail)
        with (((pre ++ csv_record (field :: fields)) ++ eol) ++ csv_encode eol rs_in ++ tail)
        by by rewrite <- !app_assoc.
      replace (length (pre ++ csv_record (field :: fields)) + length eol)%nat
        with (length ((pre ++ csv_record (field :: fields)) ++ eol))
        by by rewrite !length_app.
      rewrite IH by done. f_equal. rewrite !length_app. lia.
Qed.

(** X1: the scanner of [parseCSV] decodes RFC 4180 text.  For records whose
    fields are quoted (quotes inside doubled), joined by commas, and each
    followed by one and the same line break LF, CR LF or CR, and for a last
    record that may lack its line break, the rows returned are exactly the
    records that have a non-blank field, field for field: commas, quotes
    and line breaks inside fields come back unchanged. *)
Theorem parse_decodes_rfc4180 eol rs_in last_row :
  is_eol eol →
  parse (csv_encode eol rs_in ++ csv_record last_row)
  = Some (kept_rows (rs_in ++ [last_row])).
Proof.
  intros Heol. unfold parse.
  assert (Htail : eol = [CR] → head (csv_record last_row) ≠ Some LF).
  { intros _. by destruct last_row. }
  pose proof (scan_encoded eol rs_in [] (csv_record last_row) [] Heol Htail) as Hscan.
  simpl in Hscan. change scan_init with (row_start []). rewrite Hscan.
  unfold kept_rows at 2. rewrite filter_app. fold (kept_rows rs_in) (kept_rows [last_row]).
  destruct last_row as [|field fields].
  - simpl. rewrite app_nil_r.
    rewrite scan_from_end by (apply lookup_ge_None; lia).
    simpl. rewrite scan_finish_push. simpl. by rewrite push_row_kept.
  - pose proof (scan_record field fields (csv_encode eol rs_in) [] (kept_rows rs_in))
      as Hrec.
    rewrite !app_nil_r in Hrec. rewrite Hrec by done.
    rewrite scan_from_end by (apply lookup_ge_None; rewrite length_app; lia).
    simpl. rewrite scan_finish_push. simpl.
    by rewrite take_snoc_last, push_row_kept.
Qed.

Lemma parse_decodes_rfc4180_witness :
  is_eol [CR; LF]
  ∧ parse (csv_encode [CR; LF] [[js "a,b"; [DQUOTE; LF]]; [js " "]] ++ csv_record [js "x"])
    = Some [[js "a,b"; [DQUOTE; LF]]; [js "x"]].
Proof.
  split; [right; by left|].
  exact (parse_decodes_rfc4180 [CR; LF] [[js "a,b"; [DQUOTE; LF]]; [js " "]] [js "x"]
           (or_intror (or_introl eq_refl))).
Defined.

(** ** The extractor on parsed rows *)

Section ExtractorRows.
Context {World : Type} (P : platform World).

Lemma extract_row_rawData values c :
  extract_row P values = Some c →
  rawData c = values ∧ (30 ≤ length values)%nat
  ∧ submissionId c = column values 0 ∧ email c = column values 8
  ∧ originalName c = column values 10.
Proof.
  unfold extract_row.
  destruct (length values <? 30)%nat eqn:Hlen; [done|].
  apply Nat.ltb_ge in Hlen.
  destruct (_ || _ || _); [|done]. by intros [= <-].
Qed.

Lemma omap_extract_sublist rs :
  rawData <$> omap (extract_row P) rs `sublist_of` rs.
Proof.
  induction rs as [|values rs IH]; [done|]. simpl.
  destruct (extract_row P values) as [c|] eqn:Hc; simpl.
  - apply extract_row_rawData in Hc as [-> _]. by apply sublist_skip.
  - by apply sublist_cons.
Qed.

(** X2: [parseCSV] returns a list of clubs for every text; the clubs are
    made of data rows, in the order of the file, never of the first row
    (the header) and never of a row with fewer than 30 columns; the
    submission id, e-mail and original name of a club are columns 0, 8 and
    10 of its row. *)
Theorem parseCSV_clubs_are_data_rows (csvText : jsstring) :
  ∃ rs clubs,
    parse csvText = Some rs ∧ parseCSV P csvText = Some clubs
    ∧ rawData <$> clubs `sublist_of` drop 1 rs
    ∧ Forall (λ c, (30 ≤ length (rawData c))%nat
                   ∧ submissionId c = column (rawData c) 0
                   ∧ email c = column (rawData c) 8
                   ∧ originalName c = column (rawData c) 10) clubs.
Proof.
  unfold parseCSV, parse.
  destruct (scan_from_total csvText scan_init 0) as [st Hst]. rewrite Hst. simpl.
  eexists _, _. split; [done|]. split; [done|].
  unfold extract. destruct (length (scan_finish st) <? 1)%nat.
  - split; [apply sublist_nil_l|constructor].
  - split; [apply omap_extract_sublist|].
    apply Forall_forall. intros c Hc.
    apply list_elem_of_omap in Hc as (values & _ & Hc).
    apply extract_row_rawData in Hc as (-> & ? & ? & ? & ?). done.
Qed.
End ExtractorRows.

(** ** Trimming and splitting *)

Lemma drop_while_suffix p (s : jsstring) : ∃ k, s = k ++ drop_while p s.
Proof.
  induction s as [|c s [k IH]]; simpl; [by exists []|].
  destruct (p c); [|by exists []].
  exists (c :: k). simpl. by f_equal.
Qed.

Lemma drop_while_idem p (s : jsstring) :
  drop_while p (drop_while p s) = drop_while p s.
Proof.
  induction s as [|c s IH]; simpl; [done|].
  destruct (p c) eqn:Hc; [done|]. simpl. by rewrite Hc.
Qed.

Lemma drop_while_head_fixed p c (s : jsstring) :
  p c = false → drop_while p (c :: s) = c :: s.
Proof. intros Hc. simpl. by rewrite Hc. Qed.

Lemma trim_trim s : trim (trim s) = trim s.
Proof.
  unfold trim.
  set (a := drop_while is_space s).
  set (b := drop_while is_space (reverse a)).
  assert (Hfix : drop_while is_space (reverse b) = reverse b).
  { destruct (drop_while_suffix is_space (reverse a)) as [k Hk]. fold b in Hk.
    apply (f_equal reverse) in Hk. rewrite reverse_involutive, reverse_app in Hk.
    destruct (reverse b) as [|c rb] eqn:Hrb; [done|].
    apply drop_while_head_fixed.
    subst a. simpl in Hk. by eapply drop_while_head. }
  rewrite Hfix, reverse_involutive. subst b. by rewrite drop_while_idem.
Qed.

Lemma split_on_space_only (s : jsstring) :
  Forall (λ c, is_space c = true) s → split_on COMMA s = [s].
Proof.
  induction 1 as [|c s Hc _ IH]; simpl; [done|].
  destruct (is_space_not_quote_comma c Hc) as [_ ->]. by rewrite IH.
Qed.

Lemma split_on_nonempty sep (s : jsstring) : split_on sep s ≠ [].
Proof. destruct s as [|c s]; simpl; [done|]. destruct (c =? sep); [done|]. by destruct (split_on sep s). Qed.

(** ** References kept by the extractor *)

Section ExtractedReferences.
Context {World : Type} (P : platform World).

Lemma gallery_urls_split galleryImages :
  (if truthy galleryImages && truthy (trim galleryImages)
   then gallery_urls P galleryImages else [])
  = filter (λ url, isValidUrl P url = true) (split_gallery galleryImages).
Proof.
  unfold gallery_urls, split_gallery.
  destruct (truthy galleryImages) eqn:Hg; simpl; [|done].
  assert (Hff : ∀ l : list (list N),
            filter (λ url, truthy url && isValidUrl P url = true) l
            = filter (λ url, isValidUrl P url = true)
                (filter (λ url, truthy url = true) l)).
  { intros l. rewrite list_filter_filter. apply list_filter_iff.
    intros url. rewrite andb_true_iff. tauto. }
  destruct (truthy (trim galleryImages)) eqn:Ht; [apply Hff|].
  assert (Hblank : Forall (λ c, is_space c = true) galleryImages).
  { apply trim_nil. by destruct (trim galleryImages). }
  rewrite (split_on_space_only _ Hblank). simpl.
  apply trim_nil in Hblank. rewrite Hblank.
  rewrite filter_cons_False by done. done.
Qed.

(** X3: for a row that yields a club, the hero and the logo of the club are
    the text of columns 27 and 28 when [isValidUrl] accepts it and null
    otherwise; the gallery is what the Airtable reader makes of the same
    text (split at commas, trimmed, empty pieces dropped) filtered by
    [isValidUrl]; so every reference kept is accepted by [isValidUrl], and
    every gallery entry is non-empty and already trimmed. *)
Theorem extract_row_keeps_valid_references values c :
  extract_row P values = Some c →
  heroImage c = valid_or_null P (column values 27)
  ∧ logoImage c = valid_or_null P (column values 28)
  ∧ galleryImages c
    = filter (λ url, isValidUrl P url = true) (split_gallery (column values 29))
  ∧ (∀ url, heroImage c = Some url ∨ logoImage c = Some url ∨ url ∈ galleryImages c →
            isValidUrl P url = true ∧ url ≠ [])
  ∧ Forall (λ url, trim url = url) (galleryImages c).
Proof.
  intros Hc.
  assert (Hfields : heroImage c = valid_or_null P (column values 27)
                    ∧ logoImage c = valid_or_null P (column values 28)
                    ∧ galleryImages c
                      = filter (λ url, isValidUrl P url = true)
                          (split_gallery (column values 29))).
  { revert Hc. unfold extract_row.
    destruct (length values <? 30)%nat; [done|].
    destruct (_ || _ || _); [|done].
    intros [= <-]. simpl. by rewrite gallery_urls_split. }
  destruct Hfields as (Hhero & Hlogo & Hgallery).
  split; [done|]. split; [done|]. split; [done|]. split.
  - intros url [Hu|[Hu|Hu]].
    + rewrite Hhero in Hu. unfold valid_or_null in Hu.
      destruct (truthy _ && _) eqn:Hv; [|done]. injection Hu as <-.
      apply andb_true_iff in Hv as [Ht Hv]. split; [done|]. by intros Heq; rewrite Heq in Ht.
    + rewrite Hlogo in Hu. unfold valid_or_null in Hu.
      destruct (truthy _ && _) eqn:Hv; [|done]. injection Hu as <-.
      apply andb_true_iff in Hv as [Ht Hv]. split; [done|]. by intros Heq; rewrite Heq in Ht.
    + rewrite Hgallery in Hu. apply list_elem_of_filter in Hu as [Hv Hu].
      split; [done|]. unfold split_gallery in Hu.
      destruct (truthy (column values 29)); [|by apply elem_of_nil in Hu].
      apply list_elem_of_filter in Hu as [Ht _]. by intros Heq; rewrite Heq in Ht.
  - rewrite Hgallery. apply Forall_forall. intros url Hu.
    apply list_elem_of_filter in Hu as [_ Hu]. unfold split_gallery in Hu.
    destruct (truthy (column values 29)); [|by apply elem_of_nil in Hu].
    apply list_elem_of_filter in Hu as [_ Hu].
    apply list_elem_of_fmap in Hu as (piece & -> & _). apply trim_trim.
Qed.
End ExtractedReferences.

Lemma extract_row_keeps_valid_references_witness :
  extract_row demo_platform gallery_values = Some gallery_club
  ∧ galleryImages gallery_club
    = filter (λ url, isValidUrl demo_platform url = true)
        (split_gallery (column gallery_values 29))
  ∧ Forall (λ url, trim url = url) (galleryImages gallery_club).
Proof.
  split; [vm_compute; reflexivity|].
  destruct (extract_row_keeps_valid_references demo_platform gallery_values gallery_club)
    as (_ & _ & Hg & _ & Ht); [vm_compute; reflexivity|].
  split; [exact Hg|exact Ht].
Defined.

(** ** The record reader of [readFromAirtable] *)

Lemma split_on_app_sep sep (u rest : jsstring) :
  sep ∉ u → split_on sep (u ++ sep :: rest) = u :: split_on sep rest.
Proof.
  induction u as [|c u IH]; intros Hu; simpl.
  - by rewrite N.eqb_refl.
  - apply not_elem_of_cons in Hu as [Hc Hu].
    destruct (N.eqb_spec c sep) as [->|_]; [done|]. by rewrite IH.
Qed.

Lemma split_on_no_sep sep (u : jsstring) : sep ∉ u → split_on sep u = [u].
Proof.
  induction u as [|c u IH]; intros Hu; simpl; [done|].
  apply not_elem_of_cons in Hu as [Hc Hu].
  destruct (N.eqb_spec c sep) as [->|_]; [done|]. by rewrite IH.
Qed.

Lemma split_on_pieces sep (s : jsstring) :
  Forall (λ piece, sep ∉ piece) (split_on sep s).
Proof.
  induction s as [|c s IH]; simpl.
  - repeat constructor. apply not_elem_of_nil.
  - destruct (N.eqb_spec c sep) as [->|Hc].
    + constructor; [apply not_elem_of_nil|done].
    + destruct (split_on sep s) as [|piece pieces].
      * repeat constructor. apply not_elem_of_cons. split; [done|apply not_elem_of_nil].
      * apply Forall_cons in IH as [Hp Hps]. constructor; [|done].
        apply not_elem_of_cons. by split.
Qed.

Lemma drop_while_elem p (s : jsstring) c : c ∈ drop_while p s → c ∈ s.
Proof.
  destruct (drop_while_suffix p s) as [k Hk]. intros Hc.
  rewrite Hk. apply elem_of_app. by right.
Qed.

Lemma trim_elem (s : jsstring) c : c ∈ trim s → c ∈ s.
Proof.
  unfold trim. rewrite elem_of_reverse. intros Hc.
  apply drop_while_elem in Hc. rewrite elem_of_reverse in Hc.
  by apply drop_while_elem in Hc.
Qed.

Lemma trim_space_cons c (s : jsstring) : is_space c = true → trim (c :: s) = trim s.
Proof. intros Hc. unfold trim. simpl. by rewrite Hc. Qed.

Lemma split_on_comma_join (u : jsstring) (rest : list jsstring) :
  COMMA ∉ u → Forall (λ url, COMMA ∉ url) rest →
  split_on COMMA (u ++ (rest ≫= λ next, COMMA :: SPACE :: next))
  = u :: ((λ next, SPACE :: next) <$> rest).
Proof.
  intros Hu Hrest. revert u Hu.
  induction Hrest as [|v rest Hv _ IH]; intros u Hu; simpl.
  - rewrite app_nil_r. by apply split_on_no_sep.
  - rewrite split_on_app_sep by done. f_equal.
    change (SPACE :: v ++ ?t) with ((SPACE :: v) ++ t).
    apply IH. apply not_elem_of_cons. by split.
Qed.

(** X4: every gallery entry the reader returns is non-empty, trimmed and
    free of commas; a record without the gallery field, or with an empty
    one, has an empty gallery, and a missing name, hero or logo field reads
    as the empty string; the record id is passed through. *)
Theorem read_record_gallery_shape id (fields : gmap string (list N)) :
  Forall (λ url, url ≠ [] ∧ trim url = url ∧ COMMA ∉ url)
         (a_galleryUrls (read_record id fields))
  ∧ (or_empty (fields !! gallery_field) = [] → a_galleryUrls (read_record id fields) = [])
  ∧ (fields !! "Upload a hero image:" = None → a_heroUrl (read_record id fields) = [])
  ∧ (fields !! "Upload your community's logo:" = None →
     a_logoUrl (read_record id fields) = [])
  ∧ a_airtableId (read_record id fields) = id.
Proof.
  split; [|split; [|split; [|split]]].
  - unfold read_record. simpl. unfold split_gallery.
    destruct (truthy _); [|constructor].
    apply Forall_forall. intros url Hu.
    apply list_elem_of_filter in Hu as [Ht Hu].
    apply list_elem_of_fmap in Hu as (piece & -> & Hpiece).
    split; [by intros Heq; rewrite Heq in Ht|]. split; [apply trim_trim|].
    intros Hc. apply trim_elem in Hc.
    pose proof (split_on_pieces COMMA
                  (or_empty (fields !! "Upload up to 4 images for your photo gallery:")))
      as Hall.
    rewrite Forall_forall in Hall. by apply (Hall piece).
  - unfold read_record, gallery_field, split_gallery. simpl. by intros ->.
  - unfold read_record. simpl. by intros ->.
  - unfold read_record. simpl. by intros ->.
  - done.
Qed.

Lemma read_record_gallery_shape_witness :
  or_empty ((∅ : gmap string (list N)) !! gallery_field) = []
  ∧ a_galleryUrls (read_record (js "rec1") ∅) = [].
Proof.
  split; [reflexivity|].
  apply (proj1 (proj2 (read_record_gallery_shape (js "rec1") ∅))). reflexivity.
Defined.

(** X5: the reader inverts the joining of a multi-value cell: a gallery
    field holding non-empty, trimmed, comma-free URLs joined by a comma and
    a space reads back as the list of those URLs. *)
Theorem read_record_splits_joined_gallery id (fields : gmap string (list N)) urls :
  Forall (λ url, url ≠ [] ∧ trim url = url ∧ COMMA ∉ url) urls →
  fields !! gallery_field = Some (comma_join urls) →
  a_galleryUrls (read_record id fields) = urls.
Proof.
  intros Hurls Hfield. unfold read_record. simpl.
  unfold gallery_field in Hfield. rewrite Hfield. simpl.
  unfold split_gallery, comma_join.
  destruct Hurls as [|u rest (Hne & Htrim & Hcomma) Hrest]; [done|].
  assert (Htruthy : truthy (u ++ (rest ≫= λ next, COMMA :: SPACE :: next)) = true)
    by (by destruct u).
  rewrite Htruthy.
  rewrite split_on_comma_join;
    [|done|by eapply Forall_impl; [exact Hrest|]; intros ? (_ & _ & ?)].
  rewrite fmap_cons, Htrim.
  rewrite filter_cons_True by (by destruct u). f_equal.
  clear Hfield Htruthy.
  induction Hrest as [|v rest (Hv & Hvt & _) _ IH]; [done|].
  rewrite !fmap_cons. rewrite trim_space_cons by done. rewrite Hvt.
  rewrite filter_cons_True by (by destruct v). by f_equal.
Qed.

Lemma not_elem_check (x : N) (s : list N) :
  forallb (λ c, negb (c =? x)) s = true → x ∉ s.
Proof.
  induction s as [|c s IH]; simpl; [intros _; apply not_elem_of_nil|].
  intros [Hc Hs]%andb_true_iff. apply not_elem_of_cons. split; [|by apply IH].
  intros ->. by rewrite N.eqb_refl in Hc.
Qed.

Lemma read_record_splits_joined_gallery_witness :
  a_galleryUrls
    (read_record (js "rec1")
       {[ gallery_field := comma_join [js "https://a.test/1.png"; js "https://a.test/2.png"] ]})
  = [js "https://a.test/1.png"; js "https://a.test/2.png"].
Proof.
  apply read_record_splits_joined_gallery.
  - apply Forall_cons_2; [|apply Forall_cons_2; [|apply Forall_nil_2]];
      (split; [done|split; [vm_compute; reflexivity|by apply not_elem_check]]).
  - apply lookup_singleton_eq.
Defined.

(** ** What the club loop makes of a club *)

Lemma gallery_type_index i :
  (i < 4)%nat →
  gallery_types !! i = Some (js "gallery-" ++ show (N.of_nat (i + 1)))
  ∧ gallery_index (js "gallery-" ++ show (N.of_nat (i + 1))) = Some i.
Proof.
  intros Hi. do 4 (destruct i as [|i]; [by vm_compute|]). lia.
Qed.

Lemma gallery_index_not_hero_logo imageType i :
  gallery_index imageType = Some i →
  str_eqb imageType (js "hero") = false ∧ str_eqb imageType (js "logo") = false.
Proof.
  intros Hi. unfold str_eqb.
  split; apply bool_decide_eq_false; intros ->; by vm_compute in Hi.
Qed.

Section ClubAssets.
Context {World : Type} (P : platform World) (env : environment).
Implicit Types (n : net World) (cr : club_result).

(** What a transform returns describes the slot it was called for; the
    call makes no Airtable exchange. *)
Lemma transform_run msg imageUrl clubName imageType targetWidth n :
  airtable_log (processImageToCloudinary P env msg imageUrl clubName imageType
                  targetWidth n).2 = airtable_log n
  ∧ ∀ p, (processImageToCloudinary P env msg imageUrl clubName imageType
            targetWidth n).1 = Ok p →
         originalUrl p = imageUrl ∧ type p = imageType
         ∧ filename p = upload_filename clubName imageType ++ js ".webp"
         ∧ altText p = generateAltText clubName imageType
         ∧ format p = js "webp"
         ∧ cloudinary_configured env = true.
Proof.
  unfold processImageToCloudinary. rewrite try_catch_rethrow.
  destruct (cloudinary_configured env); simpl; [|by split].
  unfold mbind, M_bind, lift_outcome, lift_world, of_outcome, throw.
  destruct (fetch_image P imageUrl (world n)) as [[response|e] w]; simpl; [|by split].
  destruct (img_ok response); simpl; [|by split].
  destruct (img_body response) as [imageBuffer|e]; simpl; [|by split].
  destruct (sharp_resize_webp P imageBuffer targetWidth) as [processedBuffer|e];
    simpl; [|by split].
  destruct (cloudinary_upload P _ processedBuffer w) as [[error_message|result] w'];
    simpl; [by split|].
  split; [done|]. by intros p [= <-].
Qed.

(** One slot attempt pushes at most one asset, the one of its slot, and
    its published URL with it. *)
Lemma attempt_slot_asset label imageUrl clubName imageType targetWidth cr n :
  ∃ cr' n' ps,
    attempt_slot P env label imageUrl clubName imageType targetWidth cr n = (Ok cr', n')
    ∧ processed cr' = processed cr ++ ps
    ∧ cloudinaryUrls cr' = cloudinaryUrls cr ++ (cloudinaryUrl <$> ps)
    ∧ airtable_log n' = airtable_log n
    ∧ (ps = []
       ∨ ∃ p, ps = [p] ∧ originalUrl p = imageUrl ∧ type p = imageType
              ∧ filename p = upload_filename clubName imageType ++ js ".webp"
              ∧ altText p = generateAltText clubName imageType
              ∧ format p = js "webp").
Proof.
  destruct (transform_run cloudinary_not_configured_csv imageUrl clubName imageType
              targetWidth n) as [Hlog Hasset].
  destruct (attempt_slot_run P env label imageUrl clubName imageType targetWidth cr n)
    as [(p & n' & Ht & ->)|(e & n' & Ht & ->)]; rewrite Ht in Hlog, Hasset; simpl in *.
  - exists (push_processed cr p), n', [p]. repeat split; try done.
    right. exists p. destruct (Hasset p eq_refl) as (? & ? & ? & ? & ? & _). done.
  - exists (push_error cr (label ++ js ": " ++ message e)), n', [].
    simpl. rewrite !app_nil_r. repeat split; try done. by left.
Qed.

Lemma gallery_loop_assets clubName remaining : ∀ i cr n,
  ∃ cr' n' ps,
    gallery_loop P env clubName i remaining cr n = (Ok cr', n')
    ∧ processed cr' = processed cr ++ ps
    ∧ cloudinaryUrls cr' = cloudinaryUrls cr ++ (cloudinaryUrl <$> ps)
    ∧ airtable_log n' = airtable_log n
    ∧ type <$> ps `sublist_of` drop i gallery_types
    ∧ Forall (λ p, (∃ j, gallery_index (type p) = Some (i + j)%nat
                         ∧ remaining !! j = Some (originalUrl p))
                   ∧ filename p = upload_filename clubName (type p) ++ js ".webp"
                   ∧ altText p = generateAltText clubName (type p)
                   ∧ format p = js "webp") ps.
Proof.
  induction remaining as [|galleryUrl rest IH]; intros i cr n; simpl.
  - exists cr, n, []. rewrite !app_nil_r. repeat split; try done. apply sublist_nil_l.
  - destruct (i <? 4)%nat eqn:Hi;
      [|exists cr, n, []; rewrite !app_nil_r; repeat split; try done; apply sublist_nil_l].
    apply Nat.ltb_lt in Hi. destruct (gallery_type_index i Hi) as [Hty Hidx].
    assert (Hstep : ∃ cr1 n1 ps1,
              (if truthy galleryUrl then
                 attempt_slot P env (js "Gallery image " ++ show (N.of_nat (i + 1)))
                   galleryUrl clubName (js "gallery-" ++ show (N.of_nat (i + 1)))
                   1200 cr
               else mret cr) n = (Ok cr1, n1)
              ∧ processed cr1 = processed cr ++ ps1
              ∧ cloudinaryUrls cr1 = cloudinaryUrls cr ++ (cloudinaryUrl <$> ps1)
              ∧ airtable_log n1 = airtable_log n
              ∧ (ps1 = []
                 ∨ ∃ p, ps1 = [p] ∧ originalUrl p = galleryUrl
                        ∧ type p = js "gallery-" ++ show (N.of_nat (i + 1))
                        ∧ filename p = upload_filename clubName (type p) ++ js ".webp"
                        ∧ altText p = generateAltText clubName (type p)
                        ∧ format p = js "webp")).
    { destruct (truthy galleryUrl).
      - destruct (attempt_slot_asset (js "Gallery image " ++ show (N.of_nat (i + 1)))
                    galleryUrl clubName (js "gallery-" ++ show (N.of_nat (i + 1)))
                    1200 cr n) as (cr1 & n1 & ps1 & Hrun & Hp & Hu & Hlog & Hps).
        exists cr1, n1, ps1. repeat split; try done.
        destruct Hps as [->|(p & -> & ? & Htp & ? & ? & ?)]; [by left|].
        right. exists p. rewrite Htp. done.
      - exists cr, n, []. rewrite !app_nil_r. repeat split; try done. by left. }
    destruct Hstep as (cr1 & n1 & ps1 & Hrun1 & Hp1 & Hu1 & Hlog1 & Hps1).
    destruct (IH (i + 1)%nat cr1 n1) as (cr2 & n2 & ps2 & Hrun2 & Hp2 & Hu2 & Hlog2 & Hsub & Hall).
    exists cr2, n2, (ps1 ++ ps2).
    split; [by rewrite (bind_Ok _ _ _ _ _ Hrun1)|].
    split; [by rewrite Hp2, Hp1, <- app_assoc|].
    split; [by rewrite Hu2, Hu1, fmap_app, <- app_assoc|].
    split; [congruence|].
    rewrite (drop_S _ _ _ Hty). replace (S i) with (i + 1)%nat by lia.
    assert (Hall' : Forall (λ p, (∃ j, gallery_index (type p) = Some (i + j)%nat
                                      ∧ (galleryUrl :: rest) !! j = Some (originalUrl p))
                                 ∧ filename p = upload_filename clubName (type p) ++ js ".webp"
                                 ∧ altText p = generateAltText clubName (type p)
                                 ∧ format p = js "webp") ps2).
    { eapply Forall_impl; [exact Hall|]. intros p ((j & Hj & Hr) & ? & ? & ?).
      split; [|done]. exists (S j). split; [|done].
      rewrite Hj. f_equal. lia. }
    destruct Hps1 as [->|(p & -> & Ho & Htp & Hf & Ha & Hfm)].
    + split; [by apply sublist_cons|done].
    + split.
      * rewrite fmap_app. simpl. rewrite Htp. by apply sublist_skip.
      * apply Forall_app. split; [|done]. constructor; [|constructor].
        split; [|done]. exists 0%nat. rewrite Htp, Hidx, Nat.add_0_r, <- Ho. done.
Qed.

(** The assets of a result, slot by slot. *)
Lemma process_club_assets_run c n :
  ∃ r n',
    process_club P env c n = (Ok r, n')
    ∧ cloudinaryUrls r = cloudinaryUrl <$> processed r
    ∧ type <$> processed r `sublist_of` slot_types
    ∧ Forall (slot_asset c) (processed r)
    ∧ airtable_log n' = airtable_log n.
Proof.
  unfold process_club.
  set (cr0 := {| r_name := originalName c; cleanName := name c;
                 r_submissionId := submissionId c; r_email := email c;
                 processed := []; errors := []; cloudinaryUrls := [];
                 airtableUpdate := None |}).
  assert (Hhero : ∃ cr1 n1 ps1,
            match heroImage c with
            | Some url => if truthy url
                          then attempt_slot P env (js "Hero image") url (name c)
                                 (js "hero") 1600 cr0
                          else mret cr0
            | None => mret cr0
            end n = (Ok cr1, n1)
            ∧ processed cr1 = ps1
            ∧ cloudinaryUrls cr1 = cloudinaryUrl <$> ps1
            ∧ airtable_log n1 = airtable_log n
            ∧ type <$> ps1 `sublist_of` [js "hero"]
            ∧ Forall (slot_asset c) ps1).
  { destruct (heroImage c) as [url|] eqn:Hh;
      [destruct (truthy url)|];
      [|exists cr0, n, []; repeat split; try done; apply sublist_nil_l..].
    destruct (attempt_slot_asset (js "Hero image") url (name c) (js "hero") 1600 cr0 n)
      as (cr1 & n1 & ps1 & Hrun & Hp & Hu & Hlog & Hps).
    exists cr1, n1, ps1. simpl in Hp, Hu. repeat split; try done.
    - destruct Hps as [->|(p & -> & _ & Htp & _)]; [apply sublist_nil_l|].
      simpl. by rewrite Htp.
    - destruct Hps as [->|(p & -> & Ho & Htp & Hf & Ha & Hfm)]; [done|].
      constructor; [|done]. unfold slot_asset, slot_reference.
      rewrite Htp. repeat split; try done. by rewrite Ho. }
  destruct Hhero as (cr1 & n1 & ps1 & Hrun1 & Hp1 & Hu1 & Hlog1 & Hsub1 & Hall1).
  assert (Hlogo : ∃ cr2 n2 ps2,
            match logoImage c with
            | Some url => if truthy url
                          then attempt_slot P env (js "Logo image") url (name c)
                                 (js "logo") 400 cr1
                          else mret cr1
            | None => mret cr1
            end n1 = (Ok cr2, n2)
            ∧ processed cr2 = processed cr1 ++ ps2
            ∧ cloudinaryUrls cr2 = cloudinaryUrls cr1 ++ (cloudinaryUrl <$> ps2)
            ∧ airtable_log n2 = airtable_log n1
            ∧ type <$> ps2 `sublist_of` [js "logo"]
            ∧ Forall (slot_asset c) ps2).
  { destruct (logoImage c) as [url|] eqn:Hl;
      [destruct (truthy url)|];
      [|exists cr1, n1, []; rewrite !app_nil_r; repeat split; try done;
        apply sublist_nil_l..].
    destruct (attempt_slot_asset (js "Logo image") url (name c) (js "logo") 400 cr1 n1)
      as (cr2 & n2 & ps2 & Hrun & Hp & Hu & Hlog & Hps).
    exists cr2, n2, ps2. repeat split; try done.
    - destruct Hps as [->|(p & -> & _ & Htp & _)]; [apply sublist_nil_l|].
      simpl. by rewrite Htp.
    - destruct Hps as [->|(p & -> & Ho & Htp & Hf & Ha & Hfm)]; [done|].
      constructor; [|done]. unfold slot_asset, slot_reference.
      rewrite Htp. repeat split; try done. by rewrite Ho. }
  destruct Hlogo as (cr2 & n2 & ps2 & Hrun2 & Hp2 & Hu2 & Hlog2 & Hsub2 & Hall2).
  destruct (gallery_loop_assets (name c) (galleryImages c) 0 cr2 n2)
    as (cr3 & n3 & ps3 & Hrun3 & Hp3 & Hu3 & Hlog3 & Hsub3 & Hall3).
  exists cr3, n3.
  split; [by rewrite (bind_Ok _ _ _ _ _ Hrun1), (bind_Ok _ _ _ _ _ Hrun2)|].
  split; [by rewrite Hu3, Hp3, Hu2, Hp2, Hu1, Hp1, !fmap_app|].
  split.
  { rewrite Hp3, Hp2, Hp1, !fmap_app, <- app_assoc.
    change slot_types with ([js "hero"] ++ [js "logo"] ++ gallery_types).
    apply sublist_app; [done|]. by apply sublist_app. }
  split; [|congruence].
  rewrite Hp3, Hp2, Hp1. apply Forall_app. split; [apply Forall_app; by split|].
  eapply Forall_impl; [exact Hall3|].
  intros p ((j & Hj & Hr) & Hf & Ha & Hfm). unfold slot_asset, slot_reference.
  destruct (gallery_index_not_hero_logo _ _ Hj) as [-> ->].
  rewrite Hj. simpl. done.
Qed.

(** X6: the club loop always returns a result for a club, and the assets
    of that result are in slot order without repetition (hero, logo,
    gallery-1 to gallery-4), each made from the reference the club has in
    its slot and named and captioned after the cleaned name and the slot;
    [cloudinaryUrls] lists the published URLs of the assets in the same
    order; processing a club makes no Airtable exchange. *)
Theorem process_club_assets c n :
  ∃ r n',
    process_club P env c n = (Ok r, n')
    ∧ cloudinaryUrls r = cloudinaryUrl <$> processed r
    ∧ type <$> processed r `sublist_of` slot_types
    ∧ Forall (slot_asset c) (processed r)
    ∧ airtable_log n' = airtable_log n.
Proof. apply process_club_assets_run. Qed.

Lemma bind_ext {A B} (m : M World A) (k k' : A → M World B) n :
  (∀ a n', k a n' = k' a n') → (m ≫= k) n = (m ≫= k') n.
Proof.
  intros Hk. unfold mbind, M_bind. by destruct (m n) as [[a|e] n'].
Qed.

Lemma gallery_loop_take clubName remaining : ∀ i cr n,
  gallery_loop P env clubName i (take (4 - i) remaining) cr n
  = gallery_loop P env clubName i remaining cr n.
Proof.
  induction remaining as [|galleryUrl rest IH]; intros i cr n.
  - by rewrite take_nil.
  - destruct (i <? 4)%nat eqn:Hi.
    + pose proof Hi as Hlt. apply Nat.ltb_lt in Hlt.
      replace (4 - i)%nat with (S (4 - (i + 1))) by lia.
      cbn [take gallery_loop]. rewrite Hi.
      unfold mbind, M_bind.
      destruct (truthy galleryUrl).
      * destruct (attempt_slot _ _ _ _ _ _ _ _ n) as [[cr1|e] n1]; [|done]. apply IH.
      * simpl. apply IH.
    + cbn [gallery_loop]. rewrite Hi.
      apply Nat.ltb_ge in Hi. replace (4 - i)%nat with 0%nat by lia. done.
Qed.

(** X7: gallery entries after the fourth are never looked at: a club and
    the same club with its gallery cut to four entries are processed
    alike, from any state. *)
Theorem process_club_reads_four_gallery_entries c n :
  process_club P env (cap_gallery c) n = process_club P env c n.
Proof.
  unfold process_club, cap_gallery. cbn [name originalName heroImage logoImage
    galleryImages submissionId email].
  apply bind_ext. intros cr1 n1. apply bind_ext. intros cr2 n2.
  apply (gallery_loop_take (name c) (galleryImages c) 0).
Qed.

(** Without the Cloudinary configuration a transform fails at once. *)
Lemma transform_not_configured msg imageUrl clubName imageType targetWidth n :
  cloudinary_configured env = false →
  processImageToCloudinary P env msg imageUrl clubName imageType targetWidth n
  = (Throw (new_Error msg), n).
Proof.
  intros Hc. unfold processImageToCloudinary. rewrite try_catch_rethrow.
  by rewrite Hc.
Qed.

Lemma attempt_slot_not_configured label imageUrl clubName imageType targetWidth cr n :
  cloudinary_configured env = false →
  attempt_slot P env label imageUrl clubName imageType targetWidth cr n
  = (Ok (push_error cr (label ++ js ": " ++ cloudinary_not_configured_csv)), n).
Proof.
  intros Hc. unfold attempt_slot.
  rewrite (try_catch_Throw _ _ n (new_Error cloudinary_not_configured_csv) n); [done|].
  apply bind_Throw. by apply transform_not_configured.
Qed.

Lemma gallery_loop_not_configured clubName remaining :
  cloudinary_configured env = false →
  ∀ i cr n, ∃ cr',
    gallery_loop P env clubName i remaining cr n = (Ok cr', n)
    ∧ processed cr' = processed cr ∧ cloudinaryUrls cr' = cloudinaryUrls cr
    ∧ airtableUpdate cr' = airtableUpdate cr
    ∧ ∃ es, errors cr' = errors cr ++ es
            ∧ Forall (λ m, ∃ label, m = label ++ js ": " ++ cloudinary_not_configured_csv) es.
Proof.
  intros Hc. induction remaining as [|galleryUrl rest IH]; intros i cr n; simpl.
  - exists cr. repeat split; try done. exists []. by rewrite app_nil_r.
  - destruct (i <? 4)%nat;
      [|exists cr; repeat split; try done; exists []; by rewrite app_nil_r].
    destruct (truthy galleryUrl).
    + rewrite (bind_Ok _ _ _ _ _ (attempt_slot_not_configured _ _ _ _ _ _ _ Hc)).
      destruct (IH (i + 1)%nat
                  (push_error cr ((js "Gallery image " ++ show (N.of_nat (i + 1)))
                                  ++ js ": " ++ cloudinary_not_configured_csv)) n)
        as (cr' & Hrun & Hp & Hu & Ha & es & He & Hes).
      exists cr'. repeat split; try done.
      exists (((js "Gallery image " ++ show (N.of_nat (i + 1)))
               ++ js ": " ++ cloudinary_not_configured_csv) :: es).
      split; [by rewrite He; simpl; rewrite <- app_assoc|].
      constructor; [by eexists|done].
    + rewrite (bind_Ok _ _ _ _ _ (mret_run cr n)). apply IH.
Qed.
End ClubAssets.

Section NotConfigured.
Context {World : Type} (P : platform World) (env : environment).
Hypothesis not_configured : cloudinary_configured env = false.

Lemma process_club_not_configured c n :
  ∃ r, process_club P env c n = (Ok r, n)
       ∧ processed r = [] ∧ cloudinaryUrls r = [] ∧ airtableUpdate r = None
       ∧ length (errors r) = slot_count c
       ∧ Forall (λ m, ∃ label, m = label ++ js ": " ++ cloudinary_not_configured_csv)
                (errors r).
Proof.
  destruct (process_club_run P env c n) as (r0 & n0 & Hrun0 & _ & Hcount).
  unfold process_club in *.
  set (cr0 := {| r_name := originalName c; cleanName := name c;
                 r_submissionId := submissionId c; r_email := email c;
                 processed := []; errors := []; cloudinaryUrls := [];
                 airtableUpdate := None |}) in *.
  assert (Hhero : ∃ cr1,
            match heroImage c with
            | Some url => if truthy url
                          then attempt_slot P env (js "Hero image") url (name c)
                                 (js "hero") 1600 cr0
                          else mret cr0
            | None => mret cr0
            end n = (Ok cr1, n)
            ∧ processed cr1 = [] ∧ cloudinaryUrls cr1 = [] ∧ airtableUpdate cr1 = None
            ∧ Forall (λ m, ∃ label, m = label ++ js ": " ++ cloudinary_not_configured_csv)
                     (errors cr1)).
  { destruct (heroImage c) as [url|]; [destruct (truthy url)|];
      [|by exists cr0..].
    rewrite (attempt_slot_not_configured P env _ _ _ _ _ _ _ not_configured).
    eexists. split; [done|]. simpl. repeat split; try done.
    constructor; [by exists (js "Hero image")|done]. }
  destruct Hhero as (cr1 & Hrun1 & Hp1 & Hu1 & Ha1 & He1).
  assert (Hlogo : ∃ cr2,
            match logoImage c with
            | Some url => if truthy url
                          then attempt_slot P env (js "Logo image") url (name c)
                                 (js "logo") 400 cr1
                          else mret cr1
            | None => mret cr1
            end n = (Ok cr2, n)
            ∧ processed cr2 = [] ∧ cloudinaryUrls cr2 = [] ∧ airtableUpdate cr2 = None
            ∧ Forall (λ m, ∃ label, m = label ++ js ": " ++ cloudinary_not_configured_csv)
                     (errors cr2)).
  { destruct (logoImage c) as [url|]; [destruct (truthy url)|];
      [|by exists cr1..].
    rewrite (attempt_slot_not_configured P env _ _ _ _ _ _ _ not_configured).
    eexists. split; [done|]. simpl. repeat split; try done.
    apply Forall_app. split; [done|]. constructor; [by exists (js "Logo image")|done]. }
  destruct Hlogo as (cr2 & Hrun2 & Hp2 & Hu2 & Ha2 & He2).
  destruct (gallery_loop_not_configured P env (name c) (galleryImages c)
              not_configured 0 cr2 n)
    as (cr3 & Hrun3 & Hp3 & Hu3 & Ha3 & es & He3 & Hes).
  assert (Hrun : (x ← match heroImage c with
                      | Some url => if truthy url
                                    then attempt_slot P env (js "Hero image") url (name c)
                                           (js "hero") 1600 cr0
                                    else mret cr0
                      | None => mret cr0
                      end;
                  y ← match logoImage c with
                      | Some url => if truthy url
                                    then attempt_slot P env (js "Logo image") url (name c)
                                           (js "logo") 400 x
                                    else mret x
                      | None => mret x
                      end;
                  gallery_loop P env (name c) 0 (galleryImages c) y) n = (Ok cr3, n)).
  { by rewrite (bind_Ok _ _ _ _ _ Hrun1), (bind_Ok _ _ _ _ _ Hrun2). }
  exists cr3. split; [done|].
  rewrite Hrun in Hrun0. injection Hrun0 as <- <-.
  split; [congruence|]. split; [congruence|]. split; [congruence|].
  split; [rewrite <- Hcount, Hp3, Hp2; simpl; lia|].
  rewrite He3. apply Forall_app. by split.
Qed.

Lemma reconcile_nothing_processed v results (n : net World) :
  Forall (λ r, processed r = []) results →
  for_each (reconcile_result P v) results n = (Ok results, n).
Proof.
  induction 1 as [|r results Hr _ IH]; simpl; [done|].
  assert (Hone : reconcile_result P v r n = (Ok r, n)).
  { unfold reconcile_result. by rewrite Hr. }
  by rewrite (bind_Ok _ _ _ _ _ Hone), (bind_Ok _ _ _ _ _ IH).
Qed.

(** X8: when Cloudinary is not configured the pipeline touches nothing:
    it ends in the state it started from (no download, no upload, no
    Airtable exchange, whether Airtable is configured or not) and returns
    one result per club, without assets or Airtable update, holding one
    error message for every slot of the club, each ending in the
    configuration message. *)
Theorem pipeline_without_cloudinary v clubs (n : net World) :
  ∃ results,
    run_pipeline P env v clubs n = (Ok results, n)
    ∧ Forall2 (λ c r, processed r = [] ∧ cloudinaryUrls r = []
                      ∧ airtableUpdate r = None
                      ∧ length (errors r) = slot_count c
                      ∧ Forall (λ m, ∃ label,
                                  m = label ++ js ": " ++ cloudinary_not_configured_csv)
                               (errors r)) clubs results.
Proof.
  assert (Hclubs : ∀ n0 : net World, ∃ results,
            process_clubs P env clubs n0 = (Ok results, n0)
            ∧ Forall2 (λ c r, processed r = [] ∧ cloudinaryUrls r = []
                              ∧ airtableUpdate r = None
                              ∧ length (errors r) = slot_count c
                              ∧ Forall (λ m, ∃ label,
                                          m = label ++ js ": " ++ cloudinary_not_configured_csv)
                                       (errors r)) clubs results).
  { unfold process_clubs. induction clubs as [|c rest IH]; intros n0; simpl.
    - exists []. split; [done|constructor].
    - destruct (process_club_not_configured c n0) as (r & Hr & Hfacts).
      destruct (IH n0) as (rs & Hrs & Hall).
      exists (r :: rs). split; [|by constructor].
      by rewrite (bind_Ok _ _ _ _ _ Hr), (bind_Ok _ _ _ _ _ Hrs). }
  destruct (Hclubs n) as (results & Hrun & Hall).
  exists results. split; [|done].
  unfold run_pipeline. rewrite (bind_Ok _ _ _ _ _ Hrun).
  unfold reconcile_all. destruct (airtable_configured env); [|done].
  apply reconcile_nothing_processed.
  clear Hrun Hclubs.
  induction Hall as [|c r cs rs Hcr _ IH];
    [apply Forall_nil_2|apply Forall_cons_2; [apply Hcr|apply IH]].
Qed.
End NotConfigured.

Lemma pipeline_without_cloudinary_witness :
  cloudinary_configured bare_env = false
  ∧ ∃ results,
      run_pipeline demo_platform bare_env CsvServer [demo_club] net0 = (Ok results, net0)
      ∧ Forall2 (λ c r, processed r = [] ∧ cloudinaryUrls r = []
                        ∧ airtableUpdate r = None
                        ∧ length (errors r) = slot_count c
                        ∧ Forall (λ m, ∃ label,
                                    m = label ++ js ": " ++ cloudinary_not_configured_csv)
                                 (errors r)) [demo_club] results.
Proof.
  split; [reflexivity|].
  apply (pipeline_without_cloudinary demo_platform bare_env). reflexivity.
Defined.

(** ** Storage keys *)

Lemma suffix_last_two (cn cn' s s' : list N) :
  (2 ≤ length s)%nat → (2 ≤ length s')%nat → cn ++ s = cn' ++ s' →
  take 2 (reverse s) = take 2 (reverse s').
Proof.
  intros Hs Hs' Heq. apply (f_equal (λ t, take 2 (reverse t))) in Heq.
  rewrite !reverse_app in Heq.
  by rewrite !take_app_le in Heq by (by rewrite length_reverse).
Qed.

(** X9: the storage key requested for an asset determines the cleaned
    name and the slot: two uploads of the six slots ask for the same
    [public_id] only when they are for the same cleaned name and the same
    slot. *)
Theorem storage_key_injective clubName clubName' imageType imageType' :
  imageType ∈ slot_types → imageType' ∈ slot_types →
  opt_public_id (upload_options_for clubName imageType)
  = opt_public_id (upload_options_for clubName' imageType') →
  clubName = clubName' ∧ imageType = imageType'.
Proof.
  intros Hty Hty' Hkey.
  unfold upload_options_for, upload_filename in Hkey. cbn [opt_public_id] in Hkey.
  apply app_inv_head in Hkey.
  unfold slot_types, gallery_types in Hty, Hty'.
  rewrite !elem_of_cons, elem_of_nil in Hty, Hty'.
  assert (Hlast : take 2 (reverse (js "-" ++ imageType))
                  = take 2 (reverse (js "-" ++ imageType'))).
  { apply (suffix_last_two clubName clubName'); [| |done].
    - destruct Hty as [->|[->|[->|[->|[->|[->|[]]]]]]]; vm_compute; lia.
    - destruct Hty' as [->|[->|[->|[->|[->|[->|[]]]]]]]; vm_compute; lia. }
  assert (Hsame : imageType = imageType').
  { destruct Hty as [->|[->|[->|[->|[->|[->|[]]]]]]];
      destruct Hty' as [->|[->|[->|[->|[->|[->|[]]]]]]];
      first [reflexivity | by vm_compute in Hlast]. }
  subst imageType'. split; [|done]. by apply app_inv_tail in Hkey.
Qed.

Lemma storage_key_injective_witness :
  js "chess-club" = js "chess-club" ∧ js "gallery-2" = js "gallery-2".
Proof.
  apply storage_key_injective.
  - unfold slot_types, gallery_types. rewrite !elem_of_cons. tauto.
  - unfold slot_types, gallery_types. rewrite !elem_of_cons. tauto.
  - reflexivity.
Defined.

(** ** A matched record *)

(** A chain that ends on a response ends on its last exchange. *)
Lemma chain_run_result plan last xs resp :
  chain_run plan last xs (Ok (Some resp)) →
  (xs = [] ∧ last = Some resp)
  ∨ ∃ formula, list.last xs = Some (SearchX formula (Ok resp)).
Proof.
  remember (Ok (Some resp)) as res eqn:Hres. intros Hrun. revert Hres.
  induction Hrun as [last|f rest last e|f rest last resp' _
                     |f rest last resp' xs res _ Hrun IH]; intros Hres.
  - injection Hres as ->. by left.
  - done.
  - injection Hres as ->. right. by exists f.
  - right. destruct (IH Hres) as [[-> [= ->]]|[formula Hlast]].
    + by exists f.
    + exists formula. destruct xs as [|x xs]; [done|exact Hlast].
Qed.

Section MatchedRecord.
Context {World : Type} (P : platform World) (env : environment).
Implicit Types (n : net World) (r : club_result) (v : variant).

Lemma updateAirtableRecord_Ok v r n u n' :
  updateAirtableRecord P v r n = (Ok u, n') →
  ∃ xs formula resp now presp,
    airtable_log n'
    = airtable_log n ++ xs
      ++ [PatchX (recordId u) (build_update_fields v now (processed r)) (Ok presp)]
    ∧ list.last xs = Some (SearchX formula (Ok resp))
    ∧ is_hit resp = true
    ∧ head (s_records resp) = Some (recordId u)
    ∧ p_ok presp = true
    ∧ success u = true
    ∧ fieldsUpdated u = size (build_update_fields v now (processed r)).
Proof.
  rewrite updateAirtableRecord_run.
  destruct (fallback_chain_trace P (search_plan r) None n) as (xs & Hlog & Hrun).
  destruct (fallback_chain P (search_plan r) None n) as [[[resp|]|e] n1];
    simpl in *; [|done..].
  destruct (s_ok resp) eqn:Hok; simpl; [|done].
  destruct (length (s_records resp) =? 0)%nat eqn:Hlen; [done|].
  apply Nat.eqb_neq in Hlen.
  destruct (airtable_patch P _ _ (world n1)) as [[presp|e] w] eqn:Hpatch;
    simpl; [|done].
  destruct (p_ok presp) eqn:Hpok; simpl; [|done].
  intros [= <- <-]. simpl.
  destruct (chain_run_result _ _ _ _ Hrun) as [[_ [=]]|[formula Hlast]].
  exists xs, formula, resp, (now_iso P (world n1)), presp.
  split; [by rewrite Hlog, <- app_assoc|]. split; [done|].
  split; [unfold is_hit; rewrite Hok; simpl; apply Nat.ltb_lt; lia|].
  split; [by destruct (s_records resp)|]. done.
Qed.

(** X10: when [updateAirtableRecord] returns, it has issued exactly one
    PATCH, as its last request, answered OK, right after a search that was
    answered OK with at least one record; the PATCH targets the first record
    of that search and carries the update map of the result's assets; the
    returned info has [success] true, that record's id and the number of
    fields of the map.  The handler stores the info in [airtableUpdate] and
    leaves the rest of the result as it was. *)
Theorem matched_record_is_patched v r n u n' :
  updateAirtableRecord P v r n = (Ok u, n') →
  (∃ xs formula resp now presp,
     airtable_log n'
     = airtable_log n ++ xs
       ++ [PatchX (recordId u) (build_update_fields v now (processed r)) (Ok presp)]
     ∧ list.last xs = Some (SearchX formula (Ok resp))
     ∧ is_hit resp = true
     ∧ head (s_records resp) = Some (recordId u)
     ∧ p_ok presp = true
     ∧ success u = true
     ∧ fieldsUpdated u = size (build_update_fields v now (processed r)))
  ∧ ((0 < length (processed r))%nat →
     reconcile_result P v r n = (Ok (set_airtableUpdate r u), n')).
Proof.
  intros Hrun. split; [by apply updateAirtableRecord_Ok|].
  intros Hlen. unfold reconcile_result.
  apply Nat.ltb_lt in Hlen. rewrite Hlen.
  apply try_catch_Ok. by rewrite (bind_Ok _ _ _ _ _ Hrun).
Qed.

(** Every search of a chain is one of the planned ones. *)
Lemma chain_run_length plan last xs res :
  chain_run plan last xs res → (length xs ≤ length plan)%nat.
Proof.
  induction 1 as [last|f rest last e|f rest last resp' _
                  |f rest last resp' xs res _ _ IH]; simpl; lia.
Qed.

Lemma search_plan_length r : (length (search_plan r) ≤ 3)%nat.
Proof.
  unfold search_plan. rewrite length_app.
  pose proof (prefix_length _ _ (name_plan_prefix r)) as Hname. simpl in Hname.
  destruct (nonblank (r_submissionId r)); simpl; lia.
Qed.

Lemma updateAirtableRecord_requests v r n :
  ∃ xs, airtable_log (updateAirtableRecord P v r n).2 = airtable_log n ++ xs
        ∧ (length xs ≤ 4)%nat.
Proof.
  destruct (updateAirtableRecord_trace P v r n) as (xs & ys & Hlog & Hrun & Hys).
  exists (xs ++ ys). split; [done|]. rewrite length_app.
  pose proof (chain_run_length _ _ _ _ Hrun) as Hxs.
  pose proof (search_plan_length r) as Hplan.
  destruct Hys as [->|(rid & w & o & ->)]; simpl; lia.
Qed.

Lemma reconcile_result_requests v r n :
  ∃ r' n' xs, reconcile_result P v r n = (Ok r', n')
              ∧ airtable_log n' = airtable_log n ++ xs
              ∧ (length xs ≤ if (0 <? length (processed r))%nat then 4 else 0)%nat.
Proof.
  unfold reconcile_result. destruct (0 <? length (processed r))%nat.
  - destruct (updateAirtableRecord_requests v r n) as (xs & Hlog & Hlen).
    destruct (updateAirtableRecord P v r n) as [[u|e] n1] eqn:Hrun; simpl in Hlog.
    + eexists _, n1, xs. split; [|done].
      apply try_catch_Ok. by rewrite (bind_Ok _ _ _ _ _ Hrun).
    + eexists _, n1, xs. split; [|done].
      by rewrite (try_catch_Throw _ _ n e n1); [|rewrite (bind_Throw _ _ _ _ _ Hrun)].
  - exists r, n, []. by rewrite app_nil_r.
Qed.

(** X11: the reconciliation loop makes at most four Airtable requests (three
    searches and one PATCH) for a result with assets and none for a result
    without; when Airtable is not configured it makes none at all and
    returns the results as they are. *)
Theorem reconcile_all_request_bound v results n :
  (∃ results' n' xs,
     reconcile_all P env v results n = (Ok results', n')
     ∧ airtable_log n' = airtable_log n ++ xs
     ∧ (length xs
        ≤ 4 * length (filter (λ r, (0 < length (processed r))%nat) results))%nat)
  ∧ (airtable_configured env = false →
     reconcile_all P env v results n = (Ok results, n)).
Proof.
  split; [|by unfold reconcile_all; intros ->].
  unfold reconcile_all. destruct (airtable_configured env);
    [|exists results, n, []; rewrite app_nil_r; repeat split; simpl; lia].
  revert n. induction results as [|r rest IH]; intros n; simpl.
  - exists [], n, []. by rewrite app_nil_r.
  - destruct (reconcile_result_requests v r n) as (r' & n1 & xs1 & Hr & Hlog1 & Hlen1).
    destruct (IH n1) as (rs' & n2 & xs2 & Hrs & Hlog2 & Hlen2).
    exists (r' :: rs'), n2, (xs1 ++ xs2).
    split; [by rewrite (bind_Ok _ _ _ _ _ Hr), (bind_Ok _ _ _ _ _ Hrs)|].
    split; [by rewrite Hlog2, Hlog1, <- app_assoc|].
    rewrite length_app.
    destruct (decide (0 < length (processed r))%nat) as [Hpos|Hzero].
    + rewrite filter_cons_True by done. simpl.
      apply Nat.ltb_lt in Hpos. rewrite Hpos in Hlen1. lia.
    + rewrite filter_cons_False by done.
      apply Nat.ltb_nlt in Hzero. rewrite Hzero in Hlen1. lia.
Qed.
End MatchedRecord.

Lemma matched_record_is_patched_witness :
  ∃ u n',
    updateAirtableRecord demo_platform CsvServer blank_id_result net0 = (Ok u, n')
    ∧ reconcile_result demo_platform CsvServer blank_id_result net0
      = (Ok (set_airtableUpdate blank_id_result u), n')
    ∧ recordId u = js "rec1".
Proof.
  eexists _, _. split; [vm_compute; reflexivity|].
  split; [|reflexivity].
  apply (matched_record_is_patched demo_platform); [vm_compute; reflexivity|].
  simpl. lia.
Defined.

(** ** The aggregate gallery field *)

Lemma omap_replicate_None {A} (k : nat) :
  omap id (replicate k (None : option A)) = [].
Proof. induction k as [|k IH]; [done|]. simpl. exact IH. Qed.

Lemma compact_array_set (g : list (option (list N))) i url :
  (length g ≤ i)%nat →
  compact (array_set g i url) = compact g ++ filter (λ u, truthy u = true) [url]
  ∧ length (array_set g i url) = S i.
Proof.
  intros Hlen. unfold array_set.
  destruct (decide (i < length g)%nat) as [Hlt|_]; [lia|].
  split.
  - unfold compact. rewrite !omap_app, omap_replicate_None. simpl.
    by rewrite filter_app.
  - rewrite !length_app, length_replicate. simpl. lia.
Qed.

Lemma slot_types_index k t :
  slot_types !! k = Some t →
  gallery_index t = (if (k <? 2)%nat then None else Some (k - 2)%nat)
  ∧ is_gallery_type t = negb (k <? 2)%nat.
Proof.
  intros Ht. do 6 (destruct k as [|k]; [injection Ht as <-; by vm_compute|]).
  done.
Qed.

Lemma fold_gallery_order slots : ∀ ps k (m : gmap string field_value) g,
  slots = drop k slot_types →
  type <$> ps `sublist_of` slots →
  (length g ≤ k - 2)%nat →
  compact (foldl add_processed (m, g) ps).2
  = compact g ++ filter (λ u, truthy u = true) (cloudinaryUrl <$> gallery_assets ps).
Proof.
  induction slots as [|t slots IH]; intros ps k m g Hslots Hsub Hlen.
  - apply sublist_nil_r, fmap_nil_inv in Hsub. subst ps. simpl.
    by rewrite app_nil_r.
  - assert (Hk : slot_types !! k = Some t ∧ slots = drop (S k) slot_types).
    { split.
      - rewrite <- (Nat.add_0_r k), <- lookup_drop, <- Hslots. done.
      - replace (S k) with (k + 1)%nat by lia. by rewrite <- drop_drop, <- Hslots. }
    destruct Hk as [Ht Hrest].
    apply sublist_cons_r in Hsub as [Hsub|(ts & Hps & Hsub)].
    + apply (IH ps (S k) m g Hrest Hsub). lia.
    + destruct ps as [|p ps]; [done|]. injection Hps as Htp <-.
      cbn [foldl]. rewrite add_processed_normal.
      destruct (slot_types_index k t Ht) as [Hidx Hgal]. rewrite Htp, Hidx.
      unfold gallery_assets.
      destruct (k <? 2)%nat eqn:Hk2; simpl in Hgal.
      * rewrite filter_cons_False by (rewrite Htp, Hgal; done).
        apply (IH ps (S k) _ g Hrest Hsub). lia.
      * apply Nat.ltb_ge in Hk2.
        rewrite filter_cons_True by (rewrite Htp, Hgal; done).
        destruct (compact_array_set g (k - 2) (cloudinaryUrl p) Hlen) as [Hc Hl].
        rewrite (IH ps (S k) _ _ Hrest Hsub) by (rewrite Hl; lia).
        rewrite Hc, fmap_cons, <- app_assoc. f_equal.
        destruct (cloudinaryUrl p); simpl;
          [by rewrite filter_cons_False|by rewrite filter_cons_True].
Qed.

(** The aggregate gallery field of the update map, for assets in slot order. *)
Lemma gallery_field_value v now ps :
  type <$> ps `sublist_of` slot_types →
  build_update_fields v now ps !! gallery_key v
  = match gallery_assets ps with
    | [] => None
    | gs => Some (gallery_value v
                    (filter (λ u, truthy u = true) (cloudinaryUrl <$> gs)))
    end.
Proof.
  intros Hsub.
  pose proof (fold_gallery_order slot_types ps 0 ∅ [] eq_refl Hsub
                ltac:(simpl; lia)) as Hcompact.
  destruct (fold_add_processed ps ∅ []) as (H1 & _ & _ & H4).
  unfold build_update_fields.
  destruct (foldl add_processed (∅, []) ps) as [mf g]. simpl in *.
  assert (Hmf : mf !! gallery_key v = None).
  { destruct (mf !! gallery_key v) as [val|] eqn:Hk; [|done].
    apply H1 in Hk as [Hk|(p & _ & Hf)]; [done|].
    apply slot_fields_names in Hf. unfold slot_field_names in Hf.
    rewrite !elem_of_cons, elem_of_nil in Hf.
    destruct v; simpl in Hf; repeat (destruct Hf as [[=]|Hf]); done. }
  assert (Hg : (0 <? length g)%nat
               = match gallery_assets ps with [] => false | _ => true end).
  { destruct (gallery_assets ps) as [|p gs] eqn:Hgs.
    - apply Nat.ltb_ge. destruct (decide (0 < length g)%nat) as [Hpos|]; [|lia].
      apply H4 in Hpos as [Hpos|(p & Hp & Hty)]; [simpl in Hpos; lia|].
      assert (p ∈ gallery_assets ps) as Hin
        by (by apply list_elem_of_filter).
      rewrite Hgs in Hin. by apply elem_of_nil in Hin.
    - apply Nat.ltb_lt, H4. right. exists p.
      assert (p ∈ gallery_assets ps) as Hin by (rewrite Hgs; left).
      by apply list_elem_of_filter in Hin as [? ?]. }
  rewrite Hg, Hcompact.
  destruct (gallery_assets ps) as [|p gs]; destruct v; simpl;
    by simplify_map_eq.
Qed.

(** X12: for assets in slot order (as the club loop produces them) the
    aggregate gallery field of the update map holds the published URLs of
    the gallery assets, in slot order, empty URLs left out; there is no such
    field when there is no gallery asset. *)
Theorem gallery_field_in_slot_order v now ps :
  type <$> ps `sublist_of` slot_types →
  build_update_fields v now ps !! gallery_key v
  = match gallery_assets ps with
    | [] => None
    | gs => Some (gallery_value v
                    (filter (λ u, truthy u = true) (cloudinaryUrl <$> gs)))
    end.
Proof. intros Hsub. by apply gallery_field_value. Qed.

Lemma gallery_field_in_slot_order_witness :
  build_update_fields WebhookServer [] [demo_logo_asset; demo_gallery_asset]
    !! gallery_key WebhookServer
  = Some (FAttachments [cloudinaryUrl demo_gallery_asset]).
Proof.
  apply (gallery_field_in_slot_order WebhookServer []
           [demo_logo_asset; demo_gallery_asset]).
  simpl. apply sublist_cons, sublist_skip, sublist_cons, sublist_skip, sublist_nil_l.
Defined.

(** ** The update map of a result *)

Lemma NoDup_fmap_elem {A B} (f : A → B) (l : list A) x y :
  NoDup (f <$> l) → x ∈ l → y ∈ l → f x = f y → x = y.
Proof.
  intros Hnd Hx Hy Hf.
  apply list_elem_of_lookup in Hx as [i Hi]. apply list_elem_of_lookup in Hy as [j Hj].
  assert (Hij : i = j).
  { apply (NoDup_lookup (f <$> l) i j (f x)); [done| |].
    - by rewrite list_lookup_fmap, Hi.
    - by rewrite list_lookup_fmap, Hj, Hf. }
  subst j. congruence.
Qed.

Lemma keyed_fields_slot (t : list N) (l : list (string * field_value)) k val :
  NoDup l.*1 → Forall (λ kv, field_slot kv.1 = Some t) l →
  (k, val) ∈ l →
  field_slot k = Some t ∧ ∀ val', (k, val') ∈ l → val' = val.
Proof.
  intros Hnd Hall Hin. split.
  - rewrite Forall_forall in Hall. exact (Hall _ Hin).
  - intros val' Hin'.
    apply list_elem_of_lookup in Hin as [i Hi]. apply list_elem_of_lookup in Hin' as [j Hj].
    assert (i = j) as <-.
    { apply (NoDup_lookup l.*1 i j k); [done| |].
      - by rewrite list_lookup_fmap, Hi.
      - by rewrite list_lookup_fmap, Hj. }
    congruence.
Qed.

(** The name of a field written by an asset tells the slot of the asset,
    and an asset writes one value under each of its names. *)
Lemma slot_fields_slot p k val :
  (k, val) ∈ slot_fields p →
  field_slot k = Some (type p)
  ∧ ∀ val', (k, val') ∈ slot_fields p → val' = val.
Proof.
  unfold slot_fields.
  do 6 (match goal with
        | |- context [str_eqb (type p) ?t] =>
            destruct (str_eqb (type p) t) eqn:?;
            [match goal with
             | H : str_eqb _ _ = true |- _ => apply bool_decide_eq_true in H; rewrite H
             end;
             apply keyed_fields_slot;
             [apply (bool_decide_unpack _); by vm_compute
             |repeat (apply Forall_cons_2; [reflexivity|]); apply Forall_nil_2]|]
        end).
  by intros Hin; apply elem_of_nil in Hin.
Qed.

Lemma field_slot_names k t : field_slot k = Some t → k ∈ slot_field_names.
Proof.
  unfold field_slot, slot_field_names. rewrite !elem_of_cons.
  repeat (case_decide; [subst k; tauto|]). done.
Qed.

Lemma named_field_not_aggregate v now k :
  k ∈ slot_field_names → k ≠ gallery_key v ∧ k ∉ (markers now).*1.
Proof.
  unfold slot_field_names, markers. rewrite !elem_of_cons, elem_of_nil.
  intros Hk. split.
  - intros ->. destruct v; simpl in Hk;
      repeat (destruct Hk as [[=]|Hk]); done.
  - simpl. rewrite !elem_of_cons, elem_of_nil. intros Hm.
    repeat (destruct Hk as [->|Hk];
            [repeat (destruct Hm as [[=]|Hm]); done|]); done.
Qed.

Section UpdateMapFacts.
Context {World : Type} (P : platform World).
Implicit Types (n : net World) (r : club_result) (v : variant).

(** A field that no asset, aggregate or marker is written under is not in
    the map. *)
Lemma build_update_fields_other v now ps k :
  k ∉ slot_field_names → k ≠ gallery_key v → k ∉ (markers now).*1 →
  build_update_fields v now ps !! k = None.
Proof.
  intros Hslot Hagg Hmark.
  destruct (build_update_fields v now ps !! k) as [val|] eqn:Hk; [|done].
  apply build_update_fields_origin in Hk as [(p & _ & Hf)|[(-> & _)|(_ & Hm)]].
  - by apply slot_fields_names in Hf.
  - done.
  - exfalso. apply Hmark. apply list_elem_of_fmap. by exists (k, val).
Qed.

(** A slot without an asset has none of its fields in the map. *)
Lemma build_update_fields_absent v now ps k t :
  field_slot k = Some t → (∀ p, p ∈ ps → type p ≠ t) →
  build_update_fields v now ps !! k = None.
Proof.
  intros Hslot Hnone.
  destruct (named_field_not_aggregate v now k (field_slot_names _ _ Hslot))
    as [Hagg Hmark].
  destruct (build_update_fields v now ps !! k) as [val|] eqn:Hk; [|done].
  apply build_update_fields_origin in Hk as [(p & Hp & Hf)|[(-> & _)|(_ & Hm)]].
  - apply slot_fields_slot in Hf as [Hf _]. rewrite Hslot in Hf.
    injection Hf as ->. by destruct (Hnone p Hp).
  - done.
  - exfalso. apply Hmark. apply list_elem_of_fmap. by exists (k, val).
Qed.

(** For assets in slot order every asset has its own values under its
    field names. *)
Lemma build_update_fields_exact v now ps p k val :
  type <$> ps `sublist_of` slot_types →
  p ∈ ps → (k, val) ∈ slot_fields p →
  build_update_fields v now ps !! k = Some val.
Proof.
  intros Hsub Hp Hf.
  assert (Hnd : NoDup (type <$> ps)).
  { eapply sublist_NoDup; [|exact Hsub]. apply (bool_decide_unpack _). by vm_compute. }
  destruct (slot_fields_slot _ _ _ Hf) as [Hslot Hval].
  destruct (named_field_not_aggregate v now k (field_slot_names _ _ Hslot))
    as [Hagg Hmark].
  destruct (proj1 (build_update_fields_written v now ps p Hp) k val Hf) as [val' Hk].
  rewrite Hk. f_equal.
  apply build_update_fields_origin in Hk as [(p' & Hp' & Hf')|[(-> & _)|(_ & Hm)]].
  - destruct (slot_fields_slot _ _ _ Hf') as [Hslot' _].
    rewrite Hslot in Hslot'. injection Hslot' as Hty.
    assert (p = p') as <- by (by eapply (NoDup_fmap_elem type ps)).
    by apply Hval.
  - done.
  - exfalso. apply Hmark. apply list_elem_of_fmap. by exists (k, val').
Qed.

(** C4, as amended: the only write [updateAirtableRecord] makes for a
    matched record is one PATCH whose body is [build_update_fields] of the
    result's [processed] list.  Every entry of that map is a field written
    by an asset of [processed] under its own name (URL and alt text for the
    hero and the logo, alt text for a gallery slot), or the aggregate
    gallery field holding published URLs of gallery assets, or, in the
    CSV-upload server, one of the Status / Last Modified / Processed
    markers; each asset of [processed] has its fields in the map, and a
    gallery asset makes the aggregate field present.  The CSV-upload server
    sets the three markers whatever [processed] holds; the webhook server
    sets none of them.  A field absent from the map keeps its value under
    the partial update.  The assets of a result of the club loop are in
    slot order, and for such assets the map is exact: every asset has its
    own URL and alt text under its field names, and the aggregate gallery
    field is there exactly when there is a gallery asset and then holds the
    published URLs of all gallery assets, in slot order, empty ones left
    out.  A slot without an asset has none of its fields in the map, and a
    field that is neither a slot field, nor the aggregate, nor a marker is
    not in the map: the partial update leaves all of them as they are. *)
Theorem update_map_is_built_from_assets :
  (∀ v r n xs recordId fields o,
      airtable_log (updateAirtableRecord P v r n).2 = airtable_log n ++ xs →
      PatchX recordId fields o ∈ xs →
      ∃ now, fields = build_update_fields v now (processed r))
  ∧ (∀ v now ps k val,
       build_update_fields v now ps !! k = Some val →
       (∃ p, p ∈ ps ∧ (k, val) ∈ slot_fields p)
       ∨ (k = gallery_key v
          ∧ (∃ p, p ∈ ps ∧ is_gallery_type (type p) = true)
          ∧ ∃ urls, val = gallery_value v urls ∧ Forall (gallery_asset ps) urls)
       ∨ (v = CsvServer ∧ (k, val) ∈ markers now))
  ∧ (∀ v now ps p,
       p ∈ ps →
       (∀ k val, (k, val) ∈ slot_fields p →
                 is_Some (build_update_fields v now ps !! k))
       ∧ (is_gallery_type (type p) = true →
          is_Some (build_update_fields v now ps !! gallery_key v)))
  ∧ (∀ now ps k val,
       (k, val) ∈ markers now →
       build_update_fields CsvServer now ps !! k = Some val
       ∧ build_update_fields WebhookServer now ps !! k = None)
  ∧ (∀ (updateFields record : gmap string field_value) k,
       updateFields !! k = None →
       apply_patch updateFields record !! k = record !! k)
  ∧ (∀ env c n, ∃ r n',
       process_club P env c n = (Ok r, n')
       ∧ type <$> processed r `sublist_of` slot_types)
  ∧ (∀ v now ps p k val,
       type <$> ps `sublist_of` slot_types →
       p ∈ ps → (k, val) ∈ slot_fields p →
       build_update_fields v now ps !! k = Some val)
  ∧ (∀ v now ps,
       type <$> ps `sublist_of` slot_types →
       build_update_fields v now ps !! gallery_key v
       = match gallery_assets ps with
         | [] => None
         | gs => Some (gallery_value v
                         (filter (λ u, truthy u = true) (cloudinaryUrl <$> gs)))
         end)
  ∧ (∀ v now ps k t record,
       field_slot k = Some t → (∀ p, p ∈ ps → type p ≠ t) →
       build_update_fields v now ps !! k = None
       ∧ apply_patch (build_update_fields v now ps) record !! k = record !! k)
  ∧ (∀ v now ps k record,
       k ∉ slot_field_names → k ≠ gallery_key v → k ∉ (markers now).*1 →
       build_update_fields v now ps !! k = None
       ∧ apply_patch (build_update_fields v now ps) record !! k = record !! k).
Proof.
  split; [|split; [|split; [|split; [|split; [|split; [|split; [|split; [|split]]]]]]]].
  - intros v r n xs recordId fields o.
    exact (patch_carries_update_fields P v r n xs recordId fields o).
  - exact build_update_fields_origin.
  - exact build_update_fields_written.
  - exact build_update_fields_markers.
  - intros updateFields record k Hk. unfold apply_patch.
    by apply lookup_union_r.
  - intros env c n.
    destruct (process_club_assets_run P env c n) as (r & n' & Hrun & _ & Hsub & _).
    by exists r, n'.
  - exact build_update_fields_exact.
  - exact gallery_field_value.
  - intros v now ps k t record Hslot Hnone.
    pose proof (build_update_fields_absent v now ps k t Hslot Hnone) as Hk.
    split; [done|]. unfold apply_patch. by apply lookup_union_r.
  - intros v now ps k record Hslot Hagg Hmark.
    pose proof (build_update_fields_other v now ps k Hslot Hagg Hmark) as Hk.
    split; [done|]. unfold apply_patch. by apply lookup_union_r.
Qed.
End UpdateMapFacts.

Lemma update_map_is_built_from_assets_witness :
  (build_update_fields CsvServer (js "2024-05-01T12:00:00.000Z") [demo_logo_asset]
   !! "Status" = Some (FString (js "Images Processed"))
   ∧ build_update_fields WebhookServer (js "2024-05-01T12:00:00.000Z") [demo_logo_asset]
     !! "Status" = None)
  ∧ build_update_fields CsvServer (js "2024-05-01T12:00:00.000Z")
      [demo_logo_asset; demo_gallery_asset] !! "Gallery URLs (JSON)"
    = Some (FJsonArray [cloudinaryUrl demo_gallery_asset])
  ∧ build_update_fields CsvServer (js "2024-05-01T12:00:00.000Z")
      [demo_logo_asset; demo_gallery_asset] !! "Gallery 2 Alt Text"
    = Some (FString (js "Chess Club group photo"))
  ∧ build_update_fields CsvServer (js "2024-05-01T12:00:00.000Z")
      [demo_logo_asset; demo_gallery_asset] !! "Hero URL" = None.
Proof.
  pose proof (update_map_is_built_from_assets demo_platform)
    as (_ & _ & _ & Hmarkers & _ & _ & Hexact & Haggregate & Habsent & _).
  assert (Hsub : type <$> [demo_logo_asset; demo_gallery_asset] `sublist_of` slot_types).
  { simpl. apply sublist_cons, sublist_skip, sublist_cons, sublist_skip, sublist_nil_l. }
  split.
  { refine (Hmarkers (js "2024-05-01T12:00:00.000Z") [demo_logo_asset]
              "Status" (FString (js "Images Processed")) _).
    unfold markers. apply list_elem_of_here. }
  split.
  { exact (Haggregate CsvServer (js "2024-05-01T12:00:00.000Z")
             [demo_logo_asset; demo_gallery_asset] Hsub). }
  split.
  { refine (Hexact CsvServer (js "2024-05-01T12:00:00.000Z")
              [demo_logo_asset; demo_gallery_asset] demo_gallery_asset
              "Gallery 2 Alt Text" (FString (js "Chess Club group photo")) Hsub _ _).
    - apply list_elem_of_further, list_elem_of_here.
    - apply list_elem_of_here. }
  { refine (proj1 (Habsent CsvServer (js "2024-05-01T12:00:00.000Z")
                     [demo_logo_asset; demo_gallery_asset] "Hero URL" (js "hero")
                     ∅ eq_refl _)).
    intros p Hp. rewrite !elem_of_cons, elem_of_nil in Hp.
    by destruct Hp as [->|[->|[]]]. }
Defined.

(** ** The [/api/process-images] handler *)

Section HandlerFacts.
Context {World : Type} (P : platform World) (F : file_system World)
        (env : environment).
Implicit Types (n : net World).

(** The two loops never throw; every club has its result, with the assets
    and messages of its slots, and the Airtable loop only adds messages. *)
Lemma run_pipeline_run v clubs n :
  ∃ results n',
    run_pipeline P env v clubs n = (Ok results, n')
    ∧ Forall2 (λ c r, result_of c r
                      ∧ (length (processed r) ≤ slot_count c)%nat
                      ∧ (slot_count c ≤ length (processed r) + length (errors r))%nat)
              clubs results.
Proof.
  unfold run_pipeline, process_clubs.
  destruct (for_each_total (process_club P env)
              (λ c r, result_of c r
                      ∧ (length (processed r) + length (errors r) = slot_count c)%nat)
              clubs) with (n := n) as (rs0 & n0 & Hrun0 & Hall0).
  { intros c n1. destruct (process_club_run P env c n1) as (cr & n2 & ? & ? & ?). eauto. }
  assert (Hrec : ∃ results n', reconcile_all P env v rs0 n0 = (Ok results, n')
                               ∧ Forall2 reconciled rs0 results).
  { unfold reconcile_all. destruct (airtable_configured env).
    - apply for_each_total. intros r n1. apply reconcile_result_run.
    - exists rs0, n0. split; [done|].
      clear. induction rs0; constructor; [by repeat split|done]. }
  destruct Hrec as (results & n' & Hrun & Hall).
  exists results, n'. split; [by rewrite (bind_Ok _ _ _ _ _ Hrun0)|].
  eapply Forall2_trans; [|exact Hall0|exact Hall].
  intros c r0 r ((H1 & H2 & H3 & H4) & Hcount) (R1 & R2 & R3 & R4 & R5 & R6 & R7).
  split; [unfold result_of; repeat split; congruence|].
  rewrite R5. apply prefix_length in R7. split; lia.
Qed.

Lemma parseCSV_total csvText : ∃ clubs, parseCSV P csvText = Some clubs.
Proof.
  unfold parseCSV, parse.
  destruct (scan_from_total csvText scan_init 0) as [st Hst]. rewrite Hst.
  by eexists.
Qed.

(** The handler, case by case. *)
Lemma process_images_handler_run file n :
  ∃ resp n',
    process_images_handler P F env file n = (Ok resp, n')
    ∧ match file with
      | None => resp = HttpResponse 400 (ErrorBody (js "No CSV file uploaded")) ∧ n' = n
      | Some path =>
          match readFile F path (world n) with
          | (Throw e, w) =>
              resp = HttpResponse 500 (ErrorBody (message e))
              ∧ n' = Net w (airtable_log n)
          | (Ok csvContent, w) =>
              ∃ clubs, parseCSV P csvContent = Some clubs
              ∧ match clubs with
                | [] => resp = HttpResponse 400
                                 (ErrorBody (js "No clubs with images found in CSV"))
                        ∧ n' = Net w (airtable_log n)
                | _ :: _ =>
                    ∃ results n1,
                      run_pipeline P env CsvServer clubs (Net w (airtable_log n))
                      = (Ok results, n1)
                      ∧ Forall2 (λ c r, result_of c r
                                        ∧ (length (processed r) ≤ slot_count c)%nat
                                        ∧ (slot_count c
                                           ≤ length (processed r) + length (errors r))%nat)
                                clubs results
                      ∧ n' = Net (unlink F path (world n1)).2 (airtable_log n1)
                      ∧ match (unlink F path (world n1)).1 with
                        | Ok _ => resp = HttpResponse 200
                                           (ResultsBody (length clubs) results)
                        | Throw e => resp = HttpResponse 500 (ErrorBody (message e))
                        end
                end
          end
      end.
Proof.
  unfold process_images_handler, try_catch.
  destruct file as [path|]; [|by eexists _, _].
  unfold mbind at 1. unfold M_bind at 1, lift_outcome at 1.
  destruct (readFile F path (world n)) as [[csvContent|e] w]; [|by eexists _, _].
  destruct (parseCSV_total csvContent) as [clubs Hclubs].
  rewrite Hclubs. cbn [from_option id].
  destruct clubs as [|c clubs]; [eexists _, _; split; [done|]; by exists []|].
  cbn [length Nat.eqb].
  destruct (run_pipeline_run CsvServer (c :: clubs) (Net w (airtable_log n)))
    as (results & n1 & Hrun & Hall).
  rewrite (bind_Ok _ _ _ _ _ Hrun).
  unfold mbind, M_bind, lift_outcome.
  destruct (unlink F path (world n1)) as [[[]|e] w'] eqn:Hunlink; simpl.
  - eexists _, _. split; [done|]. exists (c :: clubs). split; [done|].
    exists results, n1. rewrite Hunlink. simpl.
    rewrite <- (Forall2_length _ _ _ Hall). done.
  - eexists _, _. split; [done|]. exists (c :: clubs). split; [done|].
    exists results, n1. rewrite Hunlink. done.
Qed.

(** X13: the handler always answers, with status 200, 400 or 500.  A 400
    answer is given before any club is processed: no Airtable exchange is
    made, and the state is the one the handler started in (no file) or the
    one reading the upload left (no club found); the upload is not
    removed. *)
Theorem process_images_handler_answers file n :
  ∃ resp n',
    process_images_handler P F env file n = (Ok resp, n')
    ∧ (http_status resp = 200 ∨ http_status resp = 400 ∨ http_status resp = 500)
    ∧ (file = None →
       resp = HttpResponse 400 (ErrorBody (js "No CSV file uploaded")) ∧ n' = n)
    ∧ (http_status resp = 400 →
       airtable_log n' = airtable_log n
       ∧ (world n' = world n
          ∨ ∃ path, file = Some path ∧ world n' = (readFile F path (world n)).2)).
Proof.
  destruct (process_images_handler_run file n) as (resp & n' & Hrun & Hcase).
  exists resp, n'. split; [done|].
  destruct file as [path|].
  - destruct (readFile F path (world n)) as [[csvContent|e] w] eqn:Hread.
    + destruct Hcase as (clubs & _ & Hcase).
      destruct clubs as [|c clubs].
      * destruct Hcase as [-> ->]. simpl. split; [auto|]. split; [done|].
        intros _. split; [done|]. right. exists path. by rewrite Hread.
      * destruct Hcase as (results & n1 & _ & _ & -> & Hresp).
        destruct ((unlink F path (world n1)).1) as [[]|e]; subst resp; simpl;
          (split; [auto|]); by split.
    + destruct Hcase as [-> ->]. simpl. split; [auto|]. by split.
  - destruct Hcase as [-> ->]. simpl. split; [auto|]. split; [done|].
    intros _. split; [done|]. by left.
Qed.

(** X14: a 200 answer means that a file was uploaded and read, that
    [parseCSV] found at least one club in it, that both loops ran over
    these clubs and the upload was removed afterwards; [clubsProcessed] is
    the number of clubs, and [results] holds one result per club, in order,
    with the identity of its club, at most one asset per slot of the club
    and an asset or an error message for every slot. *)
Theorem process_images_handler_success file n resp n' :
  process_images_handler P F env file n = (Ok resp, n') →
  http_status resp = 200 →
  ∃ path csvContent clubs results n1,
    file = Some path
    ∧ (readFile F path (world n)).1 = Ok csvContent
    ∧ parseCSV P csvContent = Some clubs ∧ clubs ≠ []
    ∧ run_pipeline P env CsvServer clubs
        (Net (readFile F path (world n)).2 (airtable_log n)) = (Ok results, n1)
    ∧ (unlink F path (world n1)).1 = Ok ()
    ∧ n' = Net (unlink F path (world n1)).2 (airtable_log n1)
    ∧ http_body resp = ResultsBody (length clubs) results
    ∧ Forall2 (λ c r, result_of c r
                      ∧ (length (processed r) ≤ slot_count c)%nat
                      ∧ (slot_count c ≤ length (processed r) + length (errors r))%nat)
              clubs results.
Proof.
  intros Hrun Hstatus.
  destruct (process_images_handler_run file n) as (resp0 & n0 & Hrun0 & Hcase).
  rewrite Hrun in Hrun0. injection Hrun0 as <- <-.
  destruct file as [path|]; [|by destruct Hcase as [-> _]].
  destruct (readFile F path (world n)) as [[csvContent|e] w] eqn:Hread;
    [|by destruct Hcase as [-> _]].
  destruct Hcase as (clubs & Hclubs & Hcase).
  destruct clubs as [|c clubs]; [by destruct Hcase as [-> _]|].
  destruct Hcase as (results & n1 & Hpipe & Hall & -> & Hresp).
  destruct ((unlink F path (world n1)).1) as [[]|e] eqn:Hunlink;
    [|by subst resp].
  exists path, csvContent, (c :: clubs), results, n1. subst resp. simpl.
  rewrite Hunlink, Hread. repeat split; done.
Qed.

(** X15: a 500 answer carries the message of a failed file operation, and
    nothing else: either the upload could not be read, and nothing was
    processed, or the upload could not be removed after both loops had run
    over at least one club, and the results of that run are not reported. *)
Theorem process_images_handler_failure file n resp n' :
  process_images_handler P F env file n = (Ok resp, n') →
  http_status resp = 500 →
  ∃ path e,
    file = Some path
    ∧ http_body resp = ErrorBody (message e)
    ∧ (((readFile F path (world n)).1 = Throw e
        ∧ n' = Net (readFile F path (world n)).2 (airtable_log n))
       ∨ (∃ csvContent clubs results n1,
            (readFile F path (world n)).1 = Ok csvContent
            ∧ parseCSV P csvContent = Some clubs ∧ clubs ≠ []
            ∧ run_pipeline P env CsvServer clubs
                (Net (readFile F path (world n)).2 (airtable_log n)) = (Ok results, n1)
            ∧ (unlink F path (world n1)).1 = Throw e
            ∧ airtable_log n' = airtable_log n1)).
Proof.
  intros Hrun Hstatus.
  destruct (process_images_handler_run file n) as (resp0 & n0 & Hrun0 & Hcase).
  rewrite Hrun in Hrun0. injection Hrun0 as <- <-.
  destruct file as [path|]; [|by destruct Hcase as [-> _]].
  destruct (readFile F path (world n)) as [[csvContent|e] w] eqn:Hread.
  - destruct Hcase as (clubs & Hclubs & Hcase).
    destruct clubs as [|c clubs]; [by destruct Hcase as [-> _]|].
    destruct Hcase as (results & n1 & Hpipe & Hall & -> & Hresp).
    destruct ((unlink F path (world n1)).1) as [[]|e] eqn:Hunlink;
      [by subst resp|].
    exists path, e. subst resp. split; [done|]. split; [done|].
    right. exists csvContent, (c :: clubs), results, n1.
    rewrite Hread, Hunlink. by repeat split.
  - destruct Hcase as [-> ->]. exists path, e. split; [done|]. split; [done|].
    left. by rewrite Hread.
Qed.
End HandlerFacts.

Lemma process_images_handler_success_witness :
  ∃ csvContent clubs results,
    parseCSV demo_platform csvContent = Some clubs ∧ clubs ≠ []
    ∧ http_body (HttpResponse 200 (ResultsBody 1 [demo_result]))
      = ResultsBody (length clubs) results.
Proof.
  destruct (process_images_handler_success demo_platform (demo_files demo_upload)
              cloudinary_env (Some (js "upload.csv")) net0
              (HttpResponse 200 (ResultsBody 1 [demo_result])) net0)
    as (path & csvContent & clubs & results & n1 & Hfile & Hread & Hclubs & Hne
        & _ & _ & _ & Hbody & _).
  - vm_compute. reflexivity.
  - reflexivity.
  - exists csvContent, clubs, results.
    split; [exact Hclubs|]. split; [exact Hne|exact Hbody].
Defined.

Lemma process_images_handler_failure_witness :
  ∃ e, http_body (HttpResponse 500 (ErrorBody (js "ENOENT: no such file or directory")))
       = ErrorBody (message e).
Proof.
  destruct (process_images_handler_failure demo_platform (demo_files demo_upload)
              cloudinary_env (Some (js "missing.csv")) net0
              (HttpResponse 500 (ErrorBody (js "ENOENT: no such file or directory")))
              net0)
    as (path & e & _ & Hbody & _).
  - vm_compute. reflexivity.
  - reflexivity.
  - by exists e.
Defined.

Lemma process_images_handler_answers_witness :
  ∃ resp n',
    process_images_handler demo_platform (demo_files demo_upload) cloudinary_env None net0
    = (Ok resp, n')
    ∧ resp = HttpResponse 400 (ErrorBody (js "No CSV file uploaded")) ∧ n' = net0.
Proof.
  destruct (process_images_handler_answers demo_platform (demo_files demo_upload)
              cloudinary_env None net0) as (resp & n' & Hrun & _ & Hnone & _).
  exists resp, n'. split; [exact Hrun|]. by apply Hnone.
Defined.

(** ** The [/api/process-webhook] handler *)

Lemma fmap_fixed {A} (f : A → A) (l : list A) :
  Forall (λ x, f x = x) l → f <$> l = l.
Proof. induction 1 as [|x l Hx _ IH]; [done|]. by rewrite fmap_cons, Hx, IH. Qed.

Section WebhookFacts.
Context {World : Type} (P : platform World) (env : environment).
Implicit Types (n : net World) (cr : club_result) (b : webhook_body).

Lemma bind_cong_Ok {A B} (m m' : M World A) (k k' : A → M World B) n :
  m n = m' n → (∀ a n', m' n = (Ok a, n') → k a n' = k' a n') →
  (m ≫= k) n = (m' ≫= k') n.
Proof.
  intros Hm Hk. unfold mbind, M_bind. rewrite Hm.
  destruct (m' n) as [[a|e] n']; [by apply Hk|done].
Qed.

Lemma bind_Ok_inv {A B} (m : M World A) (k : A → M World B) n (y : B) n' :
  (m ≫= k) n = (Ok y, n') → ∃ a n1, m n = (Ok a, n1) ∧ k a n1 = (Ok y, n').
Proof.
  unfold mbind, M_bind. destruct (m n) as [[a|e] n1]; [|done]. eauto.
Qed.

(** With Cloudinary configured the message for the missing configuration
    plays no role. *)
Lemma transform_configured msg msg' imageUrl clubName imageType targetWidth n :
  cloudinary_configured env = true →
  processImageToCloudinary P env msg imageUrl clubName imageType targetWidth n
  = processImageToCloudinary P env msg' imageUrl clubName imageType targetWidth n.
Proof. intros Hc. unfold processImageToCloudinary. by rewrite Hc. Qed.

Lemma webhook_attempt_slot_configured label imageUrl clubName imageType targetWidth cr n :
  cloudinary_configured env = true →
  webhook_attempt_slot P env label imageUrl clubName imageType targetWidth cr n
  = attempt_slot P env label imageUrl clubName imageType targetWidth cr n.
Proof.
  intros Hc. unfold webhook_attempt_slot, attempt_slot, try_catch, mbind, M_bind.
  by rewrite (transform_configured _ cloudinary_not_configured_csv _ _ _ _ _ Hc).
Qed.

Lemma webhook_gallery_loop_configured clubName remaining :
  cloudinary_configured env = true →
  ∀ i cr n,
    webhook_gallery_loop P env clubName i remaining cr n
    = gallery_loop P env clubName i (blank_invalid P <$> remaining) cr n.
Proof.
  intros Hc. induction remaining as [|galleryUrl rest IH]; intros i cr n; [done|].
  cbn [webhook_gallery_loop gallery_loop fmap list_fmap].
  destruct (i <? 4)%nat; [|done].
  assert (Hblank : blank_invalid P galleryUrl
                   = if truthy galleryUrl && isValidUrl P galleryUrl
                     then galleryUrl else []) by done.
  destruct (truthy galleryUrl && isValidUrl P galleryUrl) eqn:Hv; rewrite Hblank.
  - apply andb_true_iff in Hv as [-> _].
    unfold mbind, M_bind.
    rewrite (webhook_attempt_slot_configured _ _ _ _ _ _ _ Hc).
    destruct (attempt_slot _ _ _ _ _ _ _ _ n) as [[cr1|e] n1]; [apply IH|done].
  - cbn [truthy]. unfold mbind, M_bind. simpl. apply IH.
Qed.

Lemma valid_or_null_attempt (field : option (list N)) {A} (yes : list N → A) (no : A) :
  match field with
  | Some url => if truthy url && isValidUrl P url then yes url else no
  | None => no
  end
  = match field ≫= valid_or_null P with
    | Some url => if truthy url then yes url else no
    | None => no
    end.
Proof.
  destruct field as [url|]; [|done]. simpl. unfold valid_or_null.
  destruct (truthy url && isValidUrl P url) eqn:Hv; [|done].
  by apply andb_true_iff in Hv as [-> _].
Qed.

Lemma slot_step_configured (field : option (list N)) label clubName imageType
    targetWidth cr n :
  cloudinary_configured env = true →
  match field with
  | Some url => if truthy url && isValidUrl P url
                then webhook_attempt_slot P env label url clubName imageType
                       targetWidth cr
                else mret cr
  | None => mret cr
  end n
  = match field ≫= valid_or_null P with
    | Some url => if truthy url
                  then attempt_slot P env label url clubName imageType targetWidth cr
                  else mret cr
    | None => mret cr
    end n.
Proof.
  intros Hc. rewrite <- valid_or_null_attempt.
  destruct field as [url|]; [|done].
  destruct (truthy url && isValidUrl P url); [|done].
  by apply webhook_attempt_slot_configured.
Qed.

Lemma slot_step_cleanName (image : option (list N)) label clubName imageType
    targetWidth cr n cr1 n1 :
  match image with
  | Some url => if truthy url
                then attempt_slot P env label url clubName imageType targetWidth cr
                else mret cr
  | None => mret cr
  end n = (Ok cr1, n1) →
  cleanName cr1 = cleanName cr.
Proof.
  destruct image as [url|]; [destruct (truthy url)|]; [|by intros [= <- _]..].
  destruct (attempt_slot_run P env label url clubName imageType targetWidth cr n)
    as [(p & n' & _ & ->)|(e & n' & _ & ->)]; by intros [= <- _].
Qed.

Lemma webhook_slots_refine (submitted : list N) b n :
  cloudinary_configured env = true →
  webhook_slots P env submitted b n
  = process_club P env (webhook_club P submitted b) n.
Proof.
  intros Hc. unfold webhook_slots, process_club.
  cbn [name originalName heroImage logoImage galleryImages submissionId email
       webhook_club cleanName].
  apply bind_cong_Ok; [by apply slot_step_configured|]. intros cr1 n1 H1.
  apply slot_step_cleanName in H1. cbn [cleanName] in H1. rewrite H1.
  apply bind_cong_Ok; [by apply slot_step_configured|]. intros cr2 n2 H2.
  apply slot_step_cleanName in H2. rewrite H2, H1.
  destruct (gallery_given (w_galleryImageUrls b)); [|done].
  by apply webhook_gallery_loop_configured.
Qed.

(** X18: with Cloudinary configured, the webhook processes the slots of a
    submission exactly as the CSV handler processes the club made of the
    same name and references (a reference that is not a valid URL is no
    reference; an invalid entry of a gallery array keeps its slot number
    but is skipped); for a gallery given as text that club has the gallery
    [parseCSV] extracts from the same text. *)
Theorem webhook_processes_like_csv name b n :
  cloudinary_configured env = true →
  webhook_slots P env name b n = process_club P env (webhook_club P name b) n
  ∧ (∀ text, w_galleryImageUrls b = GalleryString text →
             galleryImages (webhook_club P name b) = gallery_urls P text).
Proof.
  intros Hc. split; [by apply webhook_slots_refine|].
  intros text Hg. unfold webhook_club. cbn [galleryImages]. rewrite Hg.
  cbn [gallery_given webhook_gallery_urls].
  destruct text as [|c text]; [by vm_compute|]. cbn [truthy].
  apply fmap_fixed, Forall_forall. intros url Hurl.
  unfold gallery_urls in Hurl. apply list_elem_of_filter in Hurl as [Hv _].
  unfold blank_invalid. by rewrite Hv.
Qed.

Lemma webhook_attempt_slot_not_configured label imageUrl clubName imageType
    targetWidth cr n :
  cloudinary_configured env = false →
  webhook_attempt_slot P env label imageUrl clubName imageType targetWidth cr n
  = (Ok (push_error cr (label ++ js ": " ++ cloudinary_not_configured_webhook)), n).
Proof.
  intros Hc. unfold webhook_attempt_slot.
  rewrite (try_catch_Throw _ _ n (new_Error cloudinary_not_configured_webhook) n);
    [done|].
  apply bind_Throw. by apply transform_not_configured.
Qed.

Lemma webhook_gallery_loop_not_configured clubName remaining :
  cloudinary_configured env = false →
  ∀ i cr n, ∃ cr',
    webhook_gallery_loop P env clubName i remaining cr n = (Ok cr', n)
    ∧ only_errors cr cr'.
Proof.
  intros Hc. induction remaining as [|galleryUrl rest IH]; intros i cr n; simpl.
  - by exists cr.
  - destruct (i <? 4)%nat; [|by exists cr].
    destruct (truthy galleryUrl && isValidUrl P galleryUrl).
    + rewrite (bind_Ok _ _ _ _ _
                 (webhook_attempt_slot_not_configured _ _ _ _ _ _ _ Hc)).
      destruct (IH (i + 1)%nat
                  (push_error cr ((js "Gallery image " ++ show (N.of_nat (i + 1)))
                                  ++ js ": " ++ cloudinary_not_configured_webhook)) n)
        as (cr' & Hrun & H1 & H2 & H3 & H4 & H5 & H6 & H7).
      exists cr'. split; [done|]. by repeat split.
    + rewrite (bind_Ok _ _ _ _ _ (mret_run cr n)). apply IH.
Qed.

Lemma webhook_slots_not_configured name b n :
  cloudinary_configured env = false →
  ∃ r, webhook_slots P env name b n = (Ok r, n)
       ∧ r_name r = name ∧ cleanName r = cleanClubName P name
       ∧ processed r = [] ∧ cloudinaryUrls r = [] ∧ airtableUpdate r = None.
Proof.
  intros Hc. unfold webhook_slots.
  set (cr0 := {| r_name := name; cleanName := cleanClubName P name;
                 r_submissionId := or_empty (w_submissionId b);
                 r_email := or_empty (w_email b);
                 processed := []; errors := []; cloudinaryUrls := [];
                 airtableUpdate := None |}).
  assert (Hstep : ∀ (field : option (list N)) label clubName imageType targetWidth cr,
            ∃ cr', match field with
                   | Some url => if truthy url && isValidUrl P url
                                 then webhook_attempt_slot P env label url clubName
                                        imageType targetWidth cr
                                 else mret cr
                   | None => mret cr
                   end n = (Ok cr', n)
                   ∧ only_errors cr cr').
  { intros [url|] label clubName imageType targetWidth cr; [|by exists cr].
    destruct (truthy url && isValidUrl P url); [|by exists cr].
    rewrite (webhook_attempt_slot_not_configured _ _ _ _ _ _ _ Hc).
    eexists. split; [done|]. by repeat split. }
  destruct (Hstep (w_heroImageUrl b) (js "Hero image") (cleanName cr0) (js "hero") 1600 cr0)
    as (cr1 & Hrun1 & H1).
  destruct (Hstep (w_logoImageUrl b) (js "Logo image") (cleanName cr1) (js "logo") 400 cr1)
    as (cr2 & Hrun2 & H2).
  assert (Hgal : ∃ cr3,
            (if gallery_given (w_galleryImageUrls b)
             then webhook_gallery_loop P env (cleanName cr2) 0
                    (webhook_gallery_urls P (w_galleryImageUrls b)) cr2
             else mret cr2) n = (Ok cr3, n)
            ∧ only_errors cr2 cr3).
  { destruct (gallery_given (w_galleryImageUrls b)); [|by exists cr2].
    by apply webhook_gallery_loop_not_configured. }
  destruct Hgal as (cr3 & Hrun3 & H3).
  exists cr3. split.
  { rewrite (bind_Ok _ _ _ _ _ Hrun1). by rewrite (bind_Ok _ _ _ _ _ Hrun2). }
  destruct H1 as (? & ? & ? & ? & ? & ? & ?), H2 as (? & ? & ? & ? & ? & ? & ?),
    H3 as (? & ? & ? & ? & ? & ? & ?).
  unfold cr0 in *. simpl in *. repeat split; congruence.
Qed.

Lemma gallery_loop_no_update clubName remaining : ∀ i cr n cr' n',
  gallery_loop P env clubName i remaining cr n = (Ok cr', n') →
  airtableUpdate cr' = airtableUpdate cr.
Proof.
  induction remaining as [|galleryUrl rest IH]; intros i cr n cr' n'; simpl.
  - by intros [= <- _].
  - destruct (i <? 4)%nat; [|by intros [= <- _]].
    destruct (truthy galleryUrl).
    + destruct (attempt_slot_run P env (js "Gallery image " ++ show (N.of_nat (i + 1)))
                  galleryUrl clubName (js "gallery-" ++ show (N.of_nat (i + 1)))
                  1200 cr n) as [(p & n1 & _ & Hrun)|(e & n1 & _ & Hrun)];
        rewrite (bind_Ok _ _ _ _ _ Hrun); intros Hrest; by apply IH in Hrest.
    + rewrite (bind_Ok _ _ _ _ _ (mret_run cr n)). apply IH.
Qed.

Lemma slot_step_no_update (image : option (list N)) label clubName imageType
    targetWidth cr n cr1 n1 :
  match image with
  | Some url => if truthy url
                then attempt_slot P env label url clubName imageType targetWidth cr
                else mret cr
  | None => mret cr
  end n = (Ok cr1, n1) →
  airtableUpdate cr1 = airtableUpdate cr.
Proof.
  destruct image as [url|]; [destruct (truthy url)|]; [|by intros [= <- _]..].
  destruct (attempt_slot_run P env label url clubName imageType targetWidth cr n)
    as [(p & n' & _ & ->)|(e & n' & _ & ->)]; by intros [= <- _].
Qed.

Lemma process_club_no_update c n r n' :
  process_club P env c n = (Ok r, n') → airtableUpdate r = None.
Proof.
  unfold process_club. intros Hrun.
  apply bind_Ok_inv in Hrun as (cr1 & n1 & H1 & Hrun).
  apply bind_Ok_inv in Hrun as (cr2 & n2 & H2 & H3).
  apply gallery_loop_no_update in H3. apply slot_step_no_update in H2, H1.
  simpl in H1. congruence.
Qed.

(** The slots of a submission, whatever the configuration. *)
Lemma webhook_slots_run name b n :
  ∃ r n',
    webhook_slots P env name b n = (Ok r, n')
    ∧ r_name r = name ∧ cleanName r = cleanClubName P name
    ∧ airtableUpdate r = None
    ∧ airtable_log n' = airtable_log n
    ∧ cloudinaryUrls r = cloudinaryUrl <$> processed r
    ∧ type <$> processed r `sublist_of` slot_types
    ∧ Forall (slot_asset (webhook_club P name b)) (processed r).
Proof.
  destruct (cloudinary_configured env) eqn:Hc.
  - rewrite (webhook_slots_refine _ _ _ Hc).
    destruct (process_club_assets_run P env (webhook_club P name b) n)
      as (r & n' & Hrun & Hu & Hsub & Hall & Hlog).
    destruct (process_club_run P env (webhook_club P name b) n)
      as (r0 & n0 & Hrun0 & (Hn & Hcn & _) & _).
    rewrite Hrun in Hrun0. injection Hrun0 as <- <-.
    exists r, n'. split; [done|]. split; [done|]. split; [done|].
    split; [by eapply process_club_no_update|]. done.
  - destruct (webhook_slots_not_configured name b n Hc)
      as (r & Hrun & Hn & Hcn & Hp & Hu & Ha).
    exists r, n. rewrite Hp, Hu. repeat split; try done. apply sublist_nil_l.
Qed.

(** The handler, case by case. *)
Lemma process_webhook_run b n :
  if negb (given (w_clubName b))
  then process_webhook P env b n
       = (Ok (WebhookResponse 400
                (WebhookError (js "Missing required field: clubName") b)), n)
  else if negb (given (w_heroImageUrl b)) && negb (given (w_logoImageUrl b))
          && negb (gallery_given (w_galleryImageUrls b))
  then process_webhook P env b n
       = (Ok (WebhookResponse 400
                (WebhookError (js "No images found in submission") b)), n)
  else ∃ r0 n0 r n',
         webhook_slots P env (or_empty (w_clubName b)) b n = (Ok r0, n0)
         ∧ (if airtable_configured env
            then reconcile_result P WebhookServer r0
            else mret r0) n0 = (Ok r, n')
         ∧ process_webhook P env b n = (Ok (webhook_done r), n').
Proof.
  unfold process_webhook, try_catch.
  destruct (negb (given (w_clubName b))); [done|].
  destruct (negb (given (w_heroImageUrl b)) && negb (given (w_logoImageUrl b))
            && negb (gallery_given (w_galleryImageUrls b))); [done|].
  destruct (webhook_slots_run (or_empty (w_clubName b)) b n)
    as (r0 & n0 & Hrun0 & _).
  assert (Hrec : ∃ r n', (if airtable_configured env
                          then reconcile_result P WebhookServer r0
                          else mret r0) n0 = (Ok r, n')).
  { destruct (airtable_configured env); [|by eexists _, _].
    destruct (reconcile_result_run P WebhookServer r0 n0) as (r & n' & Hr & _).
    by exists r, n'. }
  destruct Hrec as (r & n' & Hrec).
  exists r0, n0, r, n'. split; [done|]. split; [done|].
  by rewrite (bind_Ok _ _ _ _ _ Hrun0), (bind_Ok _ _ _ _ _ Hrec).
Qed.

(** X16: the webhook always answers, with status 400 or 200 and never 500:
    400, without doing anything, exactly when [clubName] is missing or
    empty, or when [heroImageUrl] and [logoImageUrl] are missing or empty
    and [galleryImageUrls] is falsy, that is missing or the empty string;
    200 with [success: true] otherwise, even when no image could be
    processed.  An array is truthy also when it is empty: a named
    submission whose [galleryImageUrls] is an array, even the empty one,
    is answered 200 whatever its hero and logo fields are. *)
Theorem process_webhook_answers b n :
  ∃ resp n',
    process_webhook P env b n = (Ok resp, n')
    ∧ (wh_status resp = 400 ∨ wh_status resp = 200)
    ∧ (wh_status resp = 400
       ↔ given (w_clubName b) = false
         ∨ (given (w_heroImageUrl b) = false ∧ given (w_logoImageUrl b) = false
            ∧ gallery_given (w_galleryImageUrls b) = false))
    ∧ (wh_status resp = 400 → n' = n)
    ∧ (∀ urls, given (w_clubName b) = true →
               w_galleryImageUrls b = GalleryArray urls →
               wh_status resp = 200).
Proof.
  assert (Hmain : ∃ resp n',
    process_webhook P env b n = (Ok resp, n')
    ∧ (wh_status resp = 400 ∨ wh_status resp = 200)
    ∧ (wh_status resp = 400
       ↔ given (w_clubName b) = false
         ∨ (given (w_heroImageUrl b) = false ∧ given (w_logoImageUrl b) = false
            ∧ gallery_given (w_galleryImageUrls b) = false))
    ∧ (wh_status resp = 400 → n' = n)).
  { pose proof (process_webhook_run b n) as Hrun.
    destruct (given (w_clubName b)); simpl in Hrun.
    - destruct (given (w_heroImageUrl b)), (given (w_logoImageUrl b)),
        (gallery_given (w_galleryImageUrls b)); simpl in Hrun;
        try (destruct Hrun as (r0 & n0 & r & n' & _ & _ & ->);
             exists (webhook_done r), n'; split; [done|]; split; [by right|];
             split; [|done]; split; [done|]; intros [|(? & ? & ?)]; done).
      rewrite Hrun. eexists _, _. split; [done|]. split; [by left|].
      split; [|done]. split; [by right|done].
    - rewrite Hrun. eexists _, _. split; [done|]. split; [by left|].
      split; [|done]. split; [by left|done]. }
  destruct Hmain as (resp & n' & Hrun & Hstatus & Hiff & Hsame).
  exists resp, n'. split; [done|]. split; [done|]. split; [done|]. split; [done|].
  intros urls Hname Hgallery.
  destruct Hstatus as [H400|H200]; [|done].
  apply Hiff in H400 as [Hno|(_ & _ & Hno)].
  - by rewrite Hname in Hno.
  - by rewrite Hgallery in Hno.
Qed.

(** X17: a 200 answer of the webhook reports the submitted club name and
    the assets made for it: [imagesProcessed] is the length of
    [processedImages]; these are in slot order without repetition, each
    with the alt text [generateAltText] gives for the cleaned name and the
    slot; no Airtable exchange is made unless Airtable is configured and an
    image was processed; [airtableUpdated] is true only if, in addition,
    [updateAirtableRecord] returned normally. *)
Theorem process_webhook_done b n resp n' :
  process_webhook P env b n = (Ok resp, n') →
  wh_status resp = 200 →
  ∃ name images errs updated,
    w_clubName b = Some name
    ∧ wh_body resp = WebhookDone name (length images) images errs updated
    ∧ sum_type <$> images `sublist_of` slot_types
    ∧ Forall (λ s, sum_altText s = generateAltText (cleanClubName P name) (sum_type s))
             images
    ∧ (airtable_configured env = false ∨ images = [] →
       airtable_log n' = airtable_log n ∧ updated = false)
    ∧ (updated = true →
       ∃ r0 n0 u, webhook_slots P env name b n = (Ok r0, n0)
                  ∧ updateAirtableRecord P WebhookServer r0 n0 = (Ok u, n')
                  ∧ success u = true).
Proof.
  intros Hresp Hstatus.
  pose proof (process_webhook_run b n) as Hrun.
  destruct (w_clubName b) as [name|] eqn:Hname; simpl in Hrun;
    [|rewrite Hrun in Hresp; by injection Hresp as <- _].
  destruct (truthy name); simpl in Hrun;
    [|rewrite Hrun in Hresp; by injection Hresp as <- _].
  destruct (negb (given (w_heroImageUrl b)) && negb (given (w_logoImageUrl b))
            && negb (gallery_given (w_galleryImageUrls b)));
    [rewrite Hrun in Hresp; by injection Hresp as <- _|].
  destruct Hrun as (r0 & n0 & r & n1 & Hslots & Hrec & Hrun).
  rewrite Hrun in Hresp. injection Hresp as <- <-.
  destruct (webhook_slots_run name b n)
    as (r0' & n0' & Hslots' & Hrn & Hcn & Hupd & Hlog & _ & Hsub & Hall).
  rewrite Hslots in Hslots'. injection Hslots' as <- <-.
  assert (Hproc : processed r = processed r0
                  ∧ r_name r = name
                  ∧ (airtable_configured env = false ∨ processed r0 = [] →
                     r = r0 ∧ n1 = n0)
                  ∧ (∀ u, airtableUpdate r = Some u →
                          updateAirtableRecord P WebhookServer r0 n0 = (Ok u, n1))).
  { destruct (airtable_configured env).
    - unfold reconcile_result in Hrec.
      destruct (processed r0) as [|p ps] eqn:Hps; simpl in Hrec.
      + injection Hrec as <- <-. rewrite Hps, Hupd. repeat split; try done.
      + unfold try_catch, mbind, M_bind in Hrec.
        destruct (updateAirtableRecord P WebhookServer r0 n0) as [[u|e] n2];
          simpl in Hrec; injection Hrec as <- <-; simpl;
          rewrite ?Hps, ?Hupd;
          (split; [done|]); (split; [done|]); (split; [by intros [|]|]);
          by intros u' [= ->].
    - injection Hrec as <- <-. rewrite Hupd. repeat split; try done. }
  destruct Hproc as (Hp & Hn & Hsame & Hpatch).
  exists name, (summary_of <$> processed r), (errors r),
    (match airtableUpdate r with Some u => success u | None => false end).
  split; [done|].
  split; [unfold webhook_done; simpl; by rewrite length_fmap, Hn|].
  rewrite Hp.
  split; [by rewrite <- list_fmap_compose|].
  split.
  { apply Forall_fmap. eapply Forall_impl; [exact Hall|].
    intros p (_ & _ & Halt & _). simpl. exact Halt. }
  split.
  { intros Hnone.
    assert (Hnone' : airtable_configured env = false ∨ processed r0 = []).
    { destruct Hnone as [?|Himg]; [by left|right].
      by apply fmap_nil_inv in Himg. }
    destruct (Hsame Hnone') as [-> ->]. by rewrite Hupd. }
  intros Htrue. destruct (airtableUpdate r) as [u|] eqn:Hu; [|done].
  exists r0, n0, u. split; [done|]. split; [by apply Hpatch|done].
Qed.
End WebhookFacts.

Lemma webhook_processes_like_csv_witness :
  cloudinary_configured demo_env = true
  ∧ webhook_slots demo_platform demo_env (js "Chess Club") demo_submission net0
    = process_club demo_platform demo_env
        (webhook_club demo_platform (js "Chess Club") demo_submission) net0.
Proof.
  split; [reflexivity|].
  apply (webhook_processes_like_csv demo_platform demo_env). reflexivity.
Defined.

Lemma process_webhook_done_witness :
  ∃ name images updated,
    w_clubName demo_submission = Some name
    ∧ sum_type <$> images `sublist_of` slot_types
    ∧ (updated = true →
       ∃ r0 n0 u, webhook_slots demo_platform demo_env name demo_submission net0
                  = (Ok r0, n0)
                  ∧ success u = true).
Proof.
  destruct (process_webhook demo_platform demo_env demo_submission net0)
    as [[resp|e] n'] eqn:Hrun; [|by vm_compute in Hrun].
  destruct (process_webhook_done demo_platform demo_env demo_submission net0 resp n' Hrun)
    as (name & images & errs & updated & Hname & _ & Hsub & _ & _ & Hupd).
  - vm_compute in Hrun. by injection Hrun as <- _.
  - exists name, images, updated. split; [done|]. split; [done|].
    intros Ht. destruct (Hupd Ht) as (r0 & n0 & u & Hslots & _ & Hs). eauto.
Defined.

Lemma process_webhook_answers_witness :
  ∃ resp n',
    process_webhook demo_platform demo_env
      (WebhookBody None None None None None GalleryMissing) net0 = (Ok resp, n')
    ∧ wh_status resp = 400 ∧ n' = net0.
Proof.
  destruct (process_webhook_answers demo_platform demo_env
              (WebhookBody None None None None None GalleryMissing) net0)
    as (resp & n' & Hrun & _ & Hiff & Hsame & _).
  assert (Hstatus : wh_status resp = 400) by (apply Hiff; by left).
  exists resp, n'. split; [exact Hrun|]. split; [exact Hstatus|by apply Hsame].
Defined.

(** ** The single-image endpoint *)

Lemma js_inj (s t : string) : js s = js t → s = t.
Proof.
  unfold js. intros H.
  assert (Hl : list_ascii_of_string s = list_ascii_of_string t).
  { revert H. generalize (list_ascii_of_string s), (list_ascii_of_string t).
    intros l. induction l as [|a l IH]; intros [|b k]; simpl; try done.
    intros [= Hab Hlk]. f_equal; [|by apply IH].
    rewrite <- (ascii_N_embedding a), <- (ascii_N_embedding b). by rewrite Hab. }
  rewrite <- (string_of_list_ascii_of_string s), <- (string_of_list_ascii_of_string t).
  by rewrite Hl.
Qed.

Lemma show_inj (i j : N) : show i = show j → i = j.
Proof. unfold show. intros H. apply js_inj in H. by apply (inj pretty) in H. Qed.

Lemma index_suffix_inj {World} (S : image_service World) (i j : N) :
  i ≤ MAX_SAFE_INTEGER → j ≤ MAX_SAFE_INTEGER →
  index_suffix S i = index_suffix S j → i = j.
Proof.
  unfold index_suffix, index_text. intros Hi Hj.
  apply N.leb_le in Hi, Hj. rewrite Hi, Hj.
  destruct (N.eqb_spec i 0) as [->|Hi0], (N.eqb_spec j 0) as [->|Hj0]; try done.
  intros H. apply app_inv_head in H. by apply show_inj.
Qed.

(** X21: for a given club and type the file name determines the index, for
    indices up to [Number.MAX_SAFE_INTEGER]: the gallery images of one club
    never share a file name.  Beyond that bound the index is not printed
    digit by digit (two numbers can be read as one double), and nothing is
    stated. *)
Theorem image_filename_index_inj {World} (S : image_service World)
    slug type (i j : N) :
  i ≤ MAX_SAFE_INTEGER → j ≤ MAX_SAFE_INTEGER →
  image_filename S slug type i = image_filename S slug type j → i = j.
Proof.
  unfold image_filename. intros Hi Hj H.
  do 3 apply app_inv_head in H. apply app_inv_tail in H.
  by apply (index_suffix_inj S).
Qed.

Lemma strip_extension_webp (base : list N) :
  strip_extension (base ++ js ".webp") = base.
Proof.
  induction base as [|c base IH]; [by vm_compute|].
  cbn [app strip_extension]. rewrite IH.
  assert (Hdot : forallb (λ d, negb (d =? DOT) && negb (d =? SLASH))
                   (base ++ js ".webp") = false).
  { clear. induction base as [|d base IH]; [by vm_compute|].
    simpl. rewrite IH. apply andb_false_r. }
  by rewrite Hdot, andb_false_r.
Qed.

Lemma image_public_id {World} (S : image_service World) slug type index :
  strip_extension (image_filename S slug type index)
  = slug ++ js "-" ++ type ++ index_suffix S index.
Proof.
  unfold image_filename.
  replace (slug ++ js "-" ++ type ++ index_suffix S index ++ js ".webp")
    with ((slug ++ js "-" ++ type ++ index_suffix S index) ++ js ".webp")
    by (by rewrite <- !app_assoc).
  apply strip_extension_webp.
Qed.

(** X22: the public id [uploadToCloudinary] asks for is the file name
    without its [.webp] extension, whatever the slug and the type are: the
    pattern only ever removes the last extension of a name, also when the
    name has other dots or slashes in it. *)
Theorem public_id_of_image_filename {World} (S : image_service World)
    slug type index :
  strip_extension (image_filename S slug type index)
  = slug ++ js "-" ++ type ++ index_suffix S index
  ∧ ∀ base, strip_extension (base ++ js ".webp") = base.
Proof.
  split; [apply image_public_id|]. intros base. apply strip_extension_webp.
Qed.

Section ProcessImageFacts.
Context {World : Type} (P : platform World) (S : image_service World)
        (env : environment).
Implicit Types (n : net World) (req : image_request).

Lemma resize_for_run type config buffer n :
  (resize_for S type config buffer n).2 = n
  ∧ (type ∉ image_types →
     (resize_for S type config buffer n).1
     = Throw (new_Error (js "Unknown image type: " ++ type))).
Proof.
  unfold resize_for, image_types.
  destruct (str_eqb type (js "hero")) eqn:H1;
    [apply bool_decide_eq_true in H1; subst type; split;
     [by destruct config|intros Hn; exfalso; apply Hn; rewrite !elem_of_cons; auto]|].
  destruct (str_eqb type (js "logo")) eqn:H2;
    [apply bool_decide_eq_true in H2; subst type; split;
     [by destruct config|intros Hn; exfalso; apply Hn; rewrite !elem_of_cons; auto]|].
  destruct (str_eqb type (js "gallery")) eqn:H3;
    [apply bool_decide_eq_true in H3; subst type; split;
     [by destruct config|intros Hn; exfalso; apply Hn; rewrite !elem_of_cons; auto]|].
  by split.
Qed.

Lemma resize_for_Ok type config buffer n processedBuffer n' :
  resize_for S type config buffer n = (Ok processedBuffer, n') →
  type ∈ image_types ∧ n' = n.
Proof.
  intros Hrun. destruct (resize_for_run type config buffer n) as [Hn Hunknown].
  rewrite Hrun in Hn, Hunknown. simpl in *. split; [|done].
  destruct (decide (type ∈ image_types)) as [|Hnot]; [done|].
  by specialize (Hunknown Hnot).
Qed.

(** The endpoint, step by step. *)
Lemma processImage_run req n :
  ∃ resp n',
    processImage P S env req n = (Ok resp, n')
    ∧ airtable_log n' = airtable_log n
    ∧ (ir_status resp = 200
       ∧ (∃ response buffer processedBuffer uploadedUrl metadata n1,
            svc_fetch S (imageUrl req) (world n) = (Ok response, world n1)
            ∧ f_ok response = true ∧ f_buffer response = Ok buffer
            ∧ resize_for S (req_type req) (req_config req) buffer n1
              = (Ok processedBuffer, n1)
            ∧ uploadToCloudinary S env processedBuffer
                (image_filename S (slug P (req_clubName req)) (req_type req)
                   (req_index req)) n1 = (Ok uploadedUrl, n')
            ∧ svc_metadata S processedBuffer = Ok metadata
            ∧ ir_body resp
              = ImageDone
                  {| res_originalUrl := imageUrl req;
                     processedUrl := uploadedUrl;
                     res_filename := image_filename S (slug P (req_clubName req))
                                       (req_type req) (req_index req);
                     res_altText := image_alt_text (req_type req) (req_clubName req);
                     res_size := length processedBuffer;
                     dimensions := show metadata.1 ++ js "x" ++ show metadata.2;
                     res_type := req_type req |})
       ∨ ir_status resp = 500
         ∧ (∃ error, ir_body resp = ImageFailed error)
         ∧ (req_type req ∉ image_types →
            world n' = (svc_fetch S (imageUrl req) (world n)).2)).
Proof.
  unfold processImage, try_catch.
  unfold mbind at 1. unfold M_bind at 1. unfold lift_outcome at 1.
  destruct (svc_fetch S (imageUrl req) (world n)) as [[response|e] w] eqn:Hfetch;
    [|eexists _, _; split; [done|]; split; [done|]; right; eauto].
  destruct (f_ok response) eqn:Hok; simpl;
    [|eexists _, _; split; [done|]; split; [done|]; right; eauto].
  unfold mbind at 1. unfold M_bind at 1. unfold of_outcome at 1.
  destruct (f_buffer response) as [buffer|e] eqn:Hbuf;
    [|eexists _, _; split; [done|]; split; [done|]; right; eauto].
  unfold mbind at 1. unfold M_bind at 1.
  set (n1 := Net w (airtable_log n)).
  destruct (resize_for_run (req_type req) (req_config req) buffer n1) as [Hn1 Hunknown].
  destruct (resize_for S (req_type req) (req_config req) buffer n1)
    as [[processedBuffer|e] n2] eqn:Hresize; simpl in Hn1; subst n2;
    [|eexists _, _; split; [done|]; split; [done|]; right; eauto].
  assert (Hknown : req_type req ∈ image_types).
  { by destruct (resize_for_Ok _ _ _ _ _ _ Hresize). }
  unfold mbind at 1. unfold M_bind at 1.
  assert (Hup : ∀ filename,
            airtable_log (uploadToCloudinary S env processedBuffer filename n1).2
            = airtable_log n).
  { intros filename. unfold uploadToCloudinary.
    destruct (negb (env_set (CLOUDINARY_URL env))); [done|].
    unfold lift_outcome. by destruct (svc_upload S _ processedBuffer (world n1)). }
  specialize (Hup (image_filename S (slug P (req_clubName req)) (req_type req)
                     (req_index req))).
  destruct (uploadToCloudinary S env processedBuffer _ n1)
    as [[uploadedUrl|e] n3] eqn:Hupload; simpl in Hup;
    [|eexists _, _; split; [done|]; split; [done|]; right; split; [done|];
      split; [eauto|]; intros Hnot; by destruct (Hnot Hknown)].
  unfold mbind, M_bind, of_outcome.
  destruct (svc_metadata S processedBuffer) as [metadata|e] eqn:Hmeta;
    [|eexists _, _; split; [done|]; split; [done|]; right; split; [done|];
      split; [eauto|]; intros Hnot; by destruct (Hnot Hknown)].
  eexists _, _. split; [done|]. split; [done|]. left. split; [done|].
  exists response, buffer, processedBuffer, uploadedUrl, metadata, n1.
  repeat split; done.
Qed.

Lemma processImage_unknown_type req n response w buffer :
  req_type req ∉ image_types →
  svc_fetch S (imageUrl req) (world n) = (Ok response, w) →
  f_ok response = true → f_buffer response = Ok buffer →
  processImage P S env req n
  = (Ok (ImageReply 500 (ImageFailed (js "Unknown image type: " ++ req_type req))),
     Net w (airtable_log n)).
Proof.
  intros Hnot Hfetch Hok Hbuf.
  unfold processImage, try_catch.
  unfold mbind at 1. unfold M_bind at 1. unfold lift_outcome at 1.
  rewrite Hfetch, Hok. simpl.
  unfold mbind at 1. unfold M_bind at 1. unfold of_outcome at 1. rewrite Hbuf.
  unfold mbind at 1. unfold M_bind at 1.
  destruct (resize_for_run (req_type req) (req_config req) buffer
              (Net w (airtable_log n))) as [Hn Hunknown].
  specialize (Hunknown Hnot).
  destruct (resize_for S (req_type req) (req_config req) buffer _) as [o n2].
  simpl in *. by subst.
Qed.

(** X19: the single-image endpoint always answers, with status 200 or 500,
    and makes no Airtable exchange.  A type other than hero, logo and
    gallery is answered 500, and nothing is uploaded for it, but only after
    the image has been downloaded: when the download succeeds the error
    reported is the unknown-type message. *)
Theorem processImage_answers req n :
  ∃ resp n',
    processImage P S env req n = (Ok resp, n')
    ∧ (ir_status resp = 200 ∨ ir_status resp = 500)
    ∧ airtable_log n' = airtable_log n
    ∧ (req_type req ∉ image_types →
       ir_status resp = 500
       ∧ world n' = (svc_fetch S (imageUrl req) (world n)).2
       ∧ ∀ response buffer,
           (svc_fetch S (imageUrl req) (world n)).1 = Ok response →
           f_ok response = true → f_buffer response = Ok buffer →
           ir_body resp = ImageFailed (js "Unknown image type: " ++ req_type req)).
Proof.
  destruct (processImage_run req n) as (resp & n' & Hrun & Hlog & Hcase).
  exists resp, n'. split; [done|].
  split; [destruct Hcase as [[? _]|[? _]]; auto|]. split; [done|].
  intros Hnot.
  destruct Hcase as [(_ & response & buffer & pb & url & md & n1 & _ & _ & _ & Hresize & _)
                    |(Hstatus & _ & Hworld)].
  - apply resize_for_Ok in Hresize as [Hin _]. by destruct (Hnot Hin).
  - split; [done|]. split; [by apply Hworld|].
    intros response buffer Hfetch Hok Hbuf.
    destruct (svc_fetch S (imageUrl req) (world n)) as [o w] eqn:Hf.
    simpl in Hfetch. subst o.
    rewrite (processImage_unknown_type req n response w buffer Hnot Hf Hok Hbuf) in Hrun.
    by injection Hrun as <- _.
Qed.

(** X20: a 200 answer describes the image that was asked for: its type is
    hero, logo or gallery, [originalUrl] is the requested URL, [filename]
    is made of the slug of the club name, the type and the index, and
    [altText] is the text of the type.  Without [CLOUDINARY_URL] nothing
    is uploaded and [processedUrl] is the mock URL of the file name; with
    it, [processedUrl] is what the upload answered for a public id that is
    the file name without its extension, in the folder
    [processed-club-images], with overwriting enabled. *)
Theorem processImage_result req n resp n' :
  processImage P S env req n = (Ok resp, n') →
  ir_status resp = 200 →
  ∃ r,
    ir_body resp = ImageDone r
    ∧ res_type r = req_type req ∧ req_type req ∈ image_types
    ∧ res_originalUrl r = imageUrl req
    ∧ res_filename r
      = image_filename S (slug P (req_clubName req)) (req_type req) (req_index req)
    ∧ res_altText r = image_alt_text (req_type req) (req_clubName req)
    ∧ (env_set (CLOUDINARY_URL env) = false →
       processedUrl r = js "https://mock-cdn.com/" ++ res_filename r
       ∧ world n' = (svc_fetch S (imageUrl req) (world n)).2)
    ∧ (env_set (CLOUDINARY_URL env) = true →
       ∃ processedBuffer w,
         svc_upload S
           {| so_public_id := slug P (req_clubName req) ++ js "-" ++ req_type req
                              ++ index_suffix S (req_index req);
              so_folder := js "processed-club-images";
              so_overwrite := true |} processedBuffer w
         = (Ok (processedUrl r), world n')
         ∧ res_size r = length processedBuffer).
Proof.
  intros Hresp Hstatus.
  destruct (processImage_run req n) as (resp0 & n0 & Hrun & Hlog & Hcase).
  rewrite Hresp in Hrun. injection Hrun as <- <-.
  destruct Hcase as [(_ & response & buffer & pb & url & md & n1 & Hfetch & Hok & Hbuf
                      & Hresize & Hupload & Hmeta & Hbody)
                    |(H500 & _)]; [|rewrite Hstatus in H500; done].
  eexists. split; [exact Hbody|].
  cbn [res_type res_originalUrl res_filename res_altText processedUrl res_size].
  apply resize_for_Ok in Hresize as [Hin _].
  split; [done|]. split; [done|]. split; [done|]. split; [done|]. split; [done|].
  unfold uploadToCloudinary in Hupload. split.
  - intros Henv. rewrite Henv in Hupload. simpl in Hupload.
    injection Hupload as <- <-. by rewrite Hfetch.
  - intros Henv. rewrite Henv in Hupload. simpl in Hupload.
    rewrite image_public_id in Hupload.
    unfold lift_outcome in Hupload.
    destruct (svc_upload S _ pb (world n1)) as [o w'] eqn:Hsvc.
    injection Hupload as -> <-.
    exists pb, (world n1). by rewrite Hsvc.
Qed.
End ProcessImageFacts.

Lemma processImage_answers_witness :
  ∃ resp n',
    processImage demo_platform demo_service demo_env
      (ImageRequest (js "https://img.test/a.png") (js "banner") (js "Chess Club") None 0)
      net0 = (Ok resp, n')
    ∧ ir_body resp = ImageFailed (js "Unknown image type: banner").
Proof.
  destruct (processImage_answers demo_platform demo_service demo_env
              (ImageRequest (js "https://img.test/a.png") (js "banner")
                 (js "Chess Club") None 0) net0)
    as (resp & n' & Hrun & _ & _ & Hunknown).
  exists resp, n'. split; [exact Hrun|].
  destruct Hunknown as (_ & _ & Hbody).
  - apply not_elem_of_cons. split; [done|].
    apply not_elem_of_cons. split; [done|].
    apply not_elem_of_cons. split; [done|]. apply not_elem_of_nil.
  - eapply Hbody; reflexivity.
Defined.

Lemma processImage_result_witness :
  ∃ r,
    res_filename r
    = image_filename demo_service
        (slug demo_platform (req_clubName demo_image_request))
        (req_type demo_image_request) (req_index demo_image_request)
    ∧ req_type demo_image_request ∈ image_types.
Proof.
  destruct (processImage demo_platform demo_service demo_env demo_image_request net0)
    as [[resp|e] n'] eqn:Hrun; [|by vm_compute in Hrun].
  destruct (processImage_result demo_platform demo_service demo_env
              demo_image_request net0 resp n' Hrun)
    as (r & _ & _ & Hin & _ & Hfile & _).
  - vm_compute in Hrun. by injection Hrun as <- _.
  - exists r. split; [exact Hfile|exact Hin].
Defined.

Lemma image_filename_index_inj_witness :
  req_index demo_image_request = 1.
Proof.
  apply (image_filename_index_inj demo_service (js "chess-club") (js "gallery")).
  - by vm_compute.
  - by vm_compute.
  - reflexivity.
Defined.

(** ** The Airtable writer *)

Lemma gallery_url_field_inj i j : gallery_url_field i = gallery_url_field j → i = j.
Proof.
  unfold gallery_url_field. intros H.
  apply app_inv_head, app_inv_tail, show_inj in H. lia.
Qed.

Lemma gallery_alt_field_inj i j : gallery_alt_field i = gallery_alt_field j → i = j.
Proof.
  unfold gallery_alt_field. intros H.
  apply app_inv_head, app_inv_tail, show_inj in H. lia.
Qed.

Lemma gallery_url_not_alt i j : gallery_url_field i ≠ gallery_alt_field j.
Proof.
  unfold gallery_url_field, gallery_alt_field. intros H.
  apply app_inv_head in H.
  apply suffix_last_two in H; [by vm_compute in H|vm_compute; lia..].
Qed.

Lemma gallery_fields_other gallery : ∀ index (m : gmap (list N) (list N)) k,
  (∀ j, (index ≤ j)%nat → k ≠ gallery_url_field j ∧ k ≠ gallery_alt_field j) →
  gallery_fields index gallery m !! k = m !! k.
Proof.
  induction gallery as [|img rest IH]; intros index m k Hk; simpl; [done|].
  rewrite IH by (intros j Hj; apply Hk; lia).
  destruct (Hk index ltac:(lia)) as [Hu Ha].
  by rewrite !lookup_insert_ne.
Qed.

Lemma gallery_fields_lookup gallery : ∀ index (m : gmap (list N) (list N)) i img,
  gallery !! i = Some img →
  gallery_fields index gallery m !! gallery_url_field (index + i)
  = Some (processedUrl img)
  ∧ gallery_fields index gallery m !! gallery_alt_field (index + i)
    = Some (res_altText img).
Proof.
  induction gallery as [|first rest IH]; intros index m i img Hi; [done|].
  destruct i as [|i]; simpl in Hi.
  - injection Hi as ->. rewrite Nat.add_0_r. simpl.
    rewrite !gallery_fields_other.
    + rewrite lookup_insert_ne by (intros H; by apply (gallery_url_not_alt index index)).
      by rewrite !lookup_insert_eq.
    + intros j Hj. split; [apply not_eq_sym, gallery_url_not_alt|].
      intros H. apply gallery_alt_field_inj in H. lia.
    + intros j Hj. split; [|apply gallery_url_not_alt].
      intros H. apply gallery_url_field_inj in H. lia.
  - simpl. replace (index + S i)%nat with (index + 1 + i)%nat by lia. by apply IH.
Qed.

Lemma fixed_field_not_gallery (k : list N) j :
  k ∈ [js "Hero Image Processed URL"; js "Hero Image Alt Text";
       js "Logo Image Processed URL"; js "Logo Image Alt Text"] →
  k ≠ gallery_url_field j ∧ k ≠ gallery_alt_field j.
Proof.
  rewrite !elem_of_cons, elem_of_nil.
  unfold gallery_url_field, gallery_alt_field.
  intros [->|[->|[->|[->|[]]]]]; split; intros H; by vm_compute in H.
Qed.

(** X24: the fields written for an update: the hero and the logo each
    give their processed URL and alt text under their two field names (and
    nothing under those names when absent), and the gallery image at
    position [i], for any [i], gives them under [Gallery Image i+1 Processed
    URL] and [Gallery Image i+1 Alt Text]: no image overwrites the fields
    of another, and the gallery is not cut at four images. *)
Theorem write_fields_lookup update :
  write_fields update !! js "Hero Image Processed URL" = processedUrl <$> u_hero update
  ∧ write_fields update !! js "Hero Image Alt Text" = res_altText <$> u_hero update
  ∧ write_fields update !! js "Logo Image Processed URL" = processedUrl <$> u_logo update
  ∧ write_fields update !! js "Logo Image Alt Text" = res_altText <$> u_logo update
  ∧ ∀ i img, u_gallery update !! i = Some img →
             write_fields update !! gallery_url_field i = Some (processedUrl img)
             ∧ write_fields update !! gallery_alt_field i = Some (res_altText img).
Proof.
  unfold write_fields.
  set (m := match u_logo update with
            | Some logo => _
            | None => _
            end).
  assert (Hfixed : ∀ k,
            k ∈ [js "Hero Image Processed URL"; js "Hero Image Alt Text";
                 js "Logo Image Processed URL"; js "Logo Image Alt Text"] →
            (if (0 <? length (u_gallery update))%nat
             then gallery_fields 0 (u_gallery update) m else m) !! k = m !! k).
  { intros k Hk. destruct (0 <? length (u_gallery update))%nat; [|done].
    apply gallery_fields_other. intros j _. by apply fixed_field_not_gallery. }
  repeat split.
  - rewrite Hfixed by (rewrite !elem_of_cons; auto). subst m.
    destruct (u_hero update), (u_logo update); by simplify_map_eq.
  - rewrite Hfixed by (rewrite !elem_of_cons; auto). subst m.
    destruct (u_hero update), (u_logo update); by simplify_map_eq.
  - rewrite Hfixed by (rewrite !elem_of_cons; auto). subst m.
    destruct (u_hero update), (u_logo update); by simplify_map_eq.
  - rewrite Hfixed by (rewrite !elem_of_cons; auto). subst m.
    destruct (u_hero update), (u_logo update); by simplify_map_eq.
  - destruct (u_gallery update) as [|first rest] eqn:Hg; [done|]. simpl.
    by apply (gallery_fields_lookup (first :: rest) 0 m i img).
  - destruct (u_gallery update) as [|first rest] eqn:Hg; [done|]. simpl.
    by apply (gallery_fields_lookup (first :: rest) 0 m i img).
Qed.

Section WriterFacts.
Context {World : Type} (A : airtable_client World).
Implicit Types (n : net World) (base : airtable_base World).

(** What one update leaves in [results]. *)
Local Abbreviation written base tableName update w :=
  (match (base_update base tableName (u_airtableId update) (write_fields update) w).1 with
   | Ok updatedRecord => WriteOk updatedRecord
   | Throw e => WriteFailed (message e) (u_airtableId update)
   end).

Lemma write_one_run base tableName update n :
  write_one base tableName update n
  = (Ok (written base tableName update (world n)),
     Net (base_update base tableName (u_airtableId update) (write_fields update)
            (world n)).2
         (airtable_log n)).
Proof.
  unfold write_one, try_catch, mbind, M_bind, lift_outcome.
  by destruct (base_update base _ _ _ (world n)) as [[id|e] w].
Qed.

Lemma write_loop_run base tableName updates : ∀ n,
  ∃ results n',
    for_each (write_one base tableName) updates n = (Ok results, n')
    ∧ airtable_log n' = airtable_log n
    ∧ (updates = [] → n' = n)
    ∧ Forall2 (λ update result, ∃ w, result = written base tableName update w)
              updates results
    ∧ (∀ update, head updates = Some update →
                 head results = Some (written base tableName update (world n))).
Proof.
  induction updates as [|update updates IH]; intros n; simpl.
  - exists [], n. split; [done|]. split; [done|]. split; [done|].
    split; [constructor|done].
  - rewrite (bind_Ok _ _ _ _ _ (write_one_run base tableName update n)).
    destruct (IH (Net (base_update base tableName (u_airtableId update)
                         (write_fields update) (world n)).2 (airtable_log n)))
      as (results & n' & Hrun & Hlog & _ & Hall & _).
    rewrite (bind_Ok _ _ _ _ _ Hrun).
    eexists _, n'. split; [done|]. split; [done|]. split; [done|]. split.
    + constructor; [by exists (world n)|done].
    + by intros ? [= <-].
Qed.

(** X23: the writer always answers, and with status 500 in two cases only:
    when making the base from [apiKey] and [baseId] throws, and when the
    body has no [updates]; the answer then carries the message of the error
    and no update was sent.  Otherwise the answer is 200 with one result
    per update, in order: the id of the updated record when the update call
    returned, and the message of the error together with the id of the
    update when it threw; a failed update does not stop the updates after
    it, and the first update is sent in the state the request came in. *)
Theorem writeToAirtable_results body n :
  ∃ resp n',
    writeToAirtable A body n = (Ok resp, n')
    ∧ airtable_log n' = airtable_log n
    ∧ match client_base A (wq_apiKey body) (wq_baseId body), wq_updates body with
      | Throw e, _ =>
          resp = WriteReply 500 (WriteError (message e)) ∧ n' = n
      | Ok _, None =>
          resp = WriteReply 500 (WriteError (js "updates is not iterable")) ∧ n' = n
      | Ok base, Some updates =>
          ∃ results,
            resp = WriteReply 200 (WriteDone results)
            ∧ Forall2 (λ update result,
                         ∃ w, match (base_update base (wq_tableName body)
                                       (u_airtableId update)
                                       (write_fields update) w).1 with
                              | Ok updatedRecord => result = WriteOk updatedRecord
                              | Throw e =>
                                  result = WriteFailed (message e) (u_airtableId update)
                              end) updates results
            ∧ (∀ update, head updates = Some update →
                 head results
                 = Some match (base_update base (wq_tableName body)
                                 (u_airtableId update) (write_fields update)
                                 (world n)).1 with
                        | Ok updatedRecord => WriteOk updatedRecord
                        | Throw e => WriteFailed (message e) (u_airtableId update)
                        end)
            ∧ (updates = [] → n' = n)
      end.
Proof.
  unfold writeToAirtable, try_catch, mbind, M_bind, of_outcome.
  destruct (client_base A (wq_apiKey body) (wq_baseId body)) as [base|e].
  - destruct (wq_updates body) as [updates|].
    + rewrite mret_run.
      destruct (write_loop_run base (wq_tableName body) updates n)
        as (results & n' & Hrun & Hlog & Hnil & Hall & Hhead).
      rewrite Hrun. exists (WriteReply 200 (WriteDone results)), n'.
      split; [done|]. split; [done|]. exists results.
      split; [done|]. split; [|done].
      eapply Forall2_impl; [exact Hall|].
      intros update result [w ->]. exists w.
      by destruct ((base_update base (wq_tableName body) (u_airtableId update)
                      (write_fields update) w).1).
    + by eexists _, _.
  - by eexists _, _.
Qed.
End WriterFacts.

Lemma writeToAirtable_results_witness :
  (writeToAirtable demo_client
     (WriteRequest (Some (js "key")) (Some (js "app1")) (Some (js "Clubs"))
        (Some demo_updates)) net0).1
  = Ok (WriteReply 200
          (WriteDone [WriteOk (js "rec1");
                      WriteFailed (js "Record not found") (js "recBad")]))
  ∧ (writeToAirtable demo_client
       (WriteRequest (Some (js "key")) (Some (js "app1")) (Some (js "Clubs")) None)
       net0).1
    = Ok (WriteReply 500 (WriteError (js "updates is not iterable")))
  ∧ (writeToAirtable demo_client
       (WriteRequest None (Some (js "app1")) (Some (js "Clubs")) (Some demo_updates))
       net0).1
    = Ok (WriteReply 500
            (WriteError (js "An API key is required to connect to Airtable"))).
Proof.
  split; [|split].
  - destruct (writeToAirtable_results demo_client
                (WriteRequest (Some (js "key")) (Some (js "app1")) (Some (js "Clubs"))
                   (Some demo_updates)) net0)
      as (resp & n' & Hrun & _ & results & -> & Hall & _).
    rewrite Hrun. cbn [fst]. do 3 f_equal.
    apply Forall2_cons_inv_l in Hall as (r1 & rest & [w1 H1] & Hall & ->).
    apply Forall2_cons_inv_l in Hall as (r2 & rest' & [w2 H2] & Hall & ->).
    apply Forall2_nil_inv_l in Hall as ->.
    vm_compute in H1, H2. by rewrite H1, H2.
  - destruct (writeToAirtable_results demo_client
                (WriteRequest (Some (js "key")) (Some (js "app1")) (Some (js "Clubs"))
                   None) net0)
      as (resp & n' & Hrun & _ & -> & _).
    by rewrite Hrun.
  - destruct (writeToAirtable_results demo_client
                (WriteRequest None (Some (js "app1")) (Some (js "Clubs"))
                   (Some demo_updates)) net0)
      as (resp & n' & Hrun & _ & -> & _).
    by rewrite Hrun.
Defined.

Lemma write_fields_lookup_witness :
  write_fields (ClubUpdate (js "rec1") None None
                  [ImageResult [] (js "u1") [] (js "a1") 0 [] [];
                   ImageResult [] (js "u2") [] (js "a2") 0 [] []])
    !! gallery_url_field 1 = Some (js "u2").
Proof.
  destruct (write_fields_lookup
              (ClubUpdate (js "rec1") None None
                 [ImageResult [] (js "u1") [] (js "a1") 0 [] [];
                  ImageResult [] (js "u2") [] (js "a2") 0 [] []]))
    as (_ & _ & _ & _ & Hgallery).
  destruct (Hgallery 1%nat (ImageResult [] (js "u2") [] (js "a2") 0 [] []) eq_refl)
    as [Hurl _].
  exact Hurl.
Defined.

(** ** The batch endpoint *)

Section BatchFacts.
Context {World R : Type}
        (post_image : batch_call → World → outcome (batch_reply R) * World).
Implicit Types (n : net World) (images : batch_images (R:=R)).

Local Abbreviation steps_of := (list (batch_images (R:=R) → M World (batch_images (R:=R)))).

Lemma run_steps_total (steps : steps_of) : ∀ images n,
  ∃ done n', run_steps steps images n = (Ok done, n').
Proof.
  induction steps as [|step rest IH]; intros images n; simpl; [by eexists _, _|].
  destruct (step images n) as [[images'|e] n1]; [apply IH|by eexists _, _].
Qed.

Lemma run_steps_app (s1 s2 : steps_of) : ∀ images n,
  run_steps (s1 ++ s2) images n
  = match run_steps s1 images n with
    | (Ok (images', Completed), n') => run_steps s2 images' n'
    | other => other
    end.
Proof.
  induction s1 as [|step rest IH]; intros images n; simpl; [done|].
  destruct (step images n) as [[images'|e] n1]; [apply IH|done].
Qed.

(** One request stores at most one image and changes nothing else. *)
Lemma batch_step_run call store images n :
  (∃ n', batch_step post_image call store images n = (Ok images, n'))
  ∨ (∃ data n', batch_step post_image call store images n = (Ok (store data images), n'))
  ∨ (∃ e n', batch_step post_image call store images n = (Throw e, n')).
Proof.
  unfold batch_step, mbind, M_bind, lift_outcome, of_outcome.
  destruct (post_image call (world n)) as [[response|e] w]; [|right; right; eauto].
  destruct (bp_ok response); [|left; eauto].
  destruct (bp_result response) as [data|e]; [right; left; eauto|right; right; eauto].
Qed.

Lemma run_one_step call store images n :
  ∃ images' status n',
    run_steps [batch_step post_image call store] images n = (Ok (images', status), n')
    ∧ (images' = images ∨ ∃ data, images' = store data images).
Proof.
  simpl.
  destruct (batch_step_run call store images n)
    as [(n' & ->)|[(data & n' & ->)|(e & n' & ->)]]; eexists _, _, _; eauto.
Qed.

Lemma run_gallery_steps clubName urls : ∀ i images n,
  ∃ images' status n',
    run_steps (gallery_steps post_image clubName i urls) images n
    = (Ok (images', status), n')
    ∧ images'.1 = images.1
    ∧ ∃ extra, images'.2 = images.2 ++ extra ∧ (length extra ≤ length urls)%nat.
Proof.
  induction urls as [|url rest IH]; intros i images n; simpl.
  - eexists _, _, _. split; [done|]. split; [done|]. exists []. by rewrite app_nil_r.
  - destruct images as [[hero logo] gallery].
    set (images := (hero, logo, gallery)).
    destruct (batch_step_run (BatchCall url (js "gallery") clubName (Some i))
                push_gallery images n)
      as [(n' & ->)|[(data & n' & ->)|(e & n' & ->)]].
    + destruct (IH (i + 1)%nat images n') as (im & st & n2 & -> & H1 & extra & H2 & H3).
      eexists _, _, _. split; [done|]. split; [done|]. exists extra. split; [done|lia].
    + destruct (IH (i + 1)%nat (push_gallery data images) n')
        as (im & st & n2 & -> & H1 & extra & H2 & H3).
      eexists _, _, _. split; [done|]. split; [done|].
      exists (data :: extra). simpl in H2. rewrite H2, <- app_assoc.
      split; [done|simpl; lia].
    + eexists _, _, _. split; [done|]. split; [done|]. exists [].
      rewrite app_nil_r. split; [done|simpl; lia].
Qed.

Lemma batch_club_result_run club n :
  ∃ result n',
    batch_club_result post_image club n = (Ok result, n')
    ∧ br_clubName result = bc_name club ∧ br_rowIndex result = bc_rowIndex club
    ∧ (given (bc_heroUrl club) = false → br_hero result = None)
    ∧ (given (bc_logoUrl club) = false → br_logo result = None)
    ∧ (length (br_gallery result)
       ≤ min 4 (length (default [] (bc_galleryUrls club))))%nat.
Proof.
  unfold batch_club_result, club_steps.
  set (hero_steps := match bc_heroUrl club with Some _ => _ | None => _ end).
  set (logo_steps := match bc_logoUrl club with Some _ => _ | None => _ end).
  set (rest_steps := match bc_galleryUrls club with Some _ => _ | None => _ end).
  assert (Hhero : ∀ images n0, ∃ images' status n1,
            run_steps hero_steps images n0 = (Ok (images', status), n1)
            ∧ images'.1.2 = images.1.2 ∧ images'.2 = images.2
            ∧ (given (bc_heroUrl club) = false → images'.1.1 = images.1.1)).
  { intros images n0. subst hero_steps.
    destruct (bc_heroUrl club) as [url|]; simpl;
      [destruct (truthy url)|]; [|by eexists _, _, _..].
    destruct (run_one_step (BatchCall url (js "hero") (bc_name club) None) set_hero
                images n0) as (im & st & n1 & Hrun & [->|[data ->]]);
      eexists _, _, _; (split; [exact Hrun|]); by repeat split. }
  assert (Hlogo : ∀ images n0, ∃ images' status n1,
            run_steps logo_steps images n0 = (Ok (images', status), n1)
            ∧ images'.1.1 = images.1.1 ∧ images'.2 = images.2
            ∧ (given (bc_logoUrl club) = false → images'.1.2 = images.1.2)).
  { intros images n0. subst logo_steps.
    destruct (bc_logoUrl club) as [url|]; simpl;
      [destruct (truthy url)|]; [|by eexists _, _, _..].
    destruct (run_one_step (BatchCall url (js "logo") (bc_name club) None) set_logo
                images n0) as (im & st & n1 & Hrun & [->|[data ->]]);
      eexists _, _, _; (split; [exact Hrun|]); by repeat split. }
  assert (Hrest : ∀ images n0, ∃ images' status n1,
            run_steps rest_steps images n0 = (Ok (images', status), n1)
            ∧ images'.1 = images.1
            ∧ ∃ extra, images'.2 = images.2 ++ extra
                       ∧ (length extra
                          ≤ min 4 (length (default [] (bc_galleryUrls club))))%nat).
  { intros images n0. subst rest_steps.
    destruct (bc_galleryUrls club) as [urls|].
    - change (default [] (Some urls)) with urls.
      destruct (run_gallery_steps (bc_name club) (take (min (length urls) 4) urls)
                  0 images n0) as (im & st & n1 & Hrun & H1 & extra & H2 & H3).
      eexists _, _, _. split; [exact Hrun|]. split; [done|].
      exists extra. split; [done|]. rewrite length_take in H3. lia.
    - eexists _, _, _. split; [done|]. split; [done|]. exists [].
      rewrite app_nil_r. split; [done|]. change (length []) with 0%nat. lia. }
  assert (Hall : ∃ images' status n1,
            run_steps (hero_steps ++ logo_steps ++ rest_steps) (None, None, []) n
            = (Ok (images', status), n1)
            ∧ (given (bc_heroUrl club) = false → images'.1.1 = None)
            ∧ (given (bc_logoUrl club) = false → images'.1.2 = None)
            ∧ (length images'.2
               ≤ min 4 (length (default [] (bc_galleryUrls club))))%nat).
  { rewrite run_steps_app.
    destruct (Hhero (None, None, []) n) as (im1 & st1 & n1 & -> & A1 & A2 & A3).
    simpl in A1, A2, A3.
    destruct st1;
      [|eexists _, _, _; split; [done|]; rewrite A1, A2;
        split; [exact A3|]; split; [done|]; change (length []) with 0%nat; lia].
    rewrite run_steps_app.
    destruct (Hlogo im1 n1) as (im2 & st2 & n2 & -> & B1 & B2 & B3).
    destruct st2;
      [|eexists _, _, _; split; [done|]; rewrite B1, B2, A2;
        split; [exact A3|]; split; [by intros H; rewrite (B3 H)|];
        change (length []) with 0%nat; lia].
    destruct (Hrest im2 n2) as (im3 & st3 & n3 & -> & C1 & extra & C2 & C3).
    eexists _, _, _. split; [done|].
    rewrite C2, B2, A2, C1, B1.
    split; [exact A3|]. split; [by intros H; rewrite (B3 H)|done]. }
  destruct Hall as (images' & status & n1 & Hrun & H1 & H2 & H3).
  eexists _, _. split; [by rewrite (bind_Ok _ _ _ _ _ Hrun)|].
  cbn [br_clubName br_rowIndex br_hero br_logo br_gallery fst snd]. done.
Qed.

(** X25: the batch endpoint never fails on a request: it returns one
    result per club, in order, with the club's name and row index, a hero
    and a logo only if the club has the URL, and at most four gallery
    images (never more than the club has URLs). *)
Theorem processBatch_results clubs n :
  ∃ results n',
    processBatch post_image clubs n = (Ok results, n')
    ∧ Forall2 (λ club result,
                 br_clubName result = bc_name club
                 ∧ br_rowIndex result = bc_rowIndex club
                 ∧ (given (bc_heroUrl club) = false → br_hero result = None)
                 ∧ (given (bc_logoUrl club) = false → br_logo result = None)
                 ∧ (length (br_gallery result)
                    ≤ min 4 (length (default [] (bc_galleryUrls club))))%nat)
              clubs results.
Proof.
  unfold processBatch. apply for_each_total.
  intros club n0. apply batch_club_result_run.
Qed.

Lemma run_steps_refused (steps : steps_of) images n :
  Forall (λ step, ∀ im n0, ∃ n1, step im n0 = (Ok im, n1)) steps →
  ∃ n', run_steps steps images n = (Ok (images, Completed), n').
Proof.
  intros Hsteps. revert n.
  induction Hsteps as [|step rest Hstep _ IH]; intros n; simpl; [by eexists|].
  destruct (Hstep images n) as [n1 ->]. apply IH.
Qed.

(** X26: a request answered with an error status is dropped without a
    trace: when the image endpoint answers every request with a status
    that is not OK, every club is reported as completed, with no image and
    no error. *)
Theorem processBatch_drops_refusals clubs n :
  (∀ call w, ∃ reply w', post_image call w = (Ok reply, w') ∧ bp_ok reply = false) →
  ∃ n',
    processBatch post_image clubs n
    = (Ok ((λ club, BatchResult (bc_name club) (bc_rowIndex club) None None []
                      Completed) <$> clubs), n').
Proof.
  intros Hrefused.
  assert (Hstep : ∀ call store (im : batch_images (R:=R)) n0,
            ∃ n1, batch_step post_image call store im n0 = (Ok im, n1)).
  { intros call store im n0. unfold batch_step, mbind, M_bind, lift_outcome.
    destruct (Hrefused call (world n0)) as (reply & w' & -> & ->). by eexists. }
  assert (Hgallery : ∀ clubName urls i,
            Forall (λ step, ∀ (im : batch_images (R:=R)) n0,
                      ∃ n1, step im n0 = (Ok im, n1))
                   (gallery_steps post_image clubName i urls)).
  { intros clubName urls. induction urls as [|url rest IH]; intros i; simpl;
      constructor; [intros; apply Hstep|apply IH]. }
  unfold processBatch. revert n.
  induction clubs as [|club rest IH]; intros n; simpl; [by eexists|].
  assert (Hclub : ∃ n1, batch_club_result post_image club n
                        = (Ok (BatchResult (bc_name club) (bc_rowIndex club)
                                 None None [] Completed), n1)).
  { unfold batch_club_result.
    destruct (run_steps_refused (club_steps post_image club) (None, None, []) n)
      as [n1 Hrun].
    - unfold club_steps. rewrite !Forall_app. split; [|split].
      + destruct (bc_heroUrl club) as [url|]; [destruct (truthy url)|];
          repeat constructor. intros; apply Hstep.
      + destruct (bc_logoUrl club) as [url|]; [destruct (truthy url)|];
          repeat constructor. intros; apply Hstep.
      + destruct (bc_galleryUrls club); [apply Hgallery|constructor].
    - exists n1. by rewrite (bind_Ok _ _ _ _ _ Hrun). }
  destruct Hclub as [n1 Hclub]. destruct (IH n1) as [n2 Hrest].
  exists n2. by rewrite (bind_Ok _ _ _ _ _ Hclub), (bind_Ok _ _ _ _ _ Hrest).
Qed.

(** X27: an exception ends the processing of its club and nothing else:
    when the hero request of a club is answered OK with a result and the
    logo request throws, the club is reported with that hero, no logo, no
    gallery image and status error with the message of the exception; no
    request is made for its gallery. *)
Theorem processBatch_keeps_stored_images club hero logo n reply data
    (w1 w2 : World) e :
  bc_heroUrl club = Some hero → truthy hero = true →
  bc_logoUrl club = Some logo → truthy logo = true →
  post_image (BatchCall hero (js "hero") (bc_name club) None) (world n)
  = (Ok reply, w1) →
  bp_ok reply = true → bp_result reply = Ok data →
  post_image (BatchCall logo (js "logo") (bc_name club) None) w1 = (Throw e, w2) →
  batch_club_result post_image club n
  = (Ok (BatchResult (bc_name club) (bc_rowIndex club) (Some data) None []
           (Errored (message e))), Net w2 (airtable_log n)).
Proof.
  intros Hh Hht Hl Hlt Hpost Hok Hdata Hthrow.
  assert (H1 : batch_step post_image (BatchCall hero (js "hero") (bc_name club) None)
                 set_hero (None, None, []) n
               = (Ok (Some data, None, []), Net w1 (airtable_log n))).
  { unfold batch_step, mbind, M_bind, lift_outcome, of_outcome.
    by rewrite Hpost, Hok, Hdata. }
  assert (H2 : batch_step post_image (BatchCall logo (js "logo") (bc_name club) None)
                 set_logo (Some data, None, []) (Net w1 (airtable_log n))
               = (Throw e, Net w2 (airtable_log n))).
  { unfold batch_step, mbind, M_bind, lift_outcome. cbn [world]. by rewrite Hthrow. }
  unfold batch_club_result, club_steps. rewrite Hh, Hht, Hl, Hlt.
  cbn [app run_steps]. unfold mbind, M_bind. by rewrite H1, H2.
Qed.
End BatchFacts.

Lemma processBatch_drops_refusals_witness :
  ∃ n', processBatch refusing_endpoint [demo_batch_club] net0
        = (Ok [BatchResult (js "Chess Club") (Some 2) None None [] Completed], n').
Proof.
  apply (processBatch_drops_refusals refusing_endpoint [demo_batch_club] net0).
  intros call w. by exists (BatchReply false (Ok ())), w.
Defined.

Lemma processBatch_keeps_stored_images_witness :
  batch_club_result flaky_endpoint hero_logo_club net0
  = (Ok (BatchResult (js "Chess Club") (Some 2) (Some (js "https://img.test/h.png"))
           None [] (Errored (js "socket hang up"))), net0).
Proof.
  apply (processBatch_keeps_stored_images flaky_endpoint hero_logo_club
           (js "https://img.test/h.png") (js "https://img.test/l.png") net0
           (BatchReply true (Ok (js "https://img.test/h.png")))
           (js "https://img.test/h.png") () ()
           (new_Error (js "socket hang up")));
    reflexivity.
Defined.

(** ** File names of a club *)

Section FileNames.
Context {World : Type} (P : platform World) (env : environment).

(** X28: the assets of a club have pairwise distinct slots and pairwise
    distinct file names, and there are at most six of them: no asset of a
    club replaces another asset of the same club under its file name. *)
Theorem process_club_file_names_distinct c (n : net World) :
  ∃ r n',
    process_club P env c n = (Ok r, n')
    ∧ NoDup (type <$> processed r)
    ∧ NoDup (filename <$> processed r)
    ∧ (length (processed r) ≤ 6)%nat.
Proof.
  destruct (process_club_assets_run P env c n) as (r & n' & Hrun & _ & Hsub & Hall & _).
  exists r, n'. split; [done|].
  assert (Htypes : NoDup (type <$> processed r)).
  { eapply sublist_NoDup; [|exact Hsub].
    apply (bool_decide_unpack _). by vm_compute. }
  split; [done|]. split.
  - assert (Hnames : filename <$> processed r
                     = (λ t, upload_filename (name c) t ++ js ".webp")
                         <$> (type <$> processed r)).
    { rewrite <- list_fmap_compose. apply Forall_fmap_ext_1.
      eapply Forall_impl; [exact Hall|]. by intros p (_ & Hf & _). }
    rewrite Hnames. apply NoDup_fmap_2_strong; [|done].
    intros t t' _ _ Heq. unfold upload_filename in Heq.
    apply app_inv_tail in Heq. by do 2 apply app_inv_head in Heq.
  - apply sublist_length in Hsub. by rewrite length_fmap in Hsub.
Qed.
End FileNames.

(** ** Storage keys of extracted clubs *)

Section CleanNames.
Context {World : Type} (P : platform World).
Hypothesis toLowerCase_ascii :
  ∀ s, Forall (λ c, is_ascii c = true) s → toLowerCase P s = ascii_lower <$> s.

Lemma extract_row_name values c :
  extract_row P values = Some c → ∃ text, name c = cleanClubName P text.
Proof.
  unfold extract_row. destruct (length values <? 30)%nat; [done|].
  destruct (_ || _ || _); [|done]. intros [= <-]. by eexists.
Qed.

(** X29: every club [parseCSV] returns has a cleaned name of at most 50
    characters among [a-z0-9_-], so that every storage key requested for
    it, [joinphilly/<name>-<slot>], is made of these characters and the
    slash. *)
Theorem parseCSV_names_are_clean csvText clubs :
  parseCSV P csvText = Some clubs →
  Forall (λ c, Forall (λ ch, is_clean_char ch = true) (name c)
               ∧ (length (name c) ≤ 50)%nat
               ∧ ∀ imageType, imageType ∈ slot_types →
                   Forall (λ ch, is_key_char ch = true)
                          (opt_public_id (upload_options_for (name c) imageType)))
         clubs.
Proof.
  unfold parseCSV, extract. intros Hclubs.
  destruct (parse csvText) as [rs|]; [|done]. injection Hclubs as <-.
  destruct (length rs <? 1)%nat; [constructor|].
  apply Forall_forall. intros c Hc.
  apply list_elem_of_omap in Hc as (values & _ & Hc).
  apply extract_row_name in Hc as [text ->].
  destruct (cleanClubName_clean P toLowerCase_ascii text) as [Hclean Hlen].
  split; [done|]. split; [done|].
  intros imageType Hty. unfold upload_options_for, upload_filename.
  cbn [opt_public_id].
  assert (Hkey : ∀ s, Forall (λ ch, is_clean_char ch = true) s →
                      Forall (λ ch, is_key_char ch = true) s).
  { intros s Hs. eapply Forall_impl; [exact Hs|].
    intros ch Hch. unfold is_key_char. by rewrite Hch. }
  rewrite !Forall_app. split; [(apply (bool_decide_unpack _); by vm_compute)|].
  split; [by apply Hkey|]. split; [(apply (bool_decide_unpack _); by vm_compute)|].
  unfold slot_types, gallery_types in Hty.
  rewrite !elem_of_cons, elem_of_nil in Hty.
  destruct Hty as [->|[->|[->|[->|[->|[->|[]]]]]]];
    (apply (bool_decide_unpack _); by vm_compute).
Qed.
End CleanNames.

Lemma parseCSV_names_are_clean_witness :
  ∃ clubs,
    parseCSV demo_platform demo_upload = Some clubs
    ∧ Forall (λ c, (length (name c) ≤ 50)%nat) clubs.
Proof.
  destruct (parseCSV demo_platform demo_upload) as [clubs|] eqn:Hclubs;
    [|by vm_compute in Hclubs].
  exists clubs. split; [done|].
  eapply Forall_impl.
  - apply (parseCSV_names_are_clean demo_platform (λ s _, eq_refl) demo_upload clubs).
    exact Hclubs.
  - by intros c (_ & Hlen & _).
Defined.

(** ** Alt text *)

Lemma capitalize_words_word (word rest : list N) :
  Forall (λ c, is_word c = true) word →
  capitalize_words_from true (word ++ rest) = word ++ capitalize_words_from true rest.
Proof.
  induction 1 as [|c word Hc _ IH]; simpl; [done|].
  rewrite Hc. simpl. by rewrite IH.
Qed.

Lemma capitalize_words_first (word rest : list N) :
  word ≠ [] → Forall (λ c, is_word c = true) word →
  capitalize_words_from false (word ++ rest)
  = capitalize word ++ capitalize_words_from true rest.
Proof.
  intros Hne Hword. destruct Hword as [|c word Hc Hword]; [done|]. simpl.
  rewrite Hc. simpl. f_equal. by apply capitalize_words_word.
Qed.

Lemma hyphens_to_spaces_word (word : list N) :
  Forall (λ c, is_lower c = true) word →
  (λ c, if is_hyphen c then SPACE else c) <$> word = word.
Proof.
  intros Hword. apply fmap_fixed. eapply Forall_impl; [exact Hword|].
  intros c Hc. simpl. destruct (is_hyphen c) eqn:Hh; [|done].
  unfold is_hyphen in Hh. apply N.eqb_eq in Hh. subst c. by vm_compute in Hc.
Qed.

Lemma lower_is_word c : is_lower c = true → is_word c = true.
Proof. unfold is_word. intros ->. by rewrite !orb_true_r. Qed.

Lemma proper_name_of_words (words : list (list N)) :
  Forall (λ word, word ≠ [] ∧ Forall (λ c, is_lower c = true) word) words →
  capitalize_words_from false
    ((λ c, if is_hyphen c then SPACE else c) <$> join_words HYPHEN words)
  = join_words SPACE (capitalize <$> words).
Proof.
  induction 1 as [|word rest [Hne Hlower] Hrest IH]; [done|].
  assert (Hword : Forall (λ c, is_word c = true) word).
  { eapply Forall_impl; [exact Hlower|]. apply lower_is_word. }
  destruct rest as [|next rest].
  - simpl. rewrite hyphens_to_spaces_word by done.
    rewrite <- (app_nil_r word) at 1.
    rewrite capitalize_words_first by done. simpl. by rewrite app_nil_r.
  - change (join_words HYPHEN (word :: next :: rest))
      with (word ++ HYPHEN :: join_words HYPHEN (next :: rest)).
    change (join_words SPACE (capitalize <$> word :: next :: rest))
      with (capitalize word ++ SPACE :: join_words SPACE (capitalize <$> next :: rest)).
    rewrite fmap_app, fmap_cons, hyphens_to_spaces_word by done.
    rewrite capitalize_words_first by done. f_equal.
    change (is_hyphen HYPHEN) with true. cbn [capitalize_words_from].
    change (is_word SPACE) with false. cbn [andb]. f_equal. exact IH.
Qed.

(** X30: for a name made of lower-case words joined by hyphens (a cleaned
    club name of letters), the alt text is the words with their first
    letter in upper case, separated by spaces, followed by the phrase of
    the slot: [hero image], [logo], [group photo] for the four gallery
    slots, and [image] for anything else. *)
Theorem generateAltText_of_words (words : list (list N)) imageType :
  Forall (λ word, word ≠ [] ∧ Forall (λ c, is_lower c = true) word) words →
  generateAltText (join_words HYPHEN words) imageType
  = join_words SPACE (capitalize <$> words) ++ alt_phrase imageType.
Proof.
  intros Hwords. unfold generateAltText, alt_phrase.
  rewrite proper_name_of_words by done.
  destruct (str_eqb imageType (js "hero")); [done|].
  destruct (str_eqb imageType (js "logo")); [done|].
  by destruct (is_gallery_type imageType).
Qed.

Lemma generateAltText_of_words_witness :
  generateAltText (js "chess-club") (js "gallery-2") = js "Chess Club group photo".
Proof.
  apply (generateAltText_of_words [js "chess"; js "club"] (js "gallery-2")).
  repeat constructor; try done; (apply (bool_decide_unpack _); by vm_compute).
Defined.
